(** * Bounan.Matcher: the batch matching pipeline

    A shallow embedding of [Matcher/main.py],
    [Matcher/scenes_finder/find_scenes.py],
    [Matcher/scenes_finder/audio_provider.py] and
    [Matcher/clients/animan_client.py], followed by the properties of the
    pipeline that are stated about them.

    Conventions of the embedding:
    - a Python [float] is a rational extended with the IEEE special values
      (module [PyFloat]); finite arithmetic is exact, rounding is not
      modelled, so sums are stated in the order in which the code adds and
      no property rests on a law of exact addition that doubles lack
      (associativity, cancelling a common shift, landing on a decimal);
    - a Python [int] is a [Z];
    - the process-wide [Config] singleton is an explicit record;
    - code that raises returns [Raise]; code that mutates shared state
      threads a [World]. *)

From Stdlib Require Import ZArith QArith Qabs Qround String Lia Lqa.
From stdpp Require Import base option list gmap strings sorting.

Local Open Scope Z_scope.

(** ** Python floats *)

Module PyFloat.

Inductive float : Type :=
| Fin (q : Q)
| PInf
| NInf
| NaN.

Definition of_int (z : Z) : float := Fin (inject_Z z).

(** [math.isnan] *)
Definition isnan (x : float) : bool :=
  match x with NaN => true | _ => false end.

(** [math.isfinite] *)
Definition isfinite (x : float) : bool :=
  match x with Fin _ => true | _ => false end.

Definition neg (x : float) : float :=
  match x with
  | Fin q => Fin (- q)
  | PInf => NInf
  | NInf => PInf
  | NaN => NaN
  end.

Definition add (x y : float) : float :=
  match x, y with
  | NaN, _ | _, NaN => NaN
  | Fin a, Fin b => Fin (a + b)
  | PInf, NInf | NInf, PInf => NaN
  | PInf, _ | _, PInf => PInf
  | NInf, _ | _, NInf => NInf
  end.

Definition sub (x y : float) : float := add x (neg y).

Definition Qlt_bool (a b : Q) : bool := negb (Qle_bool b a).

(** [x < y]; every comparison with NaN is false. *)
Definition lt (x y : float) : bool :=
  match x, y with
  | NaN, _ | _, NaN => false
  | Fin a, Fin b => Qlt_bool a b
  | Fin _, PInf => true
  | Fin _, NInf => false
  | PInf, _ => false
  | NInf, NInf => false
  | NInf, _ => true
  end.

(** [x <= y] *)
Definition le (x y : float) : bool :=
  match x, y with
  | NaN, _ | _, NaN => false
  | Fin a, Fin b => Qle_bool a b
  | Fin _, PInf => true
  | Fin _, NInf => false
  | PInf, PInf => true
  | PInf, _ => false
  | NInf, _ => true
  end.

Definition gt (x y : float) : bool := lt y x.
Definition ge (x y : float) : bool := le y x.

(** The builtin [min(a, b)]: [a] unless [b < a]. *)
Definition py_min (a b : float) : float := if lt b a then b else a.

(** The builtin [max(a, b)]: [a] unless [b > a]. *)
Definition py_max (a b : float) : float := if gt b a then b else a.

(** The builtin [abs]. *)
Definition py_abs (x : float) : float :=
  match x with
  | Fin q => Fin (Qabs q)
  | PInf | NInf => PInf
  | NaN => NaN
  end.

(** [x / 2] *)
Definition half (x : float) : float :=
  match x with
  | Fin q => Fin (q / 2)
  | other => other
  end.

Definition round_half_even (q : Q) : Z :=
  let f := Qfloor q in
  match (q - inject_Z f ?= 1 # 2)%Q with
  | Lt => f
  | Gt => f + 1
  | Eq => if Z.even f then f else f + 1
  end.

(** [round(x, 2)]: nearest multiple of 1/100, ties to even; the special
    values are returned as they are. *)
Definition round2 (x : float) : float :=
  match x with
  | Fin q => Fin (inject_Z (round_half_even (q * 100)) / 100)
  | other => other
  end.

(** [sum(xs)]: left to right, starting from the integer 0. *)
Definition sum (xs : list float) : float := foldl add (of_int 0) xs.

(** Numeric equality of two floats as values: rationals are compared by
    their value, not by their representation. *)
Definition feq (x y : float) : Prop :=
  match x, y with
  | Fin a, Fin b => (a == b)%Q
  | PInf, PInf | NInf, NInf | NaN, NaN => True
  | _, _ => False
  end.

End PyFloat.

Import PyFloat.

(** ** Configuration ([Matcher/config/config.py])

    The integer-valued options the pipeline reads. *)

Record ConfigT : Type := {
  loan_api_function_arn : string;
  get_series_to_match_lambda_name : string;
  update_video_scenes_lambda_name : string;
  min_episode_number : Z;
  episodes_to_match : Z;
  seconds_to_match : Z;
  scene_after_opening_threshold_secs : Z;
  min_scene_length_secs : Z;
  batch_size : Z;
}.

(** The defaults of [config.py]; the lambda names and
    [min_episode_number] have none there. *)
Definition default_config (min_episodes : Z) : ConfigT := {|
  loan_api_function_arn := "loan-api";
  get_series_to_match_lambda_name := "get-series-to-match";
  update_video_scenes_lambda_name := "update-video-scenes";
  min_episode_number := min_episodes;
  episodes_to_match := 5;
  seconds_to_match := 6 * 60;
  scene_after_opening_threshold_secs := 4;
  min_scene_length_secs := 20;
  batch_size := 10;
|}.

(** ** Data model ([Common.py.models])

    The module is not among the sources; its classes are used by the
    sources through the fields below. *)

(** Modelled from the spec: [Common.py.models.VideoKey] is missing; section
    3 gives it a series id, a dub and an episode, and the sources read
    [my_anime_list_id], [dub] and [episode]. *)
Record VideoKey : Type := {
  my_anime_list_id : Z;
  dub : string;
  episode : Z;
}.

(** Modelled from the spec: [Common.py.models.Interval] is missing; section
    3 gives it a start and an end in seconds. [end] is reserved, the field
    is [end_]. *)
Record Interval : Type := {
  start : float;
  end_ : float;
}.

(** Modelled from the spec: [Common.py.models.Scenes] is missing; section 3
    gives it three optional intervals, which [find_scenes.py] passes in
    this order. *)
Record Scenes : Type := {
  opening : option Interval;
  ending : option Interval;
  scene_after_ending : option Interval;
}.

(** Modelled from the spec: [Common.py.models.MatcherResultRequestItem] and
    [MatcherResultRequest] are missing; a result pairs a video key with
    its scenes, where [None] stands for the all-absent fallback, and a
    request is a list of them. *)
Record MatcherResultRequestItem : Type := {
  video_key : VideoKey;
  scenes : option Scenes;
}.

Record MatcherResultRequest : Type := {
  items : list MatcherResultRequestItem;
}.

(** The part of [m3u8] the pipeline reads: a playlist is its list of
    segments, and both fields of a segment are optional. *)
Record Segment : Type := {
  absolute_uri : option string;
  duration : option float;
}.

Record M3U8 : Type := {
  segments : list Segment;
}.

(** What the audio provider yields: [(wav_path, offset, truncated_duration)]. *)
Definition AudioWindow : Type := (string * float * float)%type.

(** ** Exceptions, the world and the monad of effectful code *)

Inductive exn : Type :=
| AssertionError
| IndexError
| ValueError
| StatisticsError
| RecursionError.

Inductive result (A : Type) : Type :=
| Ok (a : A)
| Raise (e : exn).
Arguments Ok {A} a.
Arguments Raise {A} e.

Inductive Level : Type := DEBUG | INFO | WARNING | ERROR.

(** The log records of the modelled functions, one constructor per
    [logger] call, with the values the message is formatted from. *)
Inductive Message : Type :=
| MsgReceived (videos_to_match : list VideoKey)
| MsgSameGroup (my_anime_list_id : Z) (dub : string)
| MsgNotEnoughVideos
| MsgUnavailable (unavailable_videos : list VideoKey) (requested : nat)
| MsgVideosToProcess (episodes_to_process : list Z)
| MsgProcessingBatch (batch : list Z)
| MsgBatchProcessed
| MsgBatchError (e : exn)
| MsgScenesByVideo (scenes_by_video : list (VideoKey * Scenes))
| MsgScenesToUpload (items : list MatcherResultRequestItem)
| MsgScenesUploaded
| MsgCountMismatch
| MsgUploadedEmptyScenes
| MsgForceTooMany
| MsgUploadingEmptyScenes (videos_to_match : list VideoKey)
| MsgProcessingVideos
| MsgGettingPlaylist (episode : Z)
| MsgNoSegments (episode : Z)
| MsgTooShort (episode : Z) (total_duration : float)
| MsgSkippingEmpty (empty_playlist_indexes : list nat).

(** The payload of a remote invocation, before serialisation. *)
Inductive Payload : Type :=
| NoPayload
| GetEpisodesRequest (my_anime_list_id : Z) (dub : string)
| GetVideoRequest (my_anime_list_id : Z) (dub : string) (episode : Z)
| ResultPayload (json : string).

(** The state the modelled code shares:
    - [AudioProvider._truncated_durations_per_episode] is declared in the
      class body and only ever mutated in place ([append]), never assigned
      on an instance: it is one list, shared by every instance;
    - the log;
    - the invocations [boto3.client('lambda').invoke] has received. *)
Record World : Type := {
  _truncated_durations_per_episode : list float;
  log : list (Level * Message);
  lambda_invocations : list (string * Payload);
}.

Definition M (A : Type) : Type := World -> result A * World.

Definition ret {A} (a : A) : M A := fun w => (Ok a, w).

Definition raise {A} (e : exn) : M A := fun w => (Raise e, w).

Definition bind {A B} (m : M A) (k : A -> M B) : M B :=
  fun w =>
    match m w with
    | (Ok a, w') => k a w'
    | (Raise e, w') => (Raise e, w')
    end.

Definition lift {A} (r : result A) : M A := fun w => (r, w).

Definition rbind {A B} (r : result A) (k : A -> result B) : result B :=
  match r with
  | Ok a => k a
  | Raise e => Raise e
  end.

Declare Scope py_scope.
Delimit Scope py_scope with py.
Notation "x <- m ;; k" := (bind m (fun x => k))
  (at level 20, m at level 99, k at level 200, only parsing) : py_scope.
Notation "' p <- m ;; k" := (bind m (fun x => let 'p := x in k))
  (at level 20, p pattern, m at level 99, k at level 200, only parsing) : py_scope.
Notation "m ;; k" := (bind m (fun _ => k))
  (at level 100, k at level 200, right associativity, only parsing) : py_scope.
Notation "x <~ r ;; k" := (rbind r (fun x => k))
  (at level 20, r at level 99, k at level 200, only parsing) : py_scope.

Notation "' p <~ r ;; k" := (rbind r (fun x => let 'p := x in k))
  (at level 20, p pattern, r at level 99, k at level 200, only parsing) : py_scope.

Local Open Scope py_scope.

(** [try: body except Exception as e: handler(e)] *)
Definition try_except {A} (body : M A) (handler : exn -> M A) : M A :=
  fun w =>
    match body w with
    | (Ok a, w') => (Ok a, w')
    | (Raise e, w') => handler e w'
    end.

(** [for x in xs: body(x)] *)
Fixpoint for_each {A} (xs : list A) (body : A -> M unit) : M unit :=
  match xs with
  | [] => ret tt
  | x :: xs' => bind (body x) (fun _ => for_each xs' body)
  end.

(** [[f(x) for x in xs]] for an effectful [f] *)
Fixpoint map_M {A B} (f : A -> M B) (xs : list A) : M (list B) :=
  match xs with
  | [] => ret []
  | x :: xs' => bind (f x) (fun y => bind (map_M f xs') (fun ys => ret (y :: ys)))
  end.

Definition logger (level : Level) (msg : Message) : M unit :=
  fun w =>
    (Ok tt,
     {| _truncated_durations_per_episode := _truncated_durations_per_episode w;
        log := log w ++ [(level, msg)];
        lambda_invocations := lambda_invocations w |}).

(** Modelled from the spec: [Matcher.helpers.not_none] is not among the
    sources; the spec takes the duration and the URI of a segment as always
    present, so the helper returns a present value and raises on [None]. *)
Definition not_none {A} (x : option A) : result A :=
  match x with
  | Some a => Ok a
  | None => Raise AssertionError
  end.

(** The external collaborators of the pipeline. *)
Record Env : Type := {
  (** the answer of the remote function to [get_episodes] *)
  episodes_response : Z -> string -> list Z;
  (** the [playlists] of the answer to [get_video]: a dict from quality
      label to manifest URL, in insertion order *)
  video_response : Z -> string -> Z -> list (string * string);
  (** the answer to [get_videos_to_match] *)
  videos_to_match_response : list VideoKey;
  (** [m3u8.load] *)
  m3u8_load : string -> M3U8;
  (** the builtin [int] on a quality label *)
  py_int : string -> result Z;
  (** [recognise_from_audio_files_with_offsets], given the consumed
      windows and the [series_window] of its configuration *)
  recognise_from_audio_files_with_offsets : list AudioWindow -> Z -> list Interval;
  (** [audio_merger.download_and_merge_parts]: the path of the merged file *)
  download_and_merge_parts : nat -> list string -> string;
  (** [to_json] of a result request *)
  to_json : MatcherResultRequest -> string;
}.

(** ** [find_scenes.py]: the pure part of the scene reconciler *)

Section Reconciler.

Variable Config : ConfigT.

Definition _valid_or_none (scene : option Interval) : option Interval :=
  match scene with
  | Some s =>
      if negb (isnan (start s))
         && negb (isnan (end_ s))
         && ge (sub (end_ s) (start s)) (of_int (min_scene_length_secs Config))
      then Some s
      else None
  | None => None
  end.

Definition _combine_scenes (opening ending : Interval) (total_duration : float)
  : Scenes :=
  let new_opening := _valid_or_none (Some opening) in
  let new_ending := _valid_or_none (Some ending) in
  let '(new_ending, scene_after_ending) :=
    match new_ending with
    | Some e =>
        if gt (sub total_duration (end_ e))
              (of_int (scene_after_opening_threshold_secs Config))
        then (Some e, Some {| start := end_ e; end_ := total_duration |})
        else (Some {| start := start e; end_ := total_duration |}, None)
    | None => (None, None)
    end in
  {| opening := new_opening;
     ending := new_ending;
     scene_after_ending := _valid_or_none scene_after_ending |}.

(** An [Interval] object is always truthy, so [if scene] only tests for
    [None]. *)
Definition _round_scene (scene : option Interval) : option Interval :=
  match scene with
  | Some s => Some {| start := round2 (start s); end_ := round2 (end_ s) |}
  | None => None
  end.

Definition _round_scenes (scenes : Scenes) : Scenes :=
  {| opening := _round_scene (opening scenes);
     ending := _round_scene (ending scenes);
     scene_after_ending := _round_scene (scene_after_ending scenes) |}.

(** [sorted] on floats: a stable insertion sort by [<]. On data without
    NaN this is the order every stable sort gives. *)
Fixpoint insert_sorted (x : float) (l : list float) : list float :=
  match l with
  | [] => [x]
  | y :: l' => if lt x y then x :: l else y :: insert_sorted x l'
  end.

Definition sorted (data : list float) : list float :=
  foldl (fun acc x => insert_sorted x acc) [] data.

(** [statistics.median] *)
Definition median (data : list float) : result float :=
  let data := sorted data in
  let n := length data in
  if (n =? 0)%nat then Raise StatisticsError
  else if (n mod 2 =? 1)%nat then
    match data !! (n / 2)%nat with
    | Some x => Ok x
    | None => Raise IndexError
    end
  else
    let i := (n / 2)%nat in
    match data !! (i - 1)%nat, data !! i with
    | Some a, Some b => Ok (half (add a b))
    | _, _ => Raise IndexError
    end.

(** [zip] of three lists, as the list of triples. *)
Definition zip3 {A B C} (xs : list A) (ys : list B) (zs : list C)
  : list (A * B * C) :=
  zip (zip xs ys) zs.

Definition _fix_openings (openings : list Interval)
    (playlists_and_durations : list (M3U8 * float))
    (truncated_durations : list float) : result (list Interval) :=
  let zipped := zip3 openings truncated_durations playlists_and_durations in
  median_duration <~
    median (map (fun '(opening, _, _) => sub (end_ opening) (start opening)) zipped) ;;
  Ok (map (fun '(opening, duration, (_, total_duration)) =>
             if lt (start opening)
                   (of_int (scene_after_opening_threshold_secs Config))
             then {| start := of_int 0; end_ := end_ opening |}
             else if lt (py_abs (sub total_duration (end_ opening)))
                        (of_int (scene_after_opening_threshold_secs Config))
             then {| start := start opening;
                     end_ := add (start opening) median_duration |}
             else opening)
          zipped).

Definition _fix_endings (endings : list Interval)
    (playlists_and_durations : list (M3U8 * float))
    (truncated_durations : list float) : list Interval :=
  let zipped := zip3 endings truncated_durations playlists_and_durations in
  map (fun '(ending, duration, (_, total_duration)) =>
         let offset := sub total_duration duration in
         {| start := add (start ending) offset;
            end_ := add (end_ ending) offset |})
      zipped.

End Reconciler.

(** ** [audio_provider.py] *)

Record AudioProvider : Type := {
  _playlists : list M3U8;
  _opening : bool;
  _initialized : bool;
  _completed : bool;
}.

(** The frame of the generator [get_iterator] returns: not yet started,
    suspended at the [yield] of iteration [i], or finished. *)
Inductive Frame : Type :=
| Created
| Suspended (i : nat) (wav_path : string)
| Finished.

Section Provider.

Variable Config : ConfigT.
Variable env : Env.

(** [AudioProvider(playlists, opening)]; [_initialized] and [_completed]
    are assigned through [self], so each instance has its own. *)
Definition AudioProvider__init__ (playlists : list M3U8) (opening : bool)
  : AudioProvider :=
  {| _playlists := playlists;
     _opening := opening;
     _initialized := false;
     _completed := false |}.

(** The loop of [_build_segments_list], from the segments still to scan. *)
Fixpoint build_segments_loop (opening : bool) (segment_iter : list Segment)
    (segments : list string) (current_duration : float)
  : result (list string * float) :=
  match segment_iter with
  | [] => Ok (segments, current_duration)
  | segment :: rest =>
      uri <~ not_none (absolute_uri segment) ;;
      let segments := if opening then segments ++ [uri] else uri :: segments in
      d <~ not_none (duration segment) ;;
      let current_duration := add current_duration d in
      if ge current_duration (of_int (seconds_to_match Config))
      then Ok (segments, current_duration)
      else build_segments_loop opening rest segments current_duration
  end.

Definition _build_segments_list (playlist : M3U8) (opening : bool)
  : result (list string * float) :=
  let segment_iter :=
    if opening then segments playlist else rev (segments playlist) in
  build_segments_loop opening segment_iter [] (of_int 0).

Definition _get_wav (playlist : M3U8) (opening : bool) (episode : nat)
  : result (string * float) :=
  ' (segments, current_duration) <~ _build_segments_list playlist opening ;;
  let wav_path := download_and_merge_parts env episode segments in
  Ok (wav_path, current_duration).

Definition set_initialized (self : AudioProvider) : AudioProvider :=
  {| _playlists := _playlists self; _opening := _opening self;
     _initialized := true; _completed := _completed self |}.

Definition set_completed (self : AudioProvider) : AudioProvider :=
  {| _playlists := _playlists self; _opening := _opening self;
     _initialized := _initialized self; _completed := true |}.

(** [self._truncated_durations_per_episode.append(x)]: the attribute is
    found on the class. *)
Definition append_truncated_duration (x : float) : M unit :=
  fun w =>
    (Ok tt,
     {| _truncated_durations_per_episode :=
          _truncated_durations_per_episode w ++ [x];
        log := log w;
        lambda_invocations := lambda_invocations w |}).

(** Modelled from the spec: [Matcher.helpers.pre_request.PreRequestQueue]
    is missing; by section 4.1, awaiting position [i] returns what the work
    submitted for it returns, or fails as it fails, so [pop_result(i)] is
    the value of [_get_wav(playlists[i], opening, i)].

    One turn of the [for] loop of [get_iterator], up to its [yield]; when
    the playlists are exhausted the provider is completed. *)
Definition iteration (self : AudioProvider) (i : nat)
  : M (option AudioWindow * AudioProvider * Frame) :=
  match _playlists self !! i with
  | None => ret (None, set_completed self, Finished)
  | Some playlist =>
      (' (wav_path, segments_duration) <-
         lift (_get_wav playlist (_opening self) i) ;;
       let truncated_duration :=
         py_min segments_duration (of_int (seconds_to_match Config)) in
       let offset :=
         if _opening self then of_int 0
         else py_max (sub segments_duration (of_int (seconds_to_match Config)))
                     (of_int 0) in
       append_truncated_duration truncated_duration ;;
       ret (Some (wav_path, offset, truncated_duration), self,
            Suspended i wav_path))
  end.

(** [next] on the generator: [None] is [StopIteration]. Resuming after a
    [yield] first removes the temporary file, which the model does not
    track. *)
Definition next (self : AudioProvider) (frame : Frame)
  : M (option AudioWindow * AudioProvider * Frame) :=
  match frame with
  | Created =>
      if _initialized self then raise AssertionError
      else
        let self := set_initialized self in
        if (length (_playlists self) <? 2)%nat
        then ret (None, set_completed self, Finished)
        else iteration self 0
  | Suspended i _ => iteration self (S i)
  | Finished => ret (None, self, Finished)
  end.

(** The consumer of the iterator: [next] until [StopIteration]. *)
Fixpoint consume (fuel : nat) (self : AudioProvider) (frame : Frame)
  : M (list AudioWindow * AudioProvider) :=
  match fuel with
  | O => raise RecursionError
  | S fuel' =>
      (' (item, self, frame) <- next self frame ;;
       match item with
       | None => ret ([], self)
       | Some window =>
           ' (windows, self) <- consume fuel' self frame ;;
           ret (window :: windows, self)
       end)
  end.

(** A full consumption of [self.get_iterator()]; one [next] per playlist
    and one more for [StopIteration]. *)
Definition consume_iterator (self : AudioProvider)
  : M (list AudioWindow * AudioProvider) :=
  consume (S (length (_playlists self))) self Created.

(** The property [truncated_durations]. *)
Definition truncated_durations (self : AudioProvider) : M (list float) :=
  if _completed self
  then fun w => (Ok (_truncated_durations_per_episode w), w)
  else raise AssertionError.

End Provider.

(** ** [loanapi_client.py] and [animan_client.py] *)

Section Clients.

Variable Config : ConfigT.
Variable env : Env.

(** [_get_client().invoke(FunctionName=..., Payload=...)]: the invocation
    reaches the remote function. *)
Definition invoke (FunctionName : string) (payload : Payload) : M unit :=
  fun w =>
    (Ok tt,
     {| _truncated_durations_per_episode := _truncated_durations_per_episode w;
        log := log w;
        lambda_invocations := lambda_invocations w ++ [(FunctionName, payload)] |}).

Definition get_episodes (my_anime_list_id : Z) (dub : string) : M (list Z) :=
  invoke (loan_api_function_arn Config)
         (GetEpisodesRequest my_anime_list_id dub) ;;
  ret (episodes_response env my_anime_list_id dub).

(** The [playlists] of the response. *)
Definition get_video (my_anime_list_id : Z) (dub : string) (episode : Z)
  : M (list (string * string)) :=
  invoke (loan_api_function_arn Config)
         (GetVideoRequest my_anime_list_id dub episode) ;;
  ret (video_response env my_anime_list_id dub episode).

Definition get_videos_to_match : M (list VideoKey) :=
  invoke (get_series_to_match_lambda_name Config) NoPayload ;;
  ret (videos_to_match_response env).

(** The call of [invoke] is commented out in the source: the payload is
    computed and dropped. *)
Definition update_video_scenes (data : MatcherResultRequest) : M unit :=
  let payload := to_json env data in
  ret tt.

(** Only the [logger.info] line is live in the source. *)
Definition upload_empty_scenes (videos_to_match : list VideoKey) : M unit :=
  logger INFO (MsgUploadingEmptyScenes videos_to_match).

End Clients.

(** ** [find_scenes.py]: the effectful part *)

(** [enumerate] *)
Definition enumerate {A} (xs : list A) : list (nat * A) :=
  zip (seq 0 (length xs)) xs.

(** [list.insert(index, x)] for a non-negative index: past the end it
    appends. *)
Definition py_insert {A} (index : nat) (x : A) (l : list A) : list A :=
  take index l ++ x :: drop index l.

Section FindScenes.

Variable Config : ConfigT.
Variable env : Env.

(** [min(keys, key=lambda quality: int(quality))], after its first item:
    the first of the items with the least key is kept. *)
Fixpoint min_by_int (best : string) (best_key : Z) (rest : list string)
  : result string :=
  match rest with
  | [] => Ok best
  | quality :: rest' =>
      k <~ py_int env quality ;;
      if k <? best_key then min_by_int quality k rest'
      else min_by_int best best_key rest'
  end.

Definition min_quality (keys : list string) : result string :=
  match keys with
  | [] => Raise ValueError
  | quality :: rest => k <~ py_int env quality ;; min_by_int quality k rest
  end.

(** [playlists[key]] on the dict. *)
Fixpoint dict_getitem (playlists : list (string * string)) (key : string)
  : result string :=
  match playlists with
  | [] => Raise IndexError
  | (k, v) :: rest => if String.eqb k key then Ok v else dict_getitem rest key
  end.

Fixpoint map_result {A B} (f : A -> result B) (xs : list A) : result (list B) :=
  match xs with
  | [] => Ok []
  | x :: xs' => y <~ f x ;; ys <~ map_result f xs' ;; Ok (y :: ys)
  end.

Definition _get_playlist_and_duration (my_anime_list_id : Z) (dub : string)
    (episode : Z) : M (option (M3U8 * float)) :=
  logger INFO (MsgGettingPlaylist episode) ;;
  playlists <- get_video Config env my_anime_list_id dub episode ;;
  lowest_quality <- lift (min_quality (map fst playlists)) ;;
  lowest_quality_playlist <- lift (dict_getitem playlists lowest_quality) ;;
  let playlist := m3u8_load env lowest_quality_playlist in
  match segments playlist with
  | [] => logger WARNING (MsgNoSegments episode) ;; ret None
  | _ =>
      durations <- lift (map_result (fun segment => not_none (duration segment))
                                    (segments playlist)) ;;
      let total_duration := PyFloat.sum durations in
      if lt total_duration (of_int (2 * seconds_to_match Config))
      then logger WARNING (MsgTooShort episode total_duration) ;; ret None
      else ret (Some (playlist, total_duration))
  end.

(** The recogniser is handed the iterator and consumes all of it. *)
Definition _get_openings (playlists_and_durations : list (M3U8 * float))
    (series_window : Z) : M (list Interval) :=
  let playlists := map fst playlists_and_durations in
  let wav_processor := AudioProvider__init__ playlists true in
  ' (opening_iter, wav_processor) <- consume_iterator Config env wav_processor ;;
  let lib_openings :=
    recognise_from_audio_files_with_offsets env opening_iter series_window in
  let openings :=
    map (fun opening => {| start := start opening; end_ := end_ opening |})
        lib_openings in
  truncated_durations <- truncated_durations wav_processor ;;
  lift (_fix_openings Config openings playlists_and_durations truncated_durations).

Definition _get_endings (playlists_and_durations : list (M3U8 * float))
    (series_window : Z) : M (list Interval) :=
  let playlists := map fst playlists_and_durations in
  let wav_processor := AudioProvider__init__ playlists false in
  ' (ending_iter, wav_processor) <- consume_iterator Config env wav_processor ;;
  let lib_endings :=
    recognise_from_audio_files_with_offsets env ending_iter series_window in
  let endings :=
    map (fun ending => {| start := start ending; end_ := end_ ending |})
        lib_endings in
  truncated_durations <- truncated_durations wav_processor ;;
  ret (_fix_endings endings playlists_and_durations truncated_durations).

Definition _get_scenes_by_playlists
    (playlists_and_durations : list (M3U8 * float)) : M (list Scenes) :=
  let series_window := episodes_to_match Config in
  openings <- _get_openings playlists_and_durations series_window ;;
  endings <- _get_endings playlists_and_durations series_window ;;
  ret (map (fun '((_, total_duration), opening, ending) =>
              _round_scenes (_combine_scenes Config opening ending total_duration))
           (zip3 playlists_and_durations openings endings)).

Definition empty_scenes : Scenes :=
  {| opening := None; ending := None; scene_after_ending := None |}.

Definition find_scenes (my_anime_list_id : Z) (dub : string)
    (episodes_to_process : list Z) : M (list (VideoKey * Scenes)) :=
  logger DEBUG MsgProcessingVideos ;;
  playlists_and_durations <-
    map_M (_get_playlist_and_duration my_anime_list_id dub) episodes_to_process ;;
  let empty_playlist_indexes :=
    omap (fun '(i, playlist_and_duration) =>
            match playlist_and_duration with
            | None => Some i
            | Some _ => None
            end)
         (enumerate playlists_and_durations) in
  let non_empty_playlists :=
    omap (fun '(_, playlist_and_duration) => playlist_and_duration)
         (enumerate playlists_and_durations) in
  (if (0 <? length empty_playlist_indexes)%nat
   then logger WARNING (MsgSkippingEmpty empty_playlist_indexes)
   else ret tt) ;;
  found_scenes <- _get_scenes_by_playlists non_empty_playlists ;;
  let all_scenes :=
    foldl (fun all_scenes index => py_insert index empty_scenes all_scenes)
          found_scenes empty_playlist_indexes in
  let video_keys :=
    map (fun episode =>
           {| my_anime_list_id := my_anime_list_id; dub := dub;
              episode := episode |})
        episodes_to_process in
  ret (zip video_keys all_scenes).

End FindScenes.

(** ** [main.py] *)

(** [range(start, stop, step)] *)
Definition py_range (start stop step : Z) : result (list Z) :=
  if step =? 0 then Raise ValueError
  else
    let count :=
      if 0 <? step then (stop - start + step - 1) `div` step
      else (start - stop - step - 1) `div` (- step) in
    Ok (map (fun k => start + k * step) (seqZ 0 count)).

(** [l[i:j]] for bounds that are not negative. *)
Definition py_slice {A} (l : list A) (i j : Z) : list A :=
  take (Z.to_nat j - Z.to_nat i) (drop (Z.to_nat i) l).

(** [batches[-2].extend(batches.pop())] *)
Definition extend_previous_with_last {A} (batches : list (list A))
  : list (list A) :=
  match reverse batches with
  | last_batch :: previous :: rest => reverse rest ++ [previous ++ last_batch]
  | _ => batches
  end.

(** [@retry(tries=2, delay=1)]: a second attempt when the first one raises;
    the delay is not modelled. *)
Definition retry {A} (f : M A) : M A :=
  fun w =>
    match f w with
    | (Ok a, w') => (Ok a, w')
    | (Raise _, w') => f w'
    end.

Section Main.

Variable Config : ConfigT.
Variable env : Env.

Definition _ensure_if_all_videos_for_same_group
    (videos_to_match : list VideoKey) : result unit :=
  match videos_to_match with
  | [] => Raise IndexError
  | first :: _ =>
      if forallb (fun video =>
                    (my_anime_list_id video =? my_anime_list_id first)
                    && String.eqb (dub video) (dub first))
                 videos_to_match
      then Ok tt
      else Raise ValueError
  end.

Definition _get_episodes_to_process (videos_to_match : list VideoKey)
    (force : bool) : M (list Z) :=
  match videos_to_match with
  | [] => raise AssertionError
  | first :: _ =>
      available_episodes <-
        get_episodes Config env (my_anime_list_id first) (dub first) ;;
      if force then
        if (length available_episodes <? 27)%nat
        then ret available_episodes
        else logger ERROR MsgForceTooMany ;; ret []
      else
        let episodes_to_match := episodes_to_match Config in
        let episode_index_map : gmap Z Z :=
          foldl (fun m '(idx, episode) => <[episode := Z.of_nat idx]> m)
                ∅ (enumerate available_episodes) in
        let indexes_to_process : gset Z :=
          foldl (fun indexes video =>
                   match episode_index_map !! episode video with
                   | None => indexes
                   | Some video_index =>
                       let start_idx := Z.max 0 (video_index - episodes_to_match) in
                       let end_idx :=
                         Z.min (Z.of_nat (length available_episodes))
                               (video_index + episodes_to_match + 1) in
                       indexes ∪ list_to_set (seqZ start_idx (end_idx - start_idx))
                   end)
                ∅ videos_to_match in
        lift (map_result (fun i => match available_episodes !! Z.to_nat i with
                                   | Some episode => Ok episode
                                   | None => Raise IndexError
                                   end)
                         (merge_sort Z.le (elements indexes_to_process)))
  end.

Definition _get_scenes_to_upload (scenes_by_video : list (VideoKey * Scenes))
  : MatcherResultRequest :=
  {| items := map (fun '(video_key, scenes) =>
                     {| video_key := video_key; scenes := Some scenes |})
                  scenes_by_video |}.

Definition video_keys (my_anime_list_id : Z) (dub : string)
    (episodes : list Z) : list VideoKey :=
  map (fun episode =>
         {| my_anime_list_id := my_anime_list_id; dub := dub;
            episode := episode |})
      episodes.

Definition _process_batch (my_anime_list_id : Z) (dub : string)
    (episodes_to_process : list Z) : M unit :=
  retry
    (scenes_by_video <-
       find_scenes Config env my_anime_list_id dub episodes_to_process ;;
     logger INFO (MsgScenesByVideo scenes_by_video) ;;
     let scenes_to_upload := _get_scenes_to_upload scenes_by_video in
     logger INFO (MsgScenesToUpload (items scenes_to_upload)) ;;
     if (length (items scenes_to_upload) =? length episodes_to_process)%nat
     then
       update_video_scenes env scenes_to_upload ;;
       logger INFO MsgScenesUploaded
     else
       let keys := video_keys my_anime_list_id dub episodes_to_process in
       upload_empty_scenes keys ;;
       logger ERROR MsgCountMismatch ;;
       logger WARNING MsgUploadedEmptyScenes).

(** Lines 117 to 122 of [_process_videos]: the chunks of [batch_size]
    episodes, the last one folded into its predecessor when it is
    short. *)
Definition split_into_batches (episodes_to_process : list Z)
  : result (list (list Z)) :=
  starts <~ py_range 0 (Z.of_nat (length episodes_to_process))
                     (batch_size Config) ;;
  let batches :=
    map (fun i => py_slice episodes_to_process i (i + batch_size Config))
        starts in
  if (1 <? length batches)%nat
     && match last batches with
        | Some last_batch => Z.of_nat (length last_batch) <? batch_size Config
        | None => false
        end
  then Ok (extend_previous_with_last batches)
  else Ok batches.

Definition _process_videos (videos_to_match : list VideoKey) (force : bool)
  : M unit :=
  logger INFO (MsgReceived videos_to_match) ;;
  lift (_ensure_if_all_videos_for_same_group videos_to_match) ;;
  match videos_to_match with
  | [] => raise IndexError
  | first :: _ =>
      let my_anime_list_id := my_anime_list_id first in
      let dub := dub first in
      logger INFO (MsgSameGroup my_anime_list_id dub) ;;
      episodes_to_process <- _get_episodes_to_process videos_to_match force ;;
      if Z.of_nat (length episodes_to_process) <? min_episode_number Config
      then
        logger INFO MsgNotEnoughVideos ;;
        upload_empty_scenes videos_to_match
      else
        let unavailable_videos :=
          filter (fun video => episode video ∉ episodes_to_process)
                 videos_to_match in
        if (0 <? length unavailable_videos)%nat && negb force
        then
          logger INFO (MsgUnavailable unavailable_videos
                                      (length videos_to_match)) ;;
          upload_empty_scenes unavailable_videos
        else
          logger INFO (MsgVideosToProcess episodes_to_process) ;;
          batches <- lift (split_into_batches episodes_to_process) ;;
          for_each batches (fun batch =>
            try_except
              (logger INFO (MsgProcessingBatch batch) ;;
               _process_batch my_anime_list_id dub batch ;;
               logger INFO MsgBatchProcessed)
              (fun e =>
                 logger ERROR (MsgBatchError e) ;;
                 let keys := video_keys my_anime_list_id dub batch in
                 upload_empty_scenes keys))
  end.

End Main.

(** ** Concrete inputs

    A configuration, playlists and collaborators on which the functions
    above are evaluated in the examples below. *)

Module Examples.

Local Open Scope string_scope.

(** The defaults of [config.py] with a shorter audio window. *)
Definition config : ConfigT := {|
  loan_api_function_arn := "loan-api";
  get_series_to_match_lambda_name := "get-series-to-match";
  update_video_scenes_lambda_name := "update-video-scenes";
  min_episode_number := 2;
  episodes_to_match := 5;
  seconds_to_match := 300;
  scene_after_opening_threshold_secs := 4;
  min_scene_length_secs := 20;
  batch_size := 10;
|}.

Definition segment (uri : string) (seconds : Z) : Segment :=
  {| absolute_uri := Some uri; duration := Some (of_int seconds) |}.

(** Three segments of 200 s: 600 s in all, twice the audio window. *)
Definition long_playlist : M3U8 :=
  {| segments := [segment "a.ts" 200; segment "b.ts" 200; segment "c.ts" 200] |}.

(** One segment of 100 s: shorter than twice the audio window. *)
Definition short_playlist : M3U8 :=
  {| segments := [segment "s.ts" 100] |}.

(** Every series has the episodes 1 to [available]; episode 2 is the
    short one; the recogniser answers one fixed guess per window. *)
Definition env (available : Z) : Env := {|
  episodes_response := fun _ _ => seqZ 1 available;
  video_response := fun _ _ episode =>
    [("720", "hd.m3u8");
     ("360", if Z.eqb episode 2 then "short.m3u8" else "long.m3u8")];
  videos_to_match_response := [];
  m3u8_load := fun url =>
    if String.eqb url "short.m3u8" then short_playlist else long_playlist;
  py_int := fun quality =>
    if String.eqb quality "360" then Ok 360
    else if String.eqb quality "720" then Ok 720
    else Raise ValueError;
  recognise_from_audio_files_with_offsets := fun windows _ =>
    map (fun _ => {| start := of_int 10; end_ := of_int 100 |}) windows;
  download_and_merge_parts := fun _ _ => "/tmp/merged.wav";
  to_json := fun _ => "{}";
|}.

(** The state of a fresh process. *)
Definition fresh : World := {|
  _truncated_durations_per_episode := [];
  log := [];
  lambda_invocations := [];
|}.

Definition key (episode : Z) : VideoKey :=
  {| my_anime_list_id := 7; dub := "sub"; episode := episode |}.

End Examples.

(** ** Vocabulary of the statements *)

(** The [j]-th chunk of [size] elements of [l]: [l[j*size:(j+1)*size]]. *)
Definition chunk {A} (size : nat) (l : list A) (j : nat) : list A :=
  take size (drop (j * size) l).

(** A segment with both its URI and its duration. *)
Definition complete (segment : Segment) : Prop :=
  is_Some (absolute_uri segment) /\ is_Some (duration segment).

Definition complete_playlist (playlist : M3U8) : Prop :=
  Forall complete (segments playlist).

(** The [truncated_duration] of a window. *)
Definition captured (window : AudioWindow) : float := snd window.

(** [window] is what the provider yields for the playlist at position [i]. *)
Definition window_of (Config : ConfigT) (env : Env) (opening : bool) (i : nat)
    (playlist : M3U8) (window : AudioWindow) : Prop :=
  exists uris segments_duration,
    _build_segments_list Config playlist opening = Ok (uris, segments_duration)
    /\ window = (download_and_merge_parts env i uris,
                 if opening then of_int 0
                 else py_max (sub segments_duration
                                  (of_int (seconds_to_match Config)))
                             (of_int 0),
                 py_min segments_duration (of_int (seconds_to_match Config))).

(** The world after [xs] have been appended to the shared list. *)
Definition with_truncated (w : World) (xs : list float) : World :=
  {| _truncated_durations_per_episode := _truncated_durations_per_episode w ++ xs;
     log := log w;
     lambda_invocations := lambda_invocations w |}.

(** A log record that reports scenes, found or all-absent, for [video]. *)
Definition answers (record : Level * Message) (video : VideoKey) : Prop :=
  match snd record with
  | MsgUploadingEmptyScenes videos_to_match => video ∈ videos_to_match
  | MsgScenesToUpload items => video ∈ map video_key items
  | _ => False
  end.

Definition answered (records : list (Level * Message)) (video : VideoKey) : Prop :=
  Exists (fun record => answers record video) records.

(** The scenes of a batch, from the resolved manifests and the scenes found
    for the usable ones: an excluded episode gets the all-absent record,
    the others get the found scenes in order. *)
Fixpoint interleave {A} (manifests : list (option A)) (found : list Scenes)
  : list Scenes :=
  match manifests with
  | [] => []
  | None :: manifests' => empty_scenes :: interleave manifests' found
  | Some _ :: manifests' =>
      match found with
      | scenes :: found' => scenes :: interleave manifests' found'
      | [] => []
      end
  end.

(** The positions of [None] in [l], counted from [base]. *)
Definition empty_indexes_from {A} (base : nat) (l : list (option A)) : list nat :=
  omap (fun '(i, x) => match x with None => Some i | Some _ => None end)
       (zip (seq base (length l)) l).

Definition insert_empty (all_scenes : list Scenes) (index : nat) : list Scenes :=
  py_insert index empty_scenes all_scenes.

(** The playlist [_get_playlist_and_duration] loads for an episode: the one
    of the lowest quality. *)
Definition lowest_quality_playlist (env : Env) (my_anime_list_id : Z)
    (dub : string) (episode : Z) : result M3U8 :=
  let playlists := video_response env my_anime_list_id dub episode in
  lowest_quality <~ min_quality env (map fst playlists) ;;
  url <~ dict_getitem playlists lowest_quality ;;
  Ok (m3u8_load env url).

(** A manifest without segments, or whose total duration is below
    [2 * seconds_to_match]. *)
Definition excluded (Config : ConfigT) (playlist : M3U8) : Prop :=
  segments playlist = []
  \/ exists durations,
       map duration (segments playlist) = map Some durations
       /\ lt (PyFloat.sum durations) (of_int (2 * seconds_to_match Config)) = true.

(** An invocation that asks the remote side for episodes or for a video;
    it carries no result. *)
Definition is_request (invocation : string * Payload) : Prop :=
  match snd invocation with
  | GetEpisodesRequest _ _ | GetVideoRequest _ _ _ => True
  | _ => False
  end.

(** Whatever [m] invokes is a request. *)
Definition only_requests {A} (m : M A) : Prop :=
  forall w, exists added,
    lambda_invocations (snd (m w)) = lambda_invocations w ++ added
    /\ Forall is_request added.

(** The recogniser answers one guess per window. *)
Definition recogniser_contract (env : Env) : Prop :=
  forall windows series_window,
    length (recognise_from_audio_files_with_offsets env windows series_window)
    = length windows.

Definition complete_manifests (playlists_and_durations : list (M3U8 * float)) : Prop :=
  Forall (fun playlist_and_duration => complete_playlist (fst playlist_and_duration))
         playlists_and_durations.

(** [_get_playlist_and_duration] returns [manifest] for [episode]. *)
Definition resolves (Config : ConfigT) (env : Env) (my_anime_list_id : Z)
    (dub : string) (episode : Z) (manifest : option (M3U8 * float)) : Prop :=
  forall w, fst (_get_playlist_and_duration Config env my_anime_list_id dub episode w)
            = Ok manifest.

(** [j] is the last position of [episode] in [available]. *)
Definition last_index_of (available : list Z) (episode : Z) (j : nat) : Prop :=
  available !! j = Some episode
  /\ forall j', (j < j')%nat -> available !! j' <> Some episode.

(** The dict of [_get_episodes_to_process]. *)
Definition episode_index_map (available_episodes : list Z) : gmap Z Z :=
  foldl (fun m '(idx, episode) => <[episode := Z.of_nat idx]> m)
        ∅ (enumerate available_episodes).

(** Position [i] of the available episodes is at most [episodes_to_match]
    positions away from the last position of a requested episode. *)
Definition near_requested (Config : ConfigT) (available : list Z)
    (videos_to_match : list VideoKey) (i : nat) : Prop :=
  (i < length available)%nat
  /\ exists video j,
       video ∈ videos_to_match
       /\ last_index_of available (episode video) j
       /\ Z.of_nat j - episodes_to_match Config <= Z.of_nat i
          <= Z.of_nat j + episodes_to_match Config.

(** The set of [_get_episodes_to_process]. *)
Definition window_indexes (Config : ConfigT) (available_episodes : list Z)
    (videos_to_match : list VideoKey) (start_set : gset Z) : gset Z :=
  foldl (fun indexes video =>
           match episode_index_map available_episodes !! episode video with
           | None => indexes
           | Some video_index =>
               let start_idx := Z.max 0 (video_index - episodes_to_match Config) in
               let end_idx :=
                 Z.min (Z.of_nat (length available_episodes))
                       (video_index + episodes_to_match Config + 1) in
               indexes ∪ list_to_set (seqZ start_idx (end_idx - start_idx))
           end)
        start_set videos_to_match.

(** [w'] is [w] with more at the end of its three lists. *)
Definition grows (w w' : World) : Prop :=
  (exists appended, _truncated_durations_per_episode w'
                    = _truncated_durations_per_episode w ++ appended)
  /\ (exists records, log w' = log w ++ records)
  /\ (exists invocations, lambda_invocations w'
                          = lambda_invocations w ++ invocations).

Definition growing {A} (m : M A) : Prop := forall w, grows w (snd (m w)).

(** One attempt of [_process_batch]: the function under [@retry]. *)
Definition process_batch_attempt (Config : ConfigT) (env : Env)
    (my_anime_list_id : Z) (dub : string) (episodes_to_process : list Z) : M unit :=
  scenes_by_video <-
    find_scenes Config env my_anime_list_id dub episodes_to_process ;;
  logger INFO (MsgScenesByVideo scenes_by_video) ;;
  let scenes_to_upload := _get_scenes_to_upload scenes_by_video in
  logger INFO (MsgScenesToUpload (items scenes_to_upload)) ;;
  if (length (items scenes_to_upload) =? length episodes_to_process)%nat
  then
    update_video_scenes env scenes_to_upload ;;
    logger INFO MsgScenesUploaded
  else
    let keys := video_keys my_anime_list_id dub episodes_to_process in
    upload_empty_scenes keys ;;
    logger ERROR MsgCountMismatch ;;
    logger WARNING MsgUploadedEmptyScenes.

(** What the log shows of a finished batch: scenes for exactly its keys
    were handed to [update_video_scenes], or the empty-scenes fallback was
    requested for exactly its keys. *)
Definition batch_outcome (my_anime_list_id : Z) (dub : string) (batch : list Z)
    (records : list (Level * Message)) : Prop :=
  (exists items,
     map video_key items = video_keys my_anime_list_id dub batch
     /\ (INFO, MsgScenesToUpload items) ∈ records
     /\ (INFO, MsgScenesUploaded) ∈ records)
  \/ (INFO, MsgUploadingEmptyScenes (video_keys my_anime_list_id dub batch)) ∈ records.

(** The body of the [for] loop of [_process_videos]. *)
Definition process_batch_step (Config : ConfigT) (env : Env)
    (my_anime_list_id : Z) (dub : string) (batch : list Z) : M unit :=
  try_except
    (logger INFO (MsgProcessingBatch batch) ;;
     _process_batch Config env my_anime_list_id dub batch ;;
     logger INFO MsgBatchProcessed)
    (fun e =>
       logger ERROR (MsgBatchError e) ;;
       let keys := video_keys my_anime_list_id dub batch in
       upload_empty_scenes keys).

(** [_process_videos] from the test of the window size on. *)
Definition process_window (Config : ConfigT) (env : Env)
    (videos_to_match : list VideoKey) (force : bool)
    (my_anime_list_id : Z) (dub : string) (episodes_to_process : list Z) : M unit :=
  if Z.of_nat (length episodes_to_process) <? min_episode_number Config
  then
    logger INFO MsgNotEnoughVideos ;;
    upload_empty_scenes videos_to_match
  else
    let unavailable_videos :=
      filter (fun video => episode video ∉ episodes_to_process)
             videos_to_match in
    if (0 <? length unavailable_videos)%nat && negb force
    then
      logger INFO (MsgUnavailable unavailable_videos
                                  (length videos_to_match)) ;;
      upload_empty_scenes unavailable_videos
    else
      logger INFO (MsgVideosToProcess episodes_to_process) ;;
      batches <- lift (split_into_batches Config episodes_to_process) ;;
      for_each batches (process_batch_step Config env my_anime_list_id dub).

(** The world of [_process_videos] when the window is computed. *)
Definition world_at_window (Config : ConfigT) (env : Env) (first : VideoKey)
    (others : list VideoKey) (force : bool) (w : World) : World :=
  let available :=
    episodes_response env (my_anime_list_id first) (dub first) in
  {| _truncated_durations_per_episode := _truncated_durations_per_episode w;
     log := log w
            ++ [(INFO, MsgReceived (first :: others));
                (INFO, MsgSameGroup (my_anime_list_id first) (dub first))]
            ++ (if force && negb (length available <? 27)%nat
                then [(ERROR, MsgForceTooMany)] else []);
     lambda_invocations :=
       lambda_invocations w
       ++ [(loan_api_function_arn Config,
            GetEpisodesRequest (my_anime_list_id first) (dub first))] |}.

(** * Properties *)

(** ** Arithmetic of the float model *)

Module FloatFacts.

Lemma feq_refl x : feq x x.
Proof. destruct x; simpl; auto. reflexivity. Qed.

Lemma feq_sym x y : feq x y -> feq y x.
Proof. destruct x, y; simpl; auto. intros H; symmetry; exact H. Qed.

Lemma feq_trans x y z : feq x y -> feq y z -> feq x z.
Proof.
  destruct x, y, z; simpl; auto; try contradiction.
  intros H1 H2. rewrite H1. exact H2.
Qed.

#[export] Instance feq_equivalence : Equivalence feq.
Proof. split; [exact feq_refl|exact feq_sym|exact feq_trans]. Qed.

End FloatFacts.

Import FloatFacts.

Lemma offset_is_clip_minus_captured (a b : Q) :
  feq (py_max (sub (Fin a) (Fin b)) (of_int 0))
      (sub (Fin a) (py_min (Fin a) (Fin b))).
Proof.
  unfold py_max, py_min, gt, lt, sub, neg, add, of_int, Qlt_bool.
  change (inject_Z 0) with 0%Q.
  destruct (Qle_bool a b) eqn:Hab;
    destruct (Qle_bool 0 (a + - b)) eqn:H0; simpl.
  - apply Qle_bool_iff in Hab, H0. lra.
  - lra.
  - reflexivity.
  - apply not_true_iff_false in Hab, H0. rewrite Qle_bool_iff in Hab, H0. lra.
Qed.


Section ReconcilerProperties.

Variable Config : ConfigT.

Lemma valid_or_none_inv (scene : option Interval) (s : Interval) :
  _valid_or_none Config scene = Some s -> scene = Some s.
Proof.
  destruct scene as [i|]; simpl; [|discriminate].
  case_match; congruence.
Qed.

(** C6, as amended: the filter returns [None] exactly for an absent
    interval, a NaN bound, or a failed test [end - start >=
    min_scene_length_secs]; in every other case the interval is returned
    unchanged. For finite bounds the failed test is [end - start <
    min_scene_length_secs]. Infinite bounds are not tested for. *)
Theorem valid_or_none_spec (scene : option Interval) :
  (_valid_or_none Config scene = None <->
     scene = None \/
     exists s, scene = Some s /\
       (isnan (start s) = true \/ isnan (end_ s) = true \/
        ge (sub (end_ s) (start s)) (of_int (min_scene_length_secs Config))
          = false))
  /\ (_valid_or_none Config scene = None \/ _valid_or_none Config scene = scene)
  /\ (forall a b : Q,
        _valid_or_none Config (Some {| start := Fin a; end_ := Fin b |}) = None <->
        lt (sub (Fin b) (Fin a)) (of_int (min_scene_length_secs Config)) = true).
Proof.
  split; [|split].
  - destruct scene as [s|]; unfold _valid_or_none; [|split; auto].
    split.
    + intros H. right. exists s. split; [reflexivity|].
      destruct (isnan (start s)); [auto|].
      destruct (isnan (end_ s)); [auto|].
      destruct (ge _ _); [discriminate|auto].
    + intros [H|(s' & [= <-] & [H|[H|H]])]; [discriminate| | |];
        rewrite H; rewrite ?andb_false_r; reflexivity.
  - destruct scene as [s|]; unfold _valid_or_none; [|auto].
    destruct (_ && _); auto.
  - intros a b. simpl. unfold ge, lt, Qlt_bool.
    destruct (Qle_bool _ _); simpl; split; congruence.
Qed.

(** C5: what [_combine_scenes] makes of the ending. For a valid ending,
    a tail longer than the threshold becomes the scene after the ending,
    re-validated before it is emitted, and the ending is kept; otherwise
    the ending is extended to the end of the episode and there is no
    scene after it. An invalid ending leaves both absent. *)
Theorem combine_scenes_ending_spec (op en : Interval) (total_duration : float) :
  let r := _combine_scenes Config op en total_duration in
  let threshold := of_int (scene_after_opening_threshold_secs Config) in
  (_valid_or_none Config (Some en) = Some en ->
   gt (sub total_duration (end_ en)) threshold = true ->
   ending r = Some en /\
   scene_after_ending r =
     _valid_or_none Config (Some {| start := end_ en; end_ := total_duration |}))
  /\ (_valid_or_none Config (Some en) = Some en ->
      gt (sub total_duration (end_ en)) threshold = false ->
      ending r = Some {| start := start en; end_ := total_duration |} /\
      scene_after_ending r = None)
  /\ (_valid_or_none Config (Some en) = None ->
      ending r = None /\ scene_after_ending r = None)
  /\ (_valid_or_none Config (Some en) = Some en \/
      _valid_or_none Config (Some en) = None).
Proof.
  intros r threshold. subst r threshold. unfold _combine_scenes.
  destruct (_valid_or_none Config (Some en)) as [e|] eqn:Hv.
  - apply valid_or_none_inv in Hv as [= <-].
    split; [|split; [|split]]; [| |discriminate|left; reflexivity];
      intros _ Hgap; rewrite Hgap; split; reflexivity.
  - split; [|split; [|split]]; [discriminate|discriminate| |right; reflexivity].
    intros _; split; reflexivity.
Qed.

End ReconcilerProperties.

(** C6, as stated, fails on an interval with an infinite end: the end is
    not finite, yet the interval passes the filter. *)
Lemma valid_or_none_keeps_infinite_end :
  let s := {| start := of_int 0; end_ := PInf |} in
  let Config := default_config 2 in
  _valid_or_none Config (Some s) = Some s
  /\ ~ (_valid_or_none Config (Some s) = None <->
        isfinite (start s) = false \/ isfinite (end_ s) = false \/
        lt (sub (end_ s) (start s)) (of_int (min_scene_length_secs Config)) = true).
Proof.
  split; [reflexivity|].
  intros [_ H]. discriminate H. right; left; reflexivity.
Qed.

(** The examples of the specification: an episode of 1200 s whose ending
    is found at 1150 s to 1180 s keeps it and gets the last 20 s as the
    scene after the ending. *)
Lemma combine_scenes_ending_spec_witness :
  let en := {| start := of_int 1150; end_ := of_int 1180 |} in
  let r := _combine_scenes (default_config 2)
             {| start := of_int 0; end_ := of_int 90 |} en (of_int 1200) in
  ending r = Some en /\
  scene_after_ending r = Some {| start := of_int 1180; end_ := of_int 1200 |}.
Proof.
  intros en r.
  apply (proj1 (combine_scenes_ending_spec (default_config 2)
                  {| start := of_int 0; end_ := of_int 90 |} en (of_int 1200)));
    reflexivity.
Defined.

(** ** The result-submission functions *)

(** In contrast, fetching the work queue does reach the remote function. *)
Lemma get_videos_to_match_invokes (Config : ConfigT) (env : Env) (w : World) :
  lambda_invocations (snd (get_videos_to_match Config env w))
  = lambda_invocations w ++ [(get_series_to_match_lambda_name Config, NoPayload)].
Proof. reflexivity. Qed.

(** ** The forced episode window *)

Section ForcedWindow.

Variable Config : ConfigT.
Variable env : Env.

(** With [force], the available episodes are returned when there are
    fewer than 27 of them; otherwise the result is empty and an error is
    logged. *)
Lemma get_episodes_to_process_force (first : VideoKey) (others : list VideoKey)
    (w : World) :
  let available := episodes_response env (my_anime_list_id first) (dub first) in
  let r := _get_episodes_to_process Config env (first :: others) true w in
  if (length available <? 27)%nat
  then fst r = Ok available /\ log (snd r) = log w
  else fst r = Ok [] /\ log (snd r) = log w ++ [(ERROR, MsgForceTooMany)].
Proof.
  intros available r. subst r. unfold _get_episodes_to_process, bind.
  simpl. fold available. destruct (length available <? 27)%nat; simpl; auto.
Qed.

End ForcedWindow.

(** C8, on the code: with [force] and exactly 27 available episodes the
    window is empty and the error is logged, although the list does not
    exceed 27 episodes. *)
Theorem force_with_27_available_episodes :
  let available := episodes_response (Examples.env 27) 7 "sub" in
  let r := _get_episodes_to_process Examples.config (Examples.env 27)
             [Examples.key 1] true Examples.fresh in
  length available = 27%nat
  /\ fst r = Ok []
  /\ log (snd r) = [(ERROR, MsgForceTooMany)].
Proof. vm_compute. repeat split. Qed.

(** With 26 available episodes the same call returns all of them. *)
Example force_with_26_available_episodes :
  fst (_get_episodes_to_process Examples.config (Examples.env 26)
         [Examples.key 1] true Examples.fresh)
  = Ok (seqZ 1 26).
Proof. vm_compute. reflexivity. Qed.

(** ** Batches *)

Section Batches.

Variable Config : ConfigT.

Lemma concat_chunks {A} (size : nat) (l : list A) (c : nat) :
  concat (map (chunk size l) (seq 0 c)) = take (c * size) l.
Proof.
  induction c as [|c IH]; [reflexivity|].
  rewrite seq_S, map_app, concat_app, IH. simpl.
  rewrite app_nil_r. unfold chunk.
  rewrite take_take_drop. f_equal. lia.
Qed.

Lemma length_chunk {A} (size : nat) (l : list A) (j : nat) :
  length (chunk size l j) = (size `min` (length l - j * size))%nat.
Proof. unfold chunk. rewrite length_take, length_drop. reflexivity. Qed.

Lemma extend_previous_with_last_snoc {A} (init : list (list A)) (previous last_batch : list A) :
  extend_previous_with_last (init ++ [previous; last_batch]) = init ++ [previous ++ last_batch].
Proof.
  unfold extend_previous_with_last.
  rewrite reverse_app. simpl. rewrite reverse_involutive. reflexivity.
Qed.

Lemma batch_starts (eps : list Z) :
  0 < batch_size Config ->
  let size := Z.to_nat (batch_size Config) in
  let c := Z.to_nat ((Z.of_nat (length eps) + batch_size Config - 1) `div` batch_size Config) in
  py_range 0 (Z.of_nat (length eps)) (batch_size Config) = Ok (map (fun j => Z.of_nat (j * size)) (seq 0 c)).
Proof.
  intros Hpos size c. unfold py_range.
  destruct (Z.eqb_spec (batch_size Config) 0); [lia|].
  destruct (Z.ltb_spec 0 (batch_size Config)); [|lia].
  f_equal. unfold seqZ. rewrite Z.sub_0_r. fold c.
  change (@fmap list _) with (@map). rewrite map_map.
  apply map_ext. intros j. subst size. lia.
Qed.

Lemma py_slice_chunk (eps : list Z) (j : nat) :
  0 < batch_size Config ->
  let size := Z.to_nat (batch_size Config) in
  py_slice eps (Z.of_nat (j * size)) (Z.of_nat (j * size) + batch_size Config)
  = chunk size eps j.
Proof.
  intros Hpos size. unfold py_slice, chunk. f_equal; [|f_equal]; lia.
Qed.

Lemma chunk_count_bounds (n : nat) :
  0 < batch_size Config ->
  let size := Z.to_nat (batch_size Config) in
  let c := Z.to_nat ((Z.of_nat n + batch_size Config - 1) `div` batch_size Config) in
  (n <= c * size)%nat /\ ((c - 1) * size < n \/ (c = 0 /\ n = 0))%nat.
Proof.
  intros Hpos size c.
  pose proof (Z.div_mod (Z.of_nat n + batch_size Config - 1) (batch_size Config)
                ltac:(lia)) as Hdm.
  pose proof (Z.mod_pos_bound (Z.of_nat n + batch_size Config - 1)
                (batch_size Config) Hpos) as Hb.
  set (q := (Z.of_nat n + batch_size Config - 1) `div` batch_size Config) in *.
  assert (0 <= q) by (subst q; apply Z.div_pos; lia).
  assert (Hc : Z.of_nat c = q) by (subst c; lia).
  assert (Hs : Z.of_nat size = batch_size Config) by (subst size; lia).
  split; [nia|].
  destruct (decide (c = 0%nat)) as [->|Hne]; [right; split; [reflexivity|nia]|].
  left. nia.
Qed.


Lemma elem_of_chunks {A} (size : nat) (l : list A) (c : nat) (b : list A) :
  b ∈ map (chunk size l) (seq 0 c) -> exists j, (j < c)%nat /\ b = chunk size l j.
Proof.
  intros Hin. apply list_elem_of_In, in_map_iff in Hin as (j & <- & Hj).
  apply in_seq in Hj. exists j. split; [lia|reflexivity].
Qed.

Lemma merged_batches_spec {A} (size c : nat) (l : list A) :
  (0 < size)%nat ->
  (length l <= c * size)%nat ->
  ((c - 1) * size < length l \/ (c = 0 /\ length l = 0))%nat ->
  let batches0 := map (chunk size l) (seq 0 c) in
  let batches :=
    if (1 <? length batches0)%nat
       && match last batches0 with
          | Some last_batch => (length last_batch <? size)%nat
          | None => false
          end
    then extend_previous_with_last batches0
    else batches0 in
  concat batches = l
  /\ (forall batch, batch ∈ batches -> (size <= length batch)%nat \/ batches = [batch])
  /\ (forall batch, batch ∈ batches -> (length batch <= 2 * size - 1)%nat)
  /\ ((size <= length l < 2 * size)%nat -> batches = [l]).
Proof.
  intros Hsize Hle Hgt batches0 batches.
  destruct c as [|[|c]].
  - (* no chunk *)
    assert (l = []) as -> by (apply length_zero_iff_nil; lia).
    subst batches batches0. simpl.
    split; [reflexivity|]. split; [intros b Hb; inversion Hb|].
    split; [intros b Hb; inversion Hb|]. simpl. lia.
  - (* one chunk *)
    assert (Hb0 : batches0 = [l]).
    { subst batches0. simpl. unfold chunk. simpl. rewrite drop_0, take_ge by lia. reflexivity. }
    subst batches. rewrite Hb0. simpl.
    split; [apply app_nil_r|].
    split; [intros b Hb; apply list_elem_of_singleton in Hb as ->; auto|].
    split; [intros b Hb; apply list_elem_of_singleton in Hb as ->; lia|auto].
  - (* at least two chunks *)
    assert (Hb0 : batches0 = map (chunk size l) (seq 0 c)
                               ++ [chunk size l c; chunk size l (S c)]).
    { subst batches0. rewrite !seq_S, !map_app. simpl. rewrite <- app_assoc. reflexivity. }
    assert (Hn : (S c * size < length l)%nat).
    { destruct Hgt as [Hgt|[Hgt _]]; [|discriminate]. simpl in Hgt. lia. }
    assert (Hfull : forall j, (j <= c)%nat -> length (chunk size l j) = size).
    { intros j Hj. rewrite length_chunk. apply Nat.min_l.
      pose proof (Nat.mul_le_mono_r j c size Hj). lia. }
    assert (Hlast : length (chunk size l (S c)) = (length l - S c * size)%nat).
    { rewrite length_chunk. apply Nat.min_r. lia. }
    assert (Hconcat : concat batches0 = l).
    { subst batches0. rewrite concat_chunks. apply take_ge. lia. }
    assert (Hlen0 : (1 <? length batches0)%nat = true).
    { apply Nat.ltb_lt. rewrite Hb0, length_app. simpl. lia. }
    assert (Hl0 : last batches0 = Some (chunk size l (S c))).
    { rewrite Hb0.
      replace (map (chunk size l) (seq 0 c) ++ [chunk size l c; chunk size l (S c)])
        with ((map (chunk size l) (seq 0 c) ++ [chunk size l c]) ++ [chunk size l (S c)])
        by (rewrite <- app_assoc; reflexivity).
      apply last_snoc. }
    subst batches. rewrite Hlen0, Hl0. simpl.
    destruct (Nat.ltb_spec (length (chunk size l (S c))) size) as [Hshort|Hlong].
    + rewrite Hb0, extend_previous_with_last_snoc.
      split.
      { transitivity (concat batches0); [|exact Hconcat].
        rewrite Hb0, !concat_app. simpl.
        rewrite !app_nil_r, app_assoc. reflexivity. }
      split.
      { intros b Hb. left. apply elem_of_app in Hb as [Hb|Hb].
        - apply elem_of_chunks in Hb as (j & Hj & ->). rewrite Hfull; lia.
        - apply list_elem_of_singleton in Hb as ->.
          rewrite length_app, Hfull; lia. }
      split.
      { intros b Hb. apply elem_of_app in Hb as [Hb|Hb].
        - apply elem_of_chunks in Hb as (j & Hj & ->). rewrite Hfull; lia.
        - apply list_elem_of_singleton in Hb as ->.
          rewrite length_app, Hfull; lia. }
      intros Hrange. assert (c = 0)%nat as -> by nia. simpl.
      f_equal. transitivity (concat batches0); [|exact Hconcat].
      rewrite Hb0. simpl. rewrite app_nil_r. reflexivity.
    + assert (Hall : forall b, b ∈ batches0 -> length b = size).
      { intros b Hb. apply elem_of_chunks in Hb as (j & Hj & ->).
        destruct (decide (j = S c)) as [->|]; [lia|apply Hfull; lia]. }
      split; [exact Hconcat|].
      split; [intros b Hb; left; rewrite (Hall b Hb); lia|].
      split; [intros b Hb; rewrite (Hall b Hb); lia|].
      intros Hrange. nia.
Qed.

(** C7: for a positive batch size, the batches are contiguous chunks
    whose concatenation is the input; a batch has at least [batch_size]
    elements unless it is the only one, and at most [2 * batch_size - 1];
    a list of at least [batch_size] and fewer than [2 * batch_size]
    episodes (19 for a size of 10) is one batch. *)
Theorem split_into_batches_spec (episodes_to_process : list Z) :
  0 < batch_size Config ->
  exists batches,
    split_into_batches Config episodes_to_process = Ok batches
    /\ concat batches = episodes_to_process
    /\ (forall batch, batch ∈ batches ->
          batch_size Config <= Z.of_nat (length batch) \/ batches = [batch])
    /\ (forall batch, batch ∈ batches ->
          Z.of_nat (length batch) <= 2 * batch_size Config - 1)
    /\ (batch_size Config <= Z.of_nat (length episodes_to_process)
                           < 2 * batch_size Config ->
        batches = [episodes_to_process]).
Proof.
  intros Hpos.
  pose proof (chunk_count_bounds (length episodes_to_process) Hpos) as [Hle Hgt].
  pose proof (batch_starts episodes_to_process Hpos) as Hstarts.
  simpl in Hle, Hgt, Hstarts.
  remember (Z.to_nat ((Z.of_nat (length episodes_to_process) + batch_size Config - 1)
                        `div` batch_size Config)) as c eqn:Hc.
  remember (Z.to_nat (batch_size Config)) as size eqn:Hs.
  pose proof (merged_batches_spec size c episodes_to_process ltac:(lia) Hle Hgt)
    as (Hconcat & Hmin & Hmax & Hone).
  unfold split_into_batches. rewrite Hstarts. simpl.
  rewrite map_map.
  erewrite map_ext; [|intros j; rewrite Hs; apply py_slice_chunk; assumption].
  rewrite <- Hs.
  set (batches0 := map (chunk size episodes_to_process) (seq 0 c)) in *.
  assert (Hcond : match last batches0 with
                  | Some last_batch => Z.of_nat (length last_batch) <? batch_size Config
                  | None => false
                  end
                  = match last batches0 with
                    | Some last_batch => (length last_batch <? size)%nat
                    | None => false
                    end).
  { destruct (last batches0) as [b|]; [|reflexivity].
    destruct (Z.ltb_spec (Z.of_nat (length b)) (batch_size Config)),
             (Nat.ltb_spec (length b) size); auto; lia. }
  rewrite Hcond.
  match goal with
  | |- exists _, (if ?cnd then Ok ?x else Ok ?y) = _ /\ _ =>
      exists (if cnd then x else y); split; [destruct cnd; reflexivity|]
  end.
  split; [exact Hconcat|].
  split; [intros b Hb; destruct (Hmin b Hb); [left; lia|right; assumption]|].
  split; [intros b Hb; specialize (Hmax b Hb); lia|].
  intros Hrange. apply Hone. lia.
Qed.

End Batches.

Lemma split_into_batches_spec_witness :
  exists batches,
    split_into_batches Examples.config (seqZ 1 19) = Ok batches
    /\ concat batches = seqZ 1 19
    /\ (forall batch, batch ∈ batches ->
          10 <= Z.of_nat (length batch) \/ batches = [batch])
    /\ (forall batch, batch ∈ batches -> Z.of_nat (length batch) <= 19)
    /\ (10 <= 19 < 20 -> batches = [seqZ 1 19]).
Proof.
  apply (split_into_batches_spec Examples.config (seqZ 1 19)).
  reflexivity.
Defined.

(** 19 episodes with a batch size of 10 are one batch of 19; 35 episodes
    are batches of 10, 10 and 15. *)
Example split_19_episodes :
  split_into_batches Examples.config (seqZ 1 19) = Ok [seqZ 1 19].
Proof. vm_compute. reflexivity. Qed.

Example split_35_episodes :
  split_into_batches Examples.config (seqZ 1 35)
  = Ok [seqZ 1 10; seqZ 11 10; seqZ 21 15].
Proof. vm_compute. reflexivity. Qed.

(** ** The audio window provider *)

Section Segments.

Variable Config : ConfigT.

Lemma build_segments_loop_spec (opening : bool) (segment_iter : list Segment) :
  forall (segs : list string) (cur : float) (uris : list string) (d : float),
  build_segments_loop Config opening segment_iter segs cur = Ok (uris, d) ->
  exists (scanned rest : list Segment) (sel_uris : list string)
         (sel_durations : list float),
    segment_iter = scanned ++ rest
    /\ map absolute_uri scanned = map Some sel_uris
    /\ map duration scanned = map Some sel_durations
    /\ uris = (if opening then segs ++ sel_uris else rev sel_uris ++ segs)
    /\ d = foldl add cur sel_durations
    /\ (rest = [] \/ ge d (of_int (seconds_to_match Config)) = true)
    /\ (forall p q, sel_durations = p ++ q -> p <> [] -> q <> [] ->
          ge (foldl add cur p) (of_int (seconds_to_match Config)) = false)
    /\ (segment_iter <> [] -> scanned <> []).
Proof.
  induction segment_iter as [|segment rest IH]; intros segs cur uris d Hrun.
  - simpl in Hrun. injection Hrun as <- <-.
    exists [], [], [], []. split_and!.
    + reflexivity.
    + reflexivity.
    + reflexivity.
    + destruct opening; [rewrite app_nil_r|]; reflexivity.
    + reflexivity.
    + left; reflexivity.
    + intros p q Hpq Hp _. destruct p; [congruence|discriminate].
    + congruence.
  - cbn [build_segments_loop] in Hrun.
    destruct (absolute_uri segment) as [u|] eqn:Hu; [|discriminate].
    destruct (duration segment) as [x|] eqn:Hx; [|discriminate].
    cbn [not_none rbind] in Hrun.
    destruct (ge (add cur x) (of_int (seconds_to_match Config))) eqn:Hge.
    + injection Hrun as <- <-.
      exists [segment], rest, [u], [x]. split_and!.
      * reflexivity.
      * cbn [map]. rewrite Hu. reflexivity.
      * cbn [map]. rewrite Hx. reflexivity.
      * destruct opening; reflexivity.
      * reflexivity.
      * right. exact Hge.
      * intros p q Hpq Hp Hq.
        destruct p as [|? [|? ?]]; [congruence| |discriminate].
        destruct q; [congruence|discriminate].
      * discriminate.
    + apply IH in Hrun
        as (scanned & rest' & su & sd & -> & Hus & Hds & -> & -> & Hstop & Hpre & _).
      exists (segment :: scanned), rest', (u :: su), (x :: sd). split_and!.
      * reflexivity.
      * cbn [map]. rewrite Hu, Hus. reflexivity.
      * cbn [map]. rewrite Hx, Hds. reflexivity.
      * destruct opening; cbn [rev]; rewrite <- app_assoc; reflexivity.
      * reflexivity.
      * exact Hstop.
      * intros p q Hpq Hp Hq.
        destruct p as [|y p]; [congruence|].
        injection Hpq as <- Hsd.
        destruct p as [|z p]; [exact Hge|].
        apply (Hpre (z :: p) q Hsd); [discriminate|assumption].
      * discriminate.
Qed.

Lemma build_segments_loop_total (opening : bool) (segment_iter : list Segment) :
  Forall complete segment_iter ->
  forall segs cur, exists uris d,
    build_segments_loop Config opening segment_iter segs cur = Ok (uris, d).
Proof.
  induction 1 as [|segment rest [[u Hu] [x Hx]] _ IH]; intros segs cur.
  - eexists _, _. reflexivity.
  - cbn [build_segments_loop]. rewrite Hu, Hx. cbn [not_none rbind].
    destruct (ge _ _); [eexists _, _; reflexivity|apply IH].
Qed.


Lemma build_segments_list_total (playlist : M3U8) (opening : bool) :
  Forall complete (segments playlist) ->
  exists uris d, _build_segments_list Config playlist opening = Ok (uris, d).
Proof.
  intros Hall. unfold _build_segments_list.
  apply build_segments_loop_total.
  destruct opening; [exact Hall|].
  apply Forall_rev. exact Hall.
Qed.

(** C10: the URIs [_build_segments_list] returns are those of a prefix
    (leading) or a suffix (trailing) of the playlist, in playlist order;
    the segments are taken in scan order until the accumulated duration
    reaches [seconds_to_match] or the playlist is exhausted; the duration
    returned is the sum of the durations of the selected segments, added
    one after the other in scan order, from 0: first to last for the
    leading scan, last to first for the trailing scan. On a playlist whose
    segments are complete the function returns. *)
Theorem build_segments_list_spec (playlist : M3U8) (opening : bool) :
  (forall uris d,
     _build_segments_list Config playlist opening = Ok (uris, d) ->
     exists (selected other : list Segment) (durations : list float),
       segments playlist
       = (if opening then selected ++ other else other ++ selected)
       /\ map absolute_uri selected = map Some uris
       /\ map duration selected = map Some durations
       /\ d = PyFloat.sum (if opening then durations else rev durations)
       /\ (other = [] \/ ge d (of_int (seconds_to_match Config)) = true)
       /\ (forall p q,
             (if opening then durations else rev durations) = p ++ q ->
             p <> [] -> q <> [] ->
             ge (PyFloat.sum p) (of_int (seconds_to_match Config)) = false)
       /\ (segments playlist <> [] -> selected <> []))
  /\ (Forall complete (segments playlist) ->
      exists uris d, _build_segments_list Config playlist opening = Ok (uris, d)).
Proof.
  split.
  - intros uris d Hrun. unfold _build_segments_list in Hrun.
    apply build_segments_loop_spec in Hrun
      as (scanned & rest & su & sd & Hiter & Hus & Hds & -> & -> & Hstop & Hpre & Hne).
    destruct opening.
    + exists scanned, rest, sd. split_and!; auto.
    + assert (Hsegs : segments playlist = rev rest ++ rev scanned).
      { rewrite <- rev_app_distr, <- Hiter, rev_involutive. reflexivity. }
      exists (rev scanned), (rev rest), (rev sd). split_and!.
      * exact Hsegs.
      * rewrite app_nil_r, !map_rev, Hus. reflexivity.
      * rewrite !map_rev, Hds. reflexivity.
      * rewrite rev_involutive. reflexivity.
      * destruct Hstop as [->|Hstop]; [left; reflexivity|right; exact Hstop].
      * rewrite rev_involutive. exact Hpre.
      * intros Hnil Hrev. apply Hne.
        -- intros Hr. apply Hnil. rewrite <- (rev_involutive (segments playlist)), Hr.
           reflexivity.
        -- rewrite <- (rev_involutive scanned), Hrev. reflexivity.
  - apply build_segments_list_total.
Qed.

End Segments.

Section ProviderFacts.

Variable Config : ConfigT.
Variable env : Env.

Lemma iteration_inv (self : AudioProvider) (i : nat) (w : World) item self' frame' w' :
  iteration Config env self i w = (Ok (item, self', frame'), w') ->
  match item with
  | Some window =>
      exists playlist,
        _playlists self !! i = Some playlist
        /\ window_of Config env (_opening self) i playlist window
        /\ self' = self
        /\ frame' = Suspended i (fst (fst window))
        /\ w' = with_truncated w [captured window]
  | None =>
      _playlists self !! i = None /\ self' = set_completed self
      /\ frame' = Finished /\ w' = w
  end.
Proof.
  unfold iteration. destruct (_playlists self !! i) as [playlist|] eqn:Hi.
  - unfold bind, lift, _get_wav, rbind.
    destruct (_build_segments_list Config playlist (_opening self))
      as [[uris d]|e] eqn:Hb; [|discriminate].
    simpl. intros [= <- <- <- <-].
    exists playlist. split_and!; try reflexivity.
    exists uris, d. split; [exact Hb|reflexivity].
  - intros [= <- <- <- <-]. auto.
Qed.

Lemma with_truncated_nil (w : World) : with_truncated w [] = w.
Proof. destruct w. unfold with_truncated. simpl. rewrite app_nil_r. reflexivity. Qed.

Lemma with_truncated_app (w : World) (xs ys : list float) :
  with_truncated (with_truncated w xs) ys = with_truncated w (xs ++ ys).
Proof. unfold with_truncated. simpl. rewrite app_assoc. reflexivity. Qed.

Lemma next_inv (self : AudioProvider) (frame : Frame) (w : World)
    window self' frame' w' :
  next Config env self frame w = (Ok (Some window, self', frame'), w') ->
  exists i playlist,
    _playlists self !! i = Some playlist
    /\ window_of Config env (_opening self) i playlist window
    /\ _opening self' = _opening self
    /\ _playlists self' = _playlists self
    /\ _completed self' = _completed self
    /\ frame' = Suspended i (fst (fst window))
    /\ w' = with_truncated w [captured window].
Proof.
  destruct frame as [|i path|]; cbn [next].
  - destruct (_initialized self); [discriminate|].
    destruct (_ <? _)%nat; [discriminate|].
    intros H. apply iteration_inv in H as (playlist & ? & ? & -> & ? & ?).
    exists 0%nat, playlist. split_and!; auto.
  - intros H. apply iteration_inv in H as (playlist & ? & ? & -> & ? & ?).
    exists (S i), playlist. split_and!; auto.
  - discriminate.
Qed.

Lemma consume_suspended (fuel : nat) :
  forall (self : AudioProvider) (i : nat) (path : string) (w : World)
         windows self' w',
  consume Config env fuel self (Suspended i path) w = (Ok (windows, self'), w') ->
  length windows = (length (_playlists self) - S i)%nat
  /\ self' = set_completed self
  /\ w' = with_truncated w (map captured windows)
  /\ (forall k window, windows !! k = Some window ->
        exists playlist,
          _playlists self !! (S i + k)%nat = Some playlist
          /\ window_of Config env (_opening self) (S i + k) playlist window).
Proof.
  induction fuel as [|fuel IH]; intros self i path w windows self' w' Hrun;
    [discriminate|].
  cbn [consume next] in Hrun. unfold bind at 1 in Hrun.
  destruct (iteration Config env self (S i) w) as [[[[item self1] frame1]|e] w1] eqn:Hit;
    [|discriminate].
  apply iteration_inv in Hit. destruct item as [window|].
  - destruct Hit as (playlist & Hpl & Hwin & -> & -> & ->).
    unfold bind in Hrun.
    destruct (consume Config env fuel self _ _) as [[[windows1 self2]|e] w2] eqn:Hrest;
      [|discriminate].
    injection Hrun as <- <- <-.
    apply IH in Hrest as (Hlen & -> & -> & Hwins).
    apply lookup_lt_Some in Hpl as Hlt.
    split_and!.
    + simpl. rewrite Hlen. lia.
    + reflexivity.
    + rewrite with_truncated_app. reflexivity.
    + intros [|k] win Hk.
      * injection Hk as <-. exists playlist. rewrite Nat.add_0_r. auto.
      * apply Hwins in Hk as (pl & ? & ?). exists pl.
        replace (S i + S k)%nat with (S (S i) + k)%nat by lia. auto.
  - destruct Hit as (Hnone & -> & -> & ->). injection Hrun as <- <- <-.
    apply lookup_ge_None in Hnone.
    split_and!.
    + simpl. lia.
    + reflexivity.
    + simpl. rewrite with_truncated_nil. reflexivity.
    + intros k win Hk. discriminate.
Qed.

Lemma iteration_total (self : AudioProvider) (i : nat) (w : World) :
  Forall complete_playlist (_playlists self) ->
  exists item self' frame' w',
    iteration Config env self i w = (Ok (item, self', frame'), w')
    /\ (item = None -> frame' = Finished)
    /\ (item <> None -> exists path, frame' = Suspended i path).
Proof.
  intros Hall. unfold iteration.
  destruct (_playlists self !! i) as [playlist|] eqn:Hi.
  - assert (Hc : complete_playlist playlist).
    { eapply Forall_lookup_1 in Hall; eauto. }
    apply (build_segments_list_total Config playlist (_opening self))
      in Hc as (uris & d & Hb).
    unfold bind, lift, _get_wav, rbind. rewrite Hb. simpl.
    eexists _, _, _, _. split_and!; [reflexivity|discriminate|eauto].
  - eexists _, _, _, _. split_and!; [reflexivity|reflexivity|congruence].
Qed.

Lemma consume_suspended_total (fuel : nat) :
  forall (self : AudioProvider) (i : nat) (path : string) (w : World),
  Forall complete_playlist (_playlists self) ->
  (0 < fuel)%nat -> (length (_playlists self) <= fuel + i)%nat ->
  exists windows self' w',
    consume Config env fuel self (Suspended i path) w = (Ok (windows, self'), w').
Proof.
  induction fuel as [|fuel IH]; intros self i path w Hall Hpos Hfuel; [lia|].
  cbn [consume next]. unfold bind at 1.
  destruct (iteration Config env self (S i) w) as [[[[item self1] frame1]|e] w1] eqn:Hit.
  - pose proof Hit as Hinv. apply iteration_inv in Hinv.
    destruct item as [window|].
    + destruct Hinv as (playlist & Hpl & _ & -> & -> & _).
      apply lookup_lt_Some in Hpl.
      destruct (IH self (S i) (fst (fst window)) w1 Hall) as (ws & s2 & w2 & Hrest);
        [lia|lia|].
      unfold bind. rewrite Hrest. eexists _, _, _. reflexivity.
    + eexists _, _, _. reflexivity.
  - destruct (iteration_total self (S i) w Hall) as (? & ? & ? & ? & Hok & _).
    congruence.
Qed.


Lemma consume_iterator_fresh (playlists : list M3U8) (opening : bool) (w : World) :
  Forall complete_playlist playlists ->
  exists windows,
    consume_iterator Config env (AudioProvider__init__ playlists opening) w
    = (Ok (windows,
           set_completed (set_initialized (AudioProvider__init__ playlists opening))),
       with_truncated w (map captured windows))
    /\ (if (length playlists <? 2)%nat then windows = []
        else length windows = length playlists)
    /\ (forall k window, windows !! k = Some window ->
          exists playlist,
            playlists !! k = Some playlist
            /\ window_of Config env opening k playlist window).
Proof.
  intros Hall. unfold consume_iterator.
  cbn [consume next AudioProvider__init__ _initialized _playlists].
  set (self := set_initialized _).
  change (_playlists self) with playlists.
  destruct (Nat.ltb_spec (length playlists) 2) as [Hshort|Hlong].
  - exists []. unfold bind, ret. cbn. rewrite with_truncated_nil.
    split_and!; [reflexivity|reflexivity|discriminate].
  - unfold bind at 1.
    destruct (iteration_total self 0 w Hall) as (item & self1 & frame1 & w1 & Hit & _).
    rewrite Hit. pose proof Hit as Hinv. apply iteration_inv in Hinv.
    destruct item as [window|].
    + destruct Hinv as (playlist & Hpl & Hwin & -> & -> & ->).
      destruct (consume_suspended_total (length playlists) self 0
                  (fst (fst window)) (with_truncated w [captured window]) Hall)
        as (ws & s2 & w2 & Hrest); [lia|change (_playlists self) with playlists; lia|].
      unfold bind. rewrite Hrest.
      apply consume_suspended in Hrest as (Hlen & -> & -> & Hwins).
      exists (window :: ws). rewrite with_truncated_app.
      split_and!.
      * reflexivity.
      * simpl. rewrite Hlen. change (_playlists self) with playlists. lia.
      * intros [|k] win Hk.
        -- injection Hk as <-. exists playlist. auto.
        -- apply Hwins in Hk. exact Hk.
    + destruct Hinv as (Hnone & _). apply lookup_ge_None in Hnone.
      change (_playlists self) with playlists in Hnone. lia.
Qed.

Lemma truncated_durations_not_ready (self : AudioProvider) (w : World) :
  _completed self = false ->
  truncated_durations self w = (Raise AssertionError, w).
Proof. intros H. unfold truncated_durations. rewrite H. reflexivity. Qed.

Lemma truncated_durations_ready (self : AudioProvider) (w : World) :
  _completed self = true ->
  truncated_durations self w = (Ok (_truncated_durations_per_episode w), w).
Proof. intros H. unfold truncated_durations. rewrite H. reflexivity. Qed.

(** C3, as amended: a yielded window has offset 0 when the provider
    scans leading windows; when it scans trailing windows the offset is
    [max(segments_duration - seconds_to_match, 0)], where
    [segments_duration] is the duration of the merged clip, that is the
    sum of the durations of the selected segments; for a finite clip
    duration this is the clip duration minus the captured duration: where
    the captured window begins within the merged clip. *)
Theorem yielded_window_offset (self : AudioProvider) (frame : Frame) (w : World)
    (path : string) (offset truncated_duration : float) self' frame' w' :
  next Config env self frame w
  = (Ok (Some (path, offset, truncated_duration), self', frame'), w') ->
  exists (i : nat) (playlist : M3U8) (uris : list string) (segments_duration : float),
    _playlists self !! i = Some playlist
    /\ _build_segments_list Config playlist (_opening self)
       = Ok (uris, segments_duration)
    /\ truncated_duration
       = py_min segments_duration (of_int (seconds_to_match Config))
    /\ (_opening self = true -> offset = of_int 0)
    /\ (_opening self = false ->
        offset = py_max (sub segments_duration (of_int (seconds_to_match Config)))
                        (of_int 0)
        /\ (isfinite segments_duration = true ->
            feq offset (sub segments_duration truncated_duration))).
Proof.
  intros Hnext.
  apply next_inv in Hnext as (i & playlist & Hpl & (uris & d & Hb & Hwin) & _).
  injection Hwin as -> -> ->.
  exists i, playlist, uris, d. split_and!; try assumption; try reflexivity.
  - intros ->. reflexivity.
  - intros ->. split; [reflexivity|].
    destruct d as [a| | |]; try discriminate. intros _.
    apply offset_is_clip_minus_captured.
Qed.

(** As long as [next] yields windows the property raises. *)
Lemma not_ready_while_yielding (self : AudioProvider) (frame : Frame) (w : World)
    window self' frame' w' :
  _completed self = false ->
  next Config env self frame w = (Ok (Some window, self', frame'), w') ->
  truncated_durations self' w' = (Raise AssertionError, w').
Proof.
  intros Hnot Hnext.
  apply next_inv in Hnext as (i & playlist & _ & _ & _ & _ & Hcompleted & _).
  apply truncated_durations_not_ready. congruence.
Qed.

(** After a full consumption the property returns the shared list: what
    was in it before, followed by one captured duration per window. *)
Lemma truncated_durations_after_consumption (playlists : list M3U8)
    (opening : bool) (w : World) :
  Forall complete_playlist playlists ->
  exists windows self' w',
    consume_iterator Config env (AudioProvider__init__ playlists opening) w
    = (Ok (windows, self'), w')
    /\ truncated_durations self' w'
       = (Ok (_truncated_durations_per_episode w ++ map captured windows), w')
    /\ ((2 <= length playlists)%nat -> length windows = length playlists).
Proof.
  intros Hall.
  destruct (consume_iterator_fresh playlists opening w Hall) as (windows & Hrun & Hlen & _).
  eexists windows, _, _. split; [exact Hrun|]. split; [reflexivity|].
  intros Htwo. destruct (Nat.ltb_spec (length playlists) 2); [lia|exact Hlen].
Qed.

End ProviderFacts.

(** The trailing scan of the 600 s playlist with a window of 300 s takes
    the last two segments, 400 s of audio. *)
Lemma build_segments_list_spec_witness :
  exists (selected other : list Segment) (durations : list float),
    segments Examples.long_playlist = other ++ selected
    /\ map absolute_uri selected = map Some ["b.ts"; "c.ts"]%string
    /\ map duration selected = map Some durations
    /\ of_int 400 = PyFloat.sum (rev durations)
    /\ (other = [] \/ ge (of_int 400) (of_int 300) = true)
    /\ (forall p q, rev durations = p ++ q -> p <> [] -> q <> [] ->
          ge (PyFloat.sum p) (of_int 300) = false)
    /\ (segments Examples.long_playlist <> [] -> selected <> []).
Proof.
  apply (proj1 (build_segments_list_spec Examples.config Examples.long_playlist false)
           ["b.ts"; "c.ts"]%string (of_int 400)).
  reflexivity.
Defined.

(** C3, as stated, fails on the first trailing window of a 600 s episode:
    the clip is 400 s long and the last 300 s of it are captured, so the
    offset is 100 s; the total duration minus the captured duration is
    300 s. *)
Lemma trailing_offset_is_not_total_minus_captured :
  let self :=
    AudioProvider__init__ [Examples.long_playlist; Examples.long_playlist] false in
  let total_duration := PyFloat.sum [of_int 200; of_int 200; of_int 200] in
  exists path offset truncated_duration self' frame' w',
    next Examples.config (Examples.env 3) self Created Examples.fresh
    = (Ok (Some (path, offset, truncated_duration), self', frame'), w')
    /\ offset = of_int 100
    /\ truncated_duration = of_int 300
    /\ sub total_duration truncated_duration = of_int 300
    /\ ~ feq offset (sub total_duration truncated_duration).
Proof.
  eexists _, _, _, _, _, _. split; [vm_compute; reflexivity|].
  split_and!; [reflexivity|reflexivity|reflexivity|].
  vm_compute. discriminate.
Qed.

Lemma yielded_window_offset_witness :
  let self :=
    AudioProvider__init__ [Examples.long_playlist; Examples.long_playlist] false in
  exists (i : nat) (playlist : M3U8) (uris : list string) (segments_duration : float),
    _playlists self !! i = Some playlist
    /\ _build_segments_list Examples.config playlist false
       = Ok (uris, segments_duration)
    /\ of_int 300 = py_min segments_duration (of_int 300)
    /\ (false = true -> of_int 100 = of_int 0)
    /\ (false = false ->
        of_int 100 = py_max (sub segments_duration (of_int 300)) (of_int 0)
        /\ (isfinite segments_duration = true ->
            feq (of_int 100) (sub segments_duration (of_int 300)))).
Proof.
  intros self.
  apply (yielded_window_offset Examples.config (Examples.env 3) self Created
           Examples.fresh "/tmp/merged.wav" (of_int 100) (of_int 300)
           (set_initialized self) (Suspended 0 "/tmp/merged.wav")
           (with_truncated Examples.fresh [of_int 300])).
  reflexivity.
Defined.

(** C4, on the code: the leading provider of a batch of two episodes is
    consumed, then the trailing one. The leading provider returns its two
    durations; the trailing provider returns four, the two of the leading
    provider followed by its own two. *)
Theorem trailing_provider_returns_leading_durations :
  let playlists := [Examples.long_playlist; Examples.long_playlist] in
  exists leading_windows leading w1 trailing_windows trailing w2,
    consume_iterator Examples.config (Examples.env 3)
      (AudioProvider__init__ playlists true) Examples.fresh
    = (Ok (leading_windows, leading), w1)
    /\ consume_iterator Examples.config (Examples.env 3)
         (AudioProvider__init__ playlists false) w1
       = (Ok (trailing_windows, trailing), w2)
    /\ fst (truncated_durations leading w1) = Ok [of_int 300; of_int 300]
    /\ map captured trailing_windows = [of_int 300; of_int 300]
    /\ fst (truncated_durations trailing w2)
       = Ok [of_int 300; of_int 300; of_int 300; of_int 300].
Proof.
  eexists _, _, _, _, _, _.
  split; [vm_compute; reflexivity|].
  split; [vm_compute; reflexivity|].
  split_and!; reflexivity.
Qed.

(** Before the first [next] the property raises. *)
Example truncated_durations_before_consumption :
  fst (truncated_durations
         (AudioProvider__init__ [Examples.long_playlist; Examples.long_playlist] true)
         Examples.fresh)
  = Raise AssertionError.
Proof. reflexivity. Qed.

(** ** [find_scenes] *)

Lemma empty_indexes_from_S {A} (base : nat) (l : list (option A)) :
  empty_indexes_from (S base) l = map S (empty_indexes_from base l).
Proof.
  revert base. induction l as [|x l IH]; intros base; [reflexivity|].
  unfold empty_indexes_from in *. cbn [length seq zip zip_with omap].
  cbn [omap list_omap].
  destruct x; cbn; rewrite IH; reflexivity.
Qed.

Lemma usable_enumerate {A} (l : list (option A)) :
  omap (fun '(_, x) => x) (enumerate l) = omap id l.
Proof.
  unfold enumerate. generalize 0%nat.
  induction l as [|x l IH]; intros base; [reflexivity|].
  cbn. destruct x; cbn; rewrite IH; reflexivity.
Qed.

Lemma foldl_insert_shift (h : Scenes) (indexes : list nat) :
  forall all_scenes,
  foldl insert_empty (h :: all_scenes) (map S indexes)
  = h :: foldl insert_empty all_scenes indexes.
Proof.
  induction indexes as [|i indexes IH]; intros all_scenes; [reflexivity|].
  cbn [map foldl]. rewrite <- IH. reflexivity.
Qed.

Lemma foldl_insert_interleave {A} (manifests : list (option A)) :
  forall found,
  length found = length (omap id manifests) ->
  foldl insert_empty found (empty_indexes_from 0 manifests)
  = interleave manifests found.
Proof.
  induction manifests as [|x manifests IH]; intros found Hlen.
  - destruct found; [reflexivity|discriminate].
  - destruct x as [a|].
    + destruct found as [|scenes found]; [discriminate|].
      injection Hlen as Hlen.
      change (empty_indexes_from 0 (Some a :: manifests))
        with (empty_indexes_from 1 manifests).
      rewrite empty_indexes_from_S, foldl_insert_shift, IH by assumption.
      reflexivity.
    + change (empty_indexes_from 0 (None :: manifests))
        with (0%nat :: empty_indexes_from 1 manifests).
      cbn [foldl]. change (insert_empty found 0) with (empty_scenes :: found).
      rewrite empty_indexes_from_S, foldl_insert_shift, IH by assumption.
      reflexivity.
Qed.

Lemma length_interleave {A} (manifests : list (option A)) :
  forall found,
  length found = length (omap id manifests) ->
  length (interleave manifests found) = length manifests.
Proof.
  induction manifests as [|[a|] manifests IH]; intros found Hlen; [reflexivity| |].
  - destruct found as [|scenes found]; [discriminate|].
    injection Hlen as Hlen. cbn. rewrite IH by assumption. reflexivity.
  - cbn. rewrite IH by assumption. reflexivity.
Qed.

Lemma length_insert_sorted (x : float) (l : list float) :
  length (insert_sorted x l) = S (length l).
Proof.
  induction l as [|y l IH]; [reflexivity|].
  cbn [insert_sorted]. destruct (lt x y); cbn [length]; [|rewrite IH]; reflexivity.
Qed.

Lemma length_sorted (data : list float) : length (sorted data) = length data.
Proof.
  unfold sorted.
  assert (H : forall acc, length (foldl (fun acc x => insert_sorted x acc) acc data)
                          = (length acc + length data)%nat).
  { induction data as [|x data IH]; intros acc; cbn [foldl length]; [lia|].
    rewrite IH, length_insert_sorted. lia. }
  apply H.
Qed.

Lemma median_nonempty (data : list float) :
  data <> [] -> exists m, median data = Ok m.
Proof.
  intros Hne. unfold median. rewrite length_sorted.
  assert (Hpos : (0 < length data)%nat) by (destruct data; [congruence|simpl; lia]).
  destruct (Nat.eqb_spec (length data) 0) as [|_]; [lia|].
  destruct (_ =? 1)%nat.
  - destruct (lookup_lt_is_Some_2 (sorted data) (length data / 2)) as [x ->]; [|eauto].
    rewrite length_sorted. apply Nat.div_lt; lia.
  - assert (Hhalf : (length data / 2 < length data)%nat) by (apply Nat.div_lt; lia).
    destruct (lookup_lt_is_Some_2 (sorted data) (length data / 2 - 1)) as [a ->];
      [rewrite length_sorted; lia|].
    destruct (lookup_lt_is_Some_2 (sorted data) (length data / 2)) as [b ->];
      [rewrite length_sorted; lia|].
    eauto.
Qed.

Section Scenes.

Variable Config : ConfigT.
Variable env : Env.

Lemma length_zip3 {A B C} (xs : list A) (ys : list B) (zs : list C) :
  length (zip3 xs ys zs) = Nat.min (Nat.min (length xs) (length ys)) (length zs).
Proof. unfold zip3. rewrite !length_zip. reflexivity. Qed.

Lemma fix_openings_ok (openings : list Interval)
    (playlists_and_durations : list (M3U8 * float)) (truncated : list float) :
  openings <> [] -> playlists_and_durations <> [] -> truncated <> [] ->
  exists fixed,
    _fix_openings Config openings playlists_and_durations truncated = Ok fixed
    /\ length fixed
       = Nat.min (Nat.min (length openings) (length truncated))
                 (length playlists_and_durations).
Proof.
  intros Ho Hp Ht. unfold _fix_openings.
  destruct (median_nonempty
              (map (fun '(opening, _, _) => sub (end_ opening) (start opening))
                   (zip3 openings truncated playlists_and_durations)))
    as [m Hm].
  { destruct openings, truncated, playlists_and_durations; try congruence.
    discriminate. }
  rewrite Hm. cbn [rbind]. eexists. split; [reflexivity|].
  rewrite length_map, length_zip3. reflexivity.
Qed.

Lemma length_fix_endings (endings : list Interval)
    (playlists_and_durations : list (M3U8 * float)) (truncated : list float) :
  length (_fix_endings endings playlists_and_durations truncated)
  = Nat.min (Nat.min (length endings) (length truncated))
            (length playlists_and_durations).
Proof. unfold _fix_endings. rewrite length_map, length_zip3. reflexivity. Qed.


Lemma complete_manifests_playlists (playlists_and_durations : list (M3U8 * float)) :
  complete_manifests playlists_and_durations ->
  Forall complete_playlist (map fst playlists_and_durations).
Proof. intros H. apply Forall_map. exact H. Qed.

Lemma get_openings_ok (playlists_and_durations : list (M3U8 * float))
    (series_window : Z) (w : World) :
  recogniser_contract env ->
  complete_manifests playlists_and_durations ->
  (2 <= length playlists_and_durations)%nat ->
  exists openings windows,
    _get_openings Config env playlists_and_durations series_window w
    = (Ok openings, with_truncated w (map captured windows))
    /\ length openings = length playlists_and_durations.
Proof.
  intros Hrec Hall Hlen. unfold _get_openings.
  destruct (consume_iterator_fresh Config env (map fst playlists_and_durations) true w
              (complete_manifests_playlists _ Hall))
    as (windows & Hrun & Hwins & _).
  rewrite length_map in Hwins.
  destruct (Nat.ltb_spec (length playlists_and_durations) 2) as [|_]; [lia|].
  unfold bind at 1. rewrite Hrun.
  unfold bind at 1. rewrite truncated_durations_ready by reflexivity.
  set (openings0 := map _ (recognise_from_audio_files_with_offsets _ _ _)).
  assert (Hlen0 : length openings0 = length playlists_and_durations).
  { subst openings0. rewrite length_map, Hrec. exact Hwins. }
  destruct (fix_openings_ok openings0 playlists_and_durations
              (_truncated_durations_per_episode
                 (with_truncated w (map captured windows))))
    as (fixed & Hfix & Hfixlen).
  - destruct openings0; [simpl in Hlen0; lia|discriminate].
  - destruct playlists_and_durations; [simpl in Hlen; lia|discriminate].
  - cbn [with_truncated _truncated_durations_per_episode].
    destruct windows; [simpl in Hwins; lia|].
    intros Happ. apply app_eq_nil in Happ as [_ Happ]. discriminate.
  - unfold lift. rewrite Hfix. exists fixed, windows. split; [reflexivity|].
    rewrite Hfixlen. cbn [with_truncated _truncated_durations_per_episode].
    rewrite length_app, length_map. lia.
Qed.

Lemma get_endings_ok (playlists_and_durations : list (M3U8 * float))
    (series_window : Z) (w : World) :
  recogniser_contract env ->
  complete_manifests playlists_and_durations ->
  (2 <= length playlists_and_durations)%nat ->
  exists endings windows,
    _get_endings Config env playlists_and_durations series_window w
    = (Ok endings, with_truncated w (map captured windows))
    /\ length endings = length playlists_and_durations.
Proof.
  intros Hrec Hall Hlen. unfold _get_endings.
  destruct (consume_iterator_fresh Config env (map fst playlists_and_durations) false w
              (complete_manifests_playlists _ Hall))
    as (windows & Hrun & Hwins & _).
  rewrite length_map in Hwins.
  destruct (Nat.ltb_spec (length playlists_and_durations) 2) as [|_]; [lia|].
  unfold bind at 1. rewrite Hrun.
  unfold bind at 1. rewrite truncated_durations_ready by reflexivity.
  eexists _, windows. split; [reflexivity|].
  rewrite length_fix_endings, length_map, Hrec.
  cbn [with_truncated _truncated_durations_per_episode].
  rewrite length_app, length_map. lia.
Qed.

Lemma get_scenes_by_playlists_ok (playlists_and_durations : list (M3U8 * float))
    (w : World) :
  recogniser_contract env ->
  complete_manifests playlists_and_durations ->
  (2 <= length playlists_and_durations)%nat ->
  exists found appended,
    _get_scenes_by_playlists Config env playlists_and_durations w
    = (Ok found, with_truncated w appended)
    /\ length found = length playlists_and_durations.
Proof.
  intros Hrec Hall Hlen. unfold _get_scenes_by_playlists.
  destruct (get_openings_ok playlists_and_durations (episodes_to_match Config) w
              Hrec Hall Hlen) as (openings & ws1 & Hop & Hoplen).
  unfold bind at 1. rewrite Hop.
  destruct (get_endings_ok playlists_and_durations (episodes_to_match Config)
              (with_truncated w (map captured ws1)) Hrec Hall Hlen)
    as (endings & ws2 & Hen & Henlen).
  unfold bind at 1. rewrite Hen.
  rewrite with_truncated_app.
  eexists _, _. split; [reflexivity|].
  rewrite length_map, length_zip3. lia.
Qed.


Lemma get_scenes_by_playlists_too_few (playlists_and_durations : list (M3U8 * float))
    (w : World) :
  recogniser_contract env ->
  (length playlists_and_durations < 2)%nat ->
  _get_scenes_by_playlists Config env playlists_and_durations w
  = (Raise StatisticsError, w).
Proof.
  intros Hrec Hlen. unfold _get_scenes_by_playlists, _get_openings, consume_iterator.
  cbn [consume next AudioProvider__init__ _initialized _playlists set_initialized].
  rewrite length_map.
  destruct (Nat.ltb_spec (length playlists_and_durations) 2) as [_|]; [|lia].
  unfold bind, ret, lift. cbn.
  specialize (Hrec [] (episodes_to_match Config)).
  destruct (recognise_from_audio_files_with_offsets env [] (episodes_to_match Config));
    [|discriminate].
  reflexivity.
Qed.

Lemma map_M_inv {A B} (f : A -> M B) (xs : list A) :
  forall (w : World) (ys : list B) (w' : World),
  map_M f xs w = (Ok ys, w') ->
  length ys = length xs
  /\ (forall i x, xs !! i = Some x ->
        exists y wi wi', ys !! i = Some y /\ f x wi = (Ok y, wi')).
Proof.
  induction xs as [|x xs IH]; intros w ys w' Hrun.
  - injection Hrun as <- <-. split; [reflexivity|]. intros i x Hx. discriminate.
  - cbn [map_M] in Hrun. unfold bind at 1 in Hrun.
    destruct (f x w) as [[y|e] w1] eqn:Hfx; [|discriminate].
    unfold bind at 1 in Hrun.
    destruct (map_M f xs w1) as [[ys'|e] w2] eqn:Hrest; [|discriminate].
    injection Hrun as <- <-.
    apply IH in Hrest as [Hlen Hall].
    split; [simpl; rewrite Hlen; reflexivity|].
    intros [|i] x' Hx'.
    + injection Hx' as <-. exists y, w, w1. auto.
    + apply Hall in Hx'. exact Hx'.
Qed.

Lemma map_result_not_none {A} (xs : list (option A)) (ys : list A) :
  map_result not_none xs = Ok ys <-> xs = map Some ys.
Proof.
  revert ys. induction xs as [|[x|] xs IH]; intros ys.
  - split; [intros [= <-]; reflexivity|].
    destruct ys; [reflexivity|discriminate].
  - cbn [map_result not_none rbind].
    destruct (map_result not_none xs) as [ys'|e] eqn:Hrest.
    + split.
      * intros [= <-]. cbn [map]. f_equal. apply IH. reflexivity.
      * destruct ys as [|y ys]; [discriminate|]. intros [= -> Hxs].
        apply IH in Hxs as [= ->]. reflexivity.
    + split; [discriminate|].
      destruct ys as [|y ys]; [discriminate|]. intros [= -> Hxs].
      apply IH in Hxs. discriminate.
  - cbn [map_result not_none rbind]. split; [discriminate|].
    destruct ys; discriminate.
Qed.


Lemma map_map_result_durations (segs : list Segment) :
  map_result not_none (map duration segs)
  = map_result (fun segment => not_none (duration segment)) segs.
Proof.
  induction segs as [|segment segs IH]; [reflexivity|].
  cbn [map map_result]. rewrite IH. reflexivity.
Qed.

Ltac run_manifest :=
  cbv beta iota zeta delta
    [_get_playlist_and_duration get_video invoke bind ret lift logger fst snd];
  repeat match goal with
         | |- context [match ?r with Ok _ => _ | Raise _ => _ end] =>
             destruct r; cbv beta iota zeta delta [fst snd]
         | |- context [match segments ?p with [] => _ | _ :: _ => _ end] =>
             destruct (segments p); cbv beta iota zeta delta [fst snd]
         | |- context [if ?b then _ else _] =>
             destruct b; cbv beta iota zeta delta [fst snd]
         end.

Lemma get_playlist_and_duration_world (my_anime_list_id : Z) (dub : string)
    (episode : Z) (w w' : World) :
  fst (_get_playlist_and_duration Config env my_anime_list_id dub episode w)
  = fst (_get_playlist_and_duration Config env my_anime_list_id dub episode w').
Proof. run_manifest; reflexivity. Qed.

Lemma get_playlist_and_duration_frame (my_anime_list_id : Z) (dub : string)
    (episode : Z) (w : World) :
  _truncated_durations_per_episode
    (snd (_get_playlist_and_duration Config env my_anime_list_id dub episode w))
  = _truncated_durations_per_episode w.
Proof. run_manifest; reflexivity. Qed.

Lemma get_playlist_and_duration_inv (my_anime_list_id : Z) (dub : string)
    (episode : Z) (w : World) (r : option (M3U8 * float)) :
  fst (_get_playlist_and_duration Config env my_anime_list_id dub episode w) = Ok r ->
  exists playlist,
    lowest_quality_playlist env my_anime_list_id dub episode = Ok playlist
    /\ match r with
       | None => excluded Config playlist
       | Some (usable, total_duration) =>
           usable = playlist
           /\ ~ excluded Config playlist
           /\ exists durations,
                map duration (segments playlist) = map Some durations
                /\ total_duration = PyFloat.sum durations
       end.
Proof.
  cbv beta iota zeta delta
    [_get_playlist_and_duration lowest_quality_playlist get_video invoke bind ret
     lift logger fst snd].
  destruct (min_quality env _) as [quality|e]; cbn [fst snd rbind]; [|discriminate].
  destruct (dict_getitem _ quality) as [url|e]; cbn [fst snd rbind]; [|discriminate].
  set (playlist := m3u8_load env url).
  destruct (segments playlist) as [|segment rest] eqn:Hsegs.
  - cbn [fst snd]. intros [= <-]. exists playlist. split; [reflexivity|].
    left. exact Hsegs.
  - rewrite <- Hsegs. rewrite <- map_map_result_durations.
    destruct (map_result not_none (map duration (segments playlist)))
      as [durations|e] eqn:Hds; cbn [fst snd]; [|discriminate].
    apply map_result_not_none in Hds.
    destruct (lt (PyFloat.sum durations) _) eqn:Hlt; cbn [fst snd]; intros [= <-];
      exists playlist; (split; [reflexivity|]).
    + right. exists durations. auto.
    + split; [reflexivity|]. split; [|eauto].
      intros [Hnil|(ds & Hds' & Hlt')]; [congruence|].
      rewrite Hds in Hds'. apply (inj (map Some)) in Hds'. congruence.
Qed.


Lemma resolve_manifests (my_anime_list_id : Z) (dub : string) (episodes : list Z)
    (manifests : list (option (M3U8 * float))) :
  Forall2 (resolves Config env my_anime_list_id dub) episodes manifests ->
  forall w, exists w1,
    map_M (_get_playlist_and_duration Config env my_anime_list_id dub) episodes w
    = (Ok manifests, w1)
    /\ _truncated_durations_per_episode w1 = _truncated_durations_per_episode w.
Proof.
  induction 1 as [|episode manifest episodes manifests Hres _ IH]; intros w.
  - exists w. split; reflexivity.
  - cbn [map_M]. unfold bind at 1.
    pose proof (Hres w) as Hfst.
    pose proof (get_playlist_and_duration_frame my_anime_list_id dub episode w) as Hfr.
    destruct (_get_playlist_and_duration Config env my_anime_list_id dub episode w)
      as [r w0].
    cbn [fst snd] in Hfst, Hfr. subst r.
    destruct (IH w0) as (w1 & Hrest & Hfr1).
    unfold bind. rewrite Hrest. exists w1. split; [reflexivity|congruence].
Qed.

(** C1, as amended: when the manifest of every requested episode resolves,
    at least two of them are usable and complete, and the recogniser
    answers one guess per window, [find_scenes] returns exactly one pair
    per requested episode, in input order; an episode is excluded exactly
    when its manifest has no segments or a total duration below
    [2 * seconds_to_match], and gets the all-absent record; the other
    episodes get, in order, the scenes found from the usable manifests
    alone. *)
Theorem find_scenes_spec (my_anime_list_id : Z) (dub : string) (episodes : list Z)
    (manifests : list (option (M3U8 * float))) (w : World) :
  recogniser_contract env ->
  Forall2 (resolves Config env my_anime_list_id dub) episodes manifests ->
  complete_manifests (omap id manifests) ->
  (2 <= length (omap id manifests))%nat ->
  exists found scenes_by_video w1 w',
    find_scenes Config env my_anime_list_id dub episodes w = (Ok scenes_by_video, w')
    /\ length scenes_by_video = length episodes
    /\ map fst scenes_by_video = video_keys my_anime_list_id dub episodes
    /\ map snd scenes_by_video = interleave manifests found
    /\ _get_scenes_by_playlists Config env (omap id manifests) w1 = (Ok found, w')
    /\ _truncated_durations_per_episode w1 = _truncated_durations_per_episode w
    /\ length found = length (omap id manifests)
    /\ Forall2 (fun episode manifest =>
                  exists playlist,
                    lowest_quality_playlist env my_anime_list_id dub episode
                    = Ok playlist
                    /\ (manifest = None <-> excluded Config playlist))
               episodes manifests.
Proof.
  intros Hrec Hres Hall Htwo.
  unfold find_scenes. unfold bind at 1. cbn [logger].
  match goal with
  | |- context [bind (map_M _ _) _ ?w0] =>
      destruct (resolve_manifests my_anime_list_id dub episodes manifests Hres w0)
        as (w1 & Hmap & Hfr1)
  end.
  unfold bind at 1. rewrite Hmap.
  change (enumerate manifests) with (zip (seq 0 (length manifests)) manifests).
  fold (empty_indexes_from 0 manifests).
  change (zip (seq 0 (length manifests)) manifests) with (enumerate manifests).
  rewrite usable_enumerate.
  unfold bind at 1.
  set (w2 := snd ((if (0 <? length (empty_indexes_from 0 manifests))%nat
                   then logger WARNING (MsgSkippingEmpty (empty_indexes_from 0 manifests))
                   else ret tt) w1)).
  assert (Hw2 : (if (0 <? length (empty_indexes_from 0 manifests))%nat
                 then logger WARNING (MsgSkippingEmpty (empty_indexes_from 0 manifests))
                 else ret tt) w1 = (Ok tt, w2)).
  { subst w2. destruct (0 <? _)%nat; reflexivity. }
  assert (Hfr2 : _truncated_durations_per_episode w2
                 = _truncated_durations_per_episode w).
  { subst w2. destruct (0 <? _)%nat; cbn; exact Hfr1. }
  rewrite Hw2.
  destruct (get_scenes_by_playlists_ok (omap id manifests) w2 Hrec Hall Htwo)
    as (found & appended & Hfound & Hlen).
  unfold bind at 1. rewrite Hfound.
  fold insert_empty. rewrite foldl_insert_interleave by exact Hlen.
  assert (Hlens : length (video_keys my_anime_list_id dub episodes)
                  = length (interleave manifests found)).
  { unfold video_keys. rewrite length_map, length_interleave by exact Hlen.
    apply (Forall2_length _ _ _ Hres). }
  eexists found, _, w2, _. split_and!.
  - reflexivity.
  - rewrite length_zip, <- Hlens. unfold video_keys. rewrite length_map. lia.
  - apply (fst_zip (video_keys my_anime_list_id dub episodes)). lia.
  - apply (snd_zip (video_keys my_anime_list_id dub episodes)). lia.
  - exact Hfound.
  - exact Hfr2.
  - exact Hlen.
  - clear -Hres. induction Hres as [|episode manifest ? ? Hr _ IH]; constructor; [|exact IH].
    destruct (get_playlist_and_duration_inv my_anime_list_id dub episode
                {| _truncated_durations_per_episode := []; log := [];
                   lambda_invocations := [] |} manifest (Hr _))
      as (playlist & Hpl & Hcase).
    exists playlist. split; [exact Hpl|].
    destruct manifest as [[usable total]|].
    + destruct Hcase as (_ & Hnot & _). split; [discriminate|contradiction].
    + split; auto.
Qed.

End Scenes.

(** ** The request flow *)

Section Requests.

Variable Config : ConfigT.
Variable env : Env.

Lemma get_episodes_to_process_world (first : VideoKey) (others : list VideoKey)
    (force : bool) (w w' : World) :
  fst (_get_episodes_to_process Config env (first :: others) force w)
  = fst (_get_episodes_to_process Config env (first :: others) force w').
Proof.
  unfold _get_episodes_to_process, bind, get_episodes, invoke, ret, lift. simpl.
  destruct force; [destruct (_ <? _)%nat|]; reflexivity.
Qed.

Lemma get_episodes_to_process_window (first : VideoKey) (others : list VideoKey)
    (w : World) :
  snd (_get_episodes_to_process Config env (first :: others) false w)
  = {| _truncated_durations_per_episode := _truncated_durations_per_episode w;
       log := log w;
       lambda_invocations :=
         lambda_invocations w
         ++ [(loan_api_function_arn Config,
              GetEpisodesRequest (my_anime_list_id first) (dub first))] |}.
Proof. reflexivity. Qed.

(** C2, as amended: when the window has at least [min_episode_number]
    episodes, some requested episodes are outside it and [force] is not
    set, empty scenes are reported for exactly the unavailable videos and
    the request ends there: nothing else is logged, reported or invoked,
    no batch is formed. *)
Theorem process_videos_stops_on_unavailable (first : VideoKey)
    (others : list VideoKey) (w : World) (episodes_to_process : list Z) :
  let videos_to_match := first :: others in
  let unavailable_videos :=
    filter (fun video => episode video ∉ episodes_to_process) videos_to_match in
  let r := _process_videos Config env videos_to_match false w in
  _ensure_if_all_videos_for_same_group videos_to_match = Ok tt ->
  fst (_get_episodes_to_process Config env videos_to_match false w)
  = Ok episodes_to_process ->
  min_episode_number Config <= Z.of_nat (length episodes_to_process) ->
  unavailable_videos <> [] ->
  fst r = Ok tt
  /\ log (snd r)
     = log w ++ [(INFO, MsgReceived videos_to_match);
                 (INFO, MsgSameGroup (my_anime_list_id first) (dub first));
                 (INFO, MsgUnavailable unavailable_videos (length videos_to_match));
                 (INFO, MsgUploadingEmptyScenes unavailable_videos)]
  /\ lambda_invocations (snd r)
     = lambda_invocations w
       ++ [(loan_api_function_arn Config,
            GetEpisodesRequest (my_anime_list_id first) (dub first))]
  /\ _truncated_durations_per_episode (snd r) = _truncated_durations_per_episode w
  /\ (forall video,
        answered (drop (length (log w)) (log (snd r))) video
        <-> video ∈ unavailable_videos).
Proof.
  intros videos_to_match unavailable_videos r Hgroup Hwindow Hmin Hunavailable.
  assert (Hrun : r = (Ok tt,
            {| _truncated_durations_per_episode := _truncated_durations_per_episode w;
               log := log w ++ [(INFO, MsgReceived videos_to_match);
                 (INFO, MsgSameGroup (my_anime_list_id first) (dub first));
                 (INFO, MsgUnavailable unavailable_videos (length videos_to_match));
                 (INFO, MsgUploadingEmptyScenes unavailable_videos)];
               lambda_invocations := lambda_invocations w
                 ++ [(loan_api_function_arn Config,
                      GetEpisodesRequest (my_anime_list_id first) (dub first))] |})).
  { subst r. unfold _process_videos.
    unfold bind at 1. cbn [logger].
    unfold bind at 1. unfold lift at 1. rewrite Hgroup.
    cbn [videos_to_match].
    unfold bind at 1. cbn [logger].
    unfold bind at 1.
    match goal with
    | |- context [_get_episodes_to_process Config env ?vs false ?w0] =>
        pose proof (get_episodes_to_process_world first others false w w0) as Hfst;
        pose proof (get_episodes_to_process_window first others w0) as Hsnd;
        destruct (_get_episodes_to_process Config env vs false w0) as [res w1] eqn:Hrun0
    end.
    fold videos_to_match in Hfst, Hsnd. rewrite Hwindow, Hrun0 in Hfst.
    rewrite Hrun0 in Hsnd. cbn [fst snd] in Hfst, Hsnd. subst res w1.
    destruct (Z.ltb_spec (Z.of_nat (length episodes_to_process))
                (min_episode_number Config)) as [Hlt|_]; [lia|].
    fold unavailable_videos.
    destruct unavailable_videos as [|u us] eqn:Hu; [congruence|].
    cbn [length Nat.ltb Nat.leb andb negb].
    unfold bind, upload_empty_scenes, logger.
    cbn [log _truncated_durations_per_episode lambda_invocations].
    rewrite <- !app_assoc. simpl. reflexivity. }
  rewrite Hrun. cbn [fst snd log lambda_invocations _truncated_durations_per_episode].
  split_and!; try reflexivity.
  intros video. rewrite drop_app_length. unfold answered.
  rewrite !Exists_cons, Exists_nil. unfold answers. cbn [snd]. tauto.
Qed.

End Requests.

(** ** The statements on concrete requests *)

Lemma example_recogniser_contract (available : Z) :
  recogniser_contract (Examples.env available).
Proof. intros windows series_window. apply length_map. Qed.

(** C1, as stated, fails on a batch of two episodes of which one is too
    short: both manifests resolve and the recogniser answers one guess per
    window, yet the call raises and there is no result. *)
Lemma find_scenes_raises_with_one_usable_episode :
  let manifests :=
    [Some (Examples.long_playlist, of_int 600); None] in
  let r := find_scenes Examples.config (Examples.env 3) 7 "sub" [1; 2]
             Examples.fresh in
  Forall2 (resolves Examples.config (Examples.env 3) 7 "sub") [1; 2] manifests
  /\ excluded Examples.config Examples.short_playlist
  /\ fst r = Raise StatisticsError
  /\ ~ (exists scenes_by_video,
          fst r = Ok scenes_by_video /\ length scenes_by_video = 2%nat).
Proof.
  split_and!.
  - repeat constructor; intros w; reflexivity.
  - right. exists [of_int 100]. split; reflexivity.
  - vm_compute. reflexivity.
  - intros (scenes_by_video & Hrun & _). vm_compute in Hrun. discriminate.
Qed.

(** Three episodes of which the second is too short: three pairs, the
    second one all-absent. *)
Lemma find_scenes_spec_witness :
  exists scenes_by_video w',
    find_scenes Examples.config (Examples.env 3) 7 "sub" [1; 2; 3] Examples.fresh
    = (Ok scenes_by_video, w')
    /\ length scenes_by_video = 3%nat
    /\ map fst scenes_by_video = [Examples.key 1; Examples.key 2; Examples.key 3]
    /\ map snd scenes_by_video !! 1%nat = Some empty_scenes.
Proof.
  destruct (find_scenes_spec Examples.config (Examples.env 3) 7 "sub" [1; 2; 3]
              [Some (Examples.long_playlist, of_int 600); None;
               Some (Examples.long_playlist, of_int 600)]
              Examples.fresh)
    as (found & scenes_by_video & w1 & w' & Hrun & Hlen & Hkeys & Hscenes & _ & _
        & Hfound & _).
  - apply example_recogniser_contract.
  - repeat constructor; intros w; reflexivity.
  - repeat constructor; eexists; reflexivity.
  - simpl. lia.
  - exists scenes_by_video, w'. split_and!.
    + exact Hrun.
    + exact Hlen.
    + exact Hkeys.
    + rewrite Hscenes. destruct found as [|first_scenes [|second_scenes rest]];
        [discriminate|discriminate|reflexivity].
Defined.

Example find_scenes_three_episodes :
  match fst (find_scenes Examples.config (Examples.env 3) 7 "sub" [1; 2; 3]
               Examples.fresh) with
  | Ok [(key1, scenes1); (key2, scenes2); (key3, scenes3)] =>
      [key1; key2; key3] = [Examples.key 1; Examples.key 2; Examples.key 3]
      /\ scenes2 = empty_scenes
      /\ scenes1 = scenes3
      /\ scenes1 <> empty_scenes
  | _ => False
  end.
Proof. vm_compute. split_and!; try reflexivity. discriminate. Qed.

(** C2, as stated, fails on a request for the episodes 1 and 99 of a
    series whose available episodes are 1 to 3: episode 1 is inside the
    window, episode 99 is reported with empty scenes, and neither scenes
    nor a fallback are reported for episode 1; no batch is processed. *)
Lemma available_video_left_unanswered :
  let videos_to_match := [Examples.key 1; Examples.key 99] in
  let r := _process_videos Examples.config (Examples.env 3) videos_to_match false
             Examples.fresh in
  fst (_get_episodes_to_process Examples.config (Examples.env 3) videos_to_match
         false Examples.fresh) = Ok [1; 2; 3]
  /\ fst r = Ok tt
  /\ answered (log (snd r)) (Examples.key 99)
  /\ ~ answered (log (snd r)) (Examples.key 1)
  /\ Forall (fun record => forall batch, snd record <> MsgProcessingBatch batch)
            (log (snd r)).
Proof.
  split_and!.
  - vm_compute. reflexivity.
  - vm_compute. reflexivity.
  - vm_compute. do 3 apply Exists_cons_tl. apply Exists_cons_hd.
    apply list_elem_of_here.
  - vm_compute. intros H.
    repeat match goal with
           | H : Exists _ (_ :: _) |- _ => apply Exists_cons in H as [H|H]
           | H : Exists _ [] |- _ => apply Exists_nil in H
           | H : False |- _ => destruct H
           end.
    inversion H as [|? ? ? Hin]; subst. inversion Hin.
  - vm_compute. repeat constructor; discriminate.
Qed.

Lemma process_videos_stops_on_unavailable_witness :
  let videos_to_match := [Examples.key 1; Examples.key 99] in
  let r := _process_videos Examples.config (Examples.env 3) videos_to_match false
             Examples.fresh in
  fst r = Ok tt
  /\ forall video,
       answered (drop (length (log Examples.fresh)) (log (snd r))) video
       <-> video ∈ [Examples.key 99].
Proof.
  intros videos_to_match r.
  destruct (process_videos_stops_on_unavailable Examples.config (Examples.env 3)
              (Examples.key 1) [Examples.key 99] Examples.fresh [1; 2; 3])
    as (Hok & _ & _ & _ & Hanswered).
  - reflexivity.
  - vm_compute. reflexivity.
  - vm_compute. discriminate.
  - vm_compute. discriminate.
  - split; [exact Hok|exact Hanswered].
Defined.

(** ** What reaches the remote functions *)

Lemma only_requests_ret {A} (a : A) : only_requests (ret a).
Proof. intros w. exists []. split; [symmetry; apply app_nil_r|constructor]. Qed.

Lemma only_requests_raise {A} (e : exn) : only_requests (@raise A e).
Proof. intros w. exists []. split; [symmetry; apply app_nil_r|constructor]. Qed.

Lemma only_requests_lift {A} (r : result A) : only_requests (lift r).
Proof. intros w. exists []. split; [symmetry; apply app_nil_r|constructor]. Qed.

Lemma only_requests_logger (level : Level) (msg : Message) :
  only_requests (logger level msg).
Proof. intros w. exists []. split; [symmetry; apply app_nil_r|constructor]. Qed.

Lemma only_requests_append (x : float) : only_requests (append_truncated_duration x).
Proof. intros w. exists []. split; [symmetry; apply app_nil_r|constructor]. Qed.

Lemma only_requests_bind {A B} (m : M A) (k : A -> M B) :
  only_requests m -> (forall a, only_requests (k a)) -> only_requests (bind m k).
Proof.
  intros Hm Hk w. unfold bind.
  destruct (Hm w) as (added1 & H1 & Hall1).
  destruct (m w) as [[a|e] w1]; cbn [snd] in *.
  - destruct (Hk a w1) as (added2 & H2 & Hall2).
    exists (added1 ++ added2). rewrite H2, H1, app_assoc.
    split; [reflexivity|apply Forall_app; auto].
  - exists added1. auto.
Qed.

Lemma only_requests_try_except {A} (body : M A) (handler : exn -> M A) :
  only_requests body -> (forall e, only_requests (handler e)) ->
  only_requests (try_except body handler).
Proof.
  intros Hm Hk w. unfold try_except.
  destruct (Hm w) as (added1 & H1 & Hall1).
  destruct (body w) as [[a|e] w1]; cbn [snd] in *.
  - exists added1. auto.
  - destruct (Hk e w1) as (added2 & H2 & Hall2).
    exists (added1 ++ added2). rewrite H2, H1, app_assoc.
    split; [reflexivity|apply Forall_app; auto].
Qed.

Lemma only_requests_retry {A} (f : M A) : only_requests f -> only_requests (retry f).
Proof.
  intros Hf w. unfold retry.
  destruct (Hf w) as (added1 & H1 & Hall1).
  destruct (f w) as [[a|e] w1]; cbn [snd] in *.
  - exists added1. auto.
  - destruct (Hf w1) as (added2 & H2 & Hall2).
    exists (added1 ++ added2). rewrite H2, H1, app_assoc.
    split; [reflexivity|apply Forall_app; auto].
Qed.

Lemma only_requests_for_each {A} (xs : list A) (body : A -> M unit) :
  (forall x, only_requests (body x)) -> only_requests (for_each xs body).
Proof.
  intros Hbody. induction xs as [|x xs IH]; cbn [for_each].
  - apply only_requests_ret.
  - apply only_requests_bind; auto.
Qed.

Lemma only_requests_map_M {A B} (f : A -> M B) (xs : list A) :
  (forall x, only_requests (f x)) -> only_requests (map_M f xs).
Proof.
  intros Hf. induction xs as [|x xs IH]; cbn [map_M].
  - apply only_requests_ret.
  - apply only_requests_bind; [auto|]. intros y.
    apply only_requests_bind; [auto|]. intros ys. apply only_requests_ret.
Qed.

Ltac frame_step :=
  match goal with
  | |- only_requests (bind _ _) => apply only_requests_bind; [|intros ?]
  | |- only_requests (ret _) => apply only_requests_ret
  | |- only_requests (raise _) => apply only_requests_raise
  | |- only_requests (lift _) => apply only_requests_lift
  | |- only_requests (logger _ _) => apply only_requests_logger
  | |- only_requests (append_truncated_duration _) => apply only_requests_append
  | |- only_requests (try_except _ _) => apply only_requests_try_except; [|intros ?]
  | |- only_requests (retry _) => apply only_requests_retry
  | |- only_requests (for_each _ _) => apply only_requests_for_each; intros ?
  | |- only_requests (map_M _ _) => apply only_requests_map_M; intros ?
  | |- only_requests (if ?b then _ else _) => destruct b
  | |- only_requests (match ?x with Some _ => _ | None => _ end) => destruct x
  | |- only_requests (match ?x with [] => _ | _ :: _ => _ end) => destruct x
  | |- only_requests (let '(_, _) := ?p in _) => destruct p
  | |- only_requests (match ?p with (_, _) => _ end) => destruct p
  end.

Section Frame.

Variable Config : ConfigT.
Variable env : Env.

Lemma only_requests_get_video (my_anime_list_id : Z) (dub : string) (episode : Z) :
  only_requests (get_video Config env my_anime_list_id dub episode).
Proof.
  intros w. eexists [_]. split; [reflexivity|]. repeat constructor.
Qed.

Lemma only_requests_get_episodes (my_anime_list_id : Z) (dub : string) :
  only_requests (get_episodes Config env my_anime_list_id dub).
Proof.
  intros w. eexists [_]. split; [reflexivity|]. repeat constructor.
Qed.

Lemma only_requests_update_video_scenes (data : MatcherResultRequest) :
  only_requests (update_video_scenes env data).
Proof. apply only_requests_ret. Qed.

Lemma only_requests_upload_empty_scenes (videos_to_match : list VideoKey) :
  only_requests (upload_empty_scenes videos_to_match).
Proof. apply only_requests_logger. Qed.

Lemma only_requests_get_playlist_and_duration (my_anime_list_id : Z) (dub : string)
    (episode : Z) :
  only_requests (_get_playlist_and_duration Config env my_anime_list_id dub episode).
Proof.
  unfold _get_playlist_and_duration.
  repeat first [apply only_requests_get_video | frame_step].
Qed.

Lemma only_requests_iteration (self : AudioProvider) (i : nat) :
  only_requests (iteration Config env self i).
Proof. unfold iteration. repeat frame_step. Qed.

Lemma only_requests_next (self : AudioProvider) (frame : Frame) :
  only_requests (next Config env self frame).
Proof.
  unfold next. destruct frame;
    repeat first [apply only_requests_iteration | frame_step].
Qed.

Lemma only_requests_consume (fuel : nat) (self : AudioProvider) (frame : Frame) :
  only_requests (consume Config env fuel self frame).
Proof.
  revert self frame. induction fuel as [|fuel IH]; intros self frame; cbn [consume].
  - apply only_requests_raise.
  - repeat first [apply only_requests_next | apply IH | frame_step].
Qed.

Lemma only_requests_truncated_durations (self : AudioProvider) :
  only_requests (truncated_durations self).
Proof.
  unfold truncated_durations. destruct (_completed self).
  - intros w. exists []. split; [symmetry; apply app_nil_r|constructor].
  - apply only_requests_raise.
Qed.

Lemma only_requests_get_scenes_by_playlists
    (playlists_and_durations : list (M3U8 * float)) :
  only_requests (_get_scenes_by_playlists Config env playlists_and_durations).
Proof.
  unfold _get_scenes_by_playlists, _get_openings, _get_endings, consume_iterator.
  repeat first [apply only_requests_consume | apply only_requests_truncated_durations
               | frame_step].
Qed.

Lemma only_requests_find_scenes (my_anime_list_id : Z) (dub : string)
    (episodes_to_process : list Z) :
  only_requests (find_scenes Config env my_anime_list_id dub episodes_to_process).
Proof.
  unfold find_scenes.
  repeat first [apply only_requests_get_playlist_and_duration
               | apply only_requests_get_scenes_by_playlists | frame_step].
Qed.

Lemma only_requests_process_batch (my_anime_list_id : Z) (dub : string)
    (episodes_to_process : list Z) :
  only_requests (_process_batch Config env my_anime_list_id dub episodes_to_process).
Proof.
  unfold _process_batch.
  repeat first [apply only_requests_find_scenes
               | apply only_requests_update_video_scenes
               | apply only_requests_upload_empty_scenes | frame_step].
Qed.

Lemma only_requests_get_episodes_to_process (videos_to_match : list VideoKey)
    (force : bool) :
  only_requests (_get_episodes_to_process Config env videos_to_match force).
Proof.
  unfold _get_episodes_to_process.
  repeat first [apply only_requests_get_episodes | frame_step].
Qed.

Lemma only_requests_process_videos (videos_to_match : list VideoKey) (force : bool) :
  only_requests (_process_videos Config env videos_to_match force).
Proof.
  unfold _process_videos.
  repeat first [apply only_requests_get_episodes_to_process
               | apply only_requests_process_batch
               | apply only_requests_upload_empty_scenes | frame_step].
Qed.

(** C9: [update_video_scenes] and [upload_empty_scenes] invoke nothing
    and leave the world as it is, the log record of [upload_empty_scenes]
    apart; so whatever a request invokes is a request for episodes or for a
    video: neither scenes nor an empty-scenes fallback reach the remote
    side. *)
Theorem result_submission_is_noop (data : MatcherResultRequest)
    (videos_to_match : list VideoKey) (w : World) :
  update_video_scenes env data w = (Ok tt, w)
  /\ fst (upload_empty_scenes videos_to_match w) = Ok tt
  /\ lambda_invocations (snd (upload_empty_scenes videos_to_match w))
     = lambda_invocations w
  /\ _truncated_durations_per_episode (snd (upload_empty_scenes videos_to_match w))
     = _truncated_durations_per_episode w
  /\ log (snd (upload_empty_scenes videos_to_match w))
     = log w ++ [(INFO, MsgUploadingEmptyScenes videos_to_match)]
  /\ (forall requested force,
        only_requests (_process_videos Config env requested force)).
Proof.
  split_and!; try reflexivity.
  intros requested force. apply only_requests_process_videos.
Qed.

End Frame.

(** A processed batch of three episodes invokes the remote side four times:
    once for the episodes, once per video. *)
Example process_videos_invocations :
  lambda_invocations
    (snd (_process_videos Examples.config (Examples.env 3)
            [Examples.key 1; Examples.key 3] false Examples.fresh))
  = [("loan-api", GetEpisodesRequest 7 "sub");
     ("loan-api", GetVideoRequest 7 "sub" 1);
     ("loan-api", GetVideoRequest 7 "sub" 2);
     ("loan-api", GetVideoRequest 7 "sub" 3)]%string.
Proof. vm_compute. reflexivity. Qed.

(** * Further properties *)

(** ** The reconciler, field by field *)

Section ReconcilerMore.
Variable Config : ConfigT.

Lemma valid_or_none_cases (scene : option Interval) :
  _valid_or_none Config scene = None \/ _valid_or_none Config scene = scene.
Proof.
  destruct (_valid_or_none Config scene) as [s|] eqn:Hv; [|left; reflexivity].
  right. apply valid_or_none_inv in Hv. congruence.
Qed.

Lemma valid_or_none_idempotent (scene : option Interval) :
  _valid_or_none Config (_valid_or_none Config scene) = _valid_or_none Config scene.
Proof.
  destruct (valid_or_none_cases scene) as [H|H]; rewrite H; [reflexivity|exact H].
Qed.

(** X1: the three fields of what [_combine_scenes] returns. The opening and
    the scene after the ending have passed [_valid_or_none]; the opening is
    absent or the one given; a scene after the ending runs from the end of
    the given ending to the total duration and comes with that ending
    unchanged; an ending that is present was valid, starts where the given
    one starts and ends where it ends or at the total duration. *)
Theorem combine_scenes_fields (op en : Interval) (total_duration : float) :
  let r := _combine_scenes Config op en total_duration in
  _valid_or_none Config (opening r) = opening r
  /\ _valid_or_none Config (scene_after_ending r) = scene_after_ending r
  /\ (opening r = None \/ opening r = Some op)
  /\ (scene_after_ending r = None
      \/ scene_after_ending r = Some {| start := end_ en; end_ := total_duration |}
         /\ ending r = Some en)
  /\ (forall e, ending r = Some e ->
        _valid_or_none Config (Some en) = Some en
        /\ start e = start en
        /\ (end_ e = end_ en \/ end_ e = total_duration)).
Proof.
  intros r. subst r. unfold _combine_scenes.
  destruct (_valid_or_none Config (Some en)) as [e|] eqn:Hen.
  - apply valid_or_none_inv in Hen as [= <-].
    destruct (gt _ _); cbn [opening ending scene_after_ending].
    + split_and!.
      * apply valid_or_none_idempotent.
      * apply valid_or_none_idempotent.
      * destruct (valid_or_none_cases (Some op)) as [H|H]; auto.
      * destruct (valid_or_none_cases
                    (Some {| start := end_ en; end_ := total_duration |}))
          as [H|H]; auto.
      * intros e [= <-]. auto.
    + split_and!.
      * apply valid_or_none_idempotent.
      * reflexivity.
      * destruct (valid_or_none_cases (Some op)) as [H|H]; auto.
      * left; reflexivity.
      * intros e [= <-]. auto.
  - cbn [opening ending scene_after_ending]. split_and!.
    + apply valid_or_none_idempotent.
    + reflexivity.
    + destruct (valid_or_none_cases (Some op)) as [H|H]; auto.
    + left; reflexivity.
    + discriminate.
Qed.
End ReconcilerMore.

Section FixMore.
Variable Config : ConfigT.

Lemma lookup_zip3 {A B C} (xs : list A) (ys : list B) (zs : list C) (k : nat) :
  zip3 xs ys zs !! k
  = match xs !! k, ys !! k, zs !! k with
    | Some x, Some y, Some z => Some (x, y, z)
    | _, _, _ => None
    end.
Proof.
  unfold zip3. rewrite !lookup_zip_with.
  destruct (xs !! k), (ys !! k), (zs !! k); reflexivity.
Qed.

(** X4: [_fix_endings] answers as many endings as the shortest of its three
    lists; its [k]-th ending is the [k]-th given one with the total duration
    of the [k]-th episode minus the [k]-th captured duration added to each
    bound, the same amount for both. *)
Theorem fix_endings_shift (endings : list Interval)
    (playlists_and_durations : list (M3U8 * float)) (truncated : list float) :
  let fixed := _fix_endings endings playlists_and_durations truncated in
  length fixed
  = Nat.min (Nat.min (length endings) (length truncated))
            (length playlists_and_durations)
  /\ forall k ending captured_duration playlist total_duration,
       endings !! k = Some ending ->
       truncated !! k = Some captured_duration ->
       playlists_and_durations !! k = Some (playlist, total_duration) ->
       exists shifted,
         fixed !! k = Some shifted
         /\ start shifted
            = add (start ending) (sub total_duration captured_duration)
         /\ end_ shifted
            = add (end_ ending) (sub total_duration captured_duration).
Proof.
  intros fixed. split; [apply length_fix_endings|].
  intros k ending d playlist total He Hd Hp.
  subst fixed. unfold _fix_endings.
  rewrite list_lookup_fmap, lookup_zip3, He, Hd, Hp. cbn.
  eexists. split; [reflexivity|]. cbn [start end_].
  split; reflexivity.
Qed.

(** X5: [_fix_openings] raises [StatisticsError] exactly when one of its
    three lists is empty (the median of no value); otherwise it answers as
    many openings as the shortest list, and an opening that starts before
    the threshold starts at 0 and keeps its end, while any other opening
    keeps its start. *)
Theorem fix_openings_cases (openings : list Interval)
    (playlists_and_durations : list (M3U8 * float)) (truncated : list float) :
  (_fix_openings Config openings playlists_and_durations truncated
   = Raise StatisticsError
   <-> openings = [] \/ truncated = [] \/ playlists_and_durations = [])
  /\ (openings <> [] -> truncated <> [] -> playlists_and_durations <> [] ->
      exists fixed,
        _fix_openings Config openings playlists_and_durations truncated = Ok fixed
        /\ length fixed
           = Nat.min (Nat.min (length openings) (length truncated))
                     (length playlists_and_durations)
        /\ forall k opening,
             openings !! k = Some opening -> (k < length fixed)%nat ->
             exists fixed_opening,
               fixed !! k = Some fixed_opening
               /\ (if lt (start opening)
                         (of_int (scene_after_opening_threshold_secs Config))
                   then fixed_opening
                        = {| start := of_int 0; end_ := end_ opening |}
                   else start fixed_opening = start opening)).
Proof.
  assert (Hok : openings <> [] -> truncated <> [] -> playlists_and_durations <> [] ->
      exists fixed,
        _fix_openings Config openings playlists_and_durations truncated = Ok fixed
        /\ length fixed
           = Nat.min (Nat.min (length openings) (length truncated))
                     (length playlists_and_durations)
        /\ forall k opening,
             openings !! k = Some opening -> (k < length fixed)%nat ->
             exists fixed_opening,
               fixed !! k = Some fixed_opening
               /\ (if lt (start opening)
                         (of_int (scene_after_opening_threshold_secs Config))
                   then fixed_opening
                        = {| start := of_int 0; end_ := end_ opening |}
                   else start fixed_opening = start opening)).
  { intros Ho Ht Hp.
    destruct (fix_openings_ok Config openings playlists_and_durations truncated
                Ho Hp Ht) as (fixed & Hrun & Hlen).
    exists fixed. split; [exact Hrun|]. split; [exact Hlen|].
    intros k opening Hk Hlt.
    unfold _fix_openings in Hrun.
    destruct (median _) as [m|e]; [|discriminate]. cbn [rbind] in Hrun.
    injection Hrun as <-.
    rewrite length_map in Hlt. apply lookup_lt_is_Some_2 in Hlt as [[[o d] [p t]] Hz].
    pose proof Hz as Hz'. rewrite lookup_zip3, Hk in Hz'.
    destruct (truncated !! k), (playlists_and_durations !! k); try discriminate.
    injection Hz' as <- _ _.
    rewrite list_lookup_fmap, Hz. cbn.
    eexists. split; [reflexivity|].
    destruct (lt (start opening) _); [reflexivity|].
    destruct (lt _ _); reflexivity. }
  split; [|exact Hok].
  split.
  - intros Hraise.
    destruct openings; [auto|]. destruct truncated; [auto|].
    destruct playlists_and_durations; [auto|].
    destruct Hok as (fixed & Hrun & _); try discriminate. congruence.
  - intros Hempty. unfold _fix_openings.
    assert (Hz : zip3 openings truncated playlists_and_durations = []).
    { apply length_zero_iff_nil. rewrite length_zip3.
      destruct Hempty as [-> | [-> | ->]]; simpl; lia. }
    rewrite Hz. reflexivity.
Qed.

End FixMore.

(** ** The manifest of lowest quality *)

Section Quality.
Variable env : Env.

Lemma min_by_int_spec (rest : list string) :
  forall (best : string) (best_key : Z) (quality : string),
  min_by_int env best best_key rest = Ok quality ->
  exists key,
    (quality = best /\ key = best_key \/ quality ∈ rest /\ py_int env quality = Ok key)
    /\ key <= best_key
    /\ forall other, other ∈ rest ->
         exists other_key, py_int env other = Ok other_key /\ key <= other_key.
Proof.
  induction rest as [|q rest IH]; intros best best_key quality Hrun.
  - injection Hrun as <-. exists best_key. split_and!; [auto|lia|].
    intros other Hin. inversion Hin.
  - cbn [min_by_int] in Hrun.
    destruct (py_int env q) as [k|e] eqn:Hk; [|discriminate]. cbn [rbind] in Hrun.
    destruct (Z.ltb_spec k best_key) as [Hlt|Hge].
    + apply IH in Hrun as (key & Hwhich & Hle & Hall).
      exists key. split_and!.
      * right. destruct Hwhich as [[-> ->]|[Hin Hpi]].
        -- split; [apply list_elem_of_here|exact Hk].
        -- split; [apply list_elem_of_further; exact Hin|exact Hpi].
      * lia.
      * intros other Hin. apply elem_of_cons in Hin as [->|Hin]; [|auto].
        exists k. split; [exact Hk|lia].
    + apply IH in Hrun as (key & Hwhich & Hle & Hall).
      exists key. split_and!.
      * destruct Hwhich as [[-> ->]|[Hin Hpi]]; [left; auto|].
        right. split; [apply list_elem_of_further; exact Hin|exact Hpi].
      * exact Hle.
      * intros other Hin. apply elem_of_cons in Hin as [->|Hin]; [|auto].
        exists k. split; [exact Hk|lia].
Qed.

Lemma dict_getitem_key (playlists : list (string * string)) (key : string) :
  key ∈ map fst playlists -> exists url, dict_getitem playlists key = Ok url
                                          /\ (key, url) ∈ playlists.
Proof.
  induction playlists as [|[k v] playlists IH]; intros Hin; [inversion Hin|].
  cbn [dict_getitem]. destruct (String.eqb_spec k key) as [->|Hne].
  - exists v. split; [reflexivity|apply list_elem_of_here].
  - cbn [map fst] in Hin. apply elem_of_cons in Hin as [Heq|Hin]; [congruence|].
    destruct (IH Hin) as (url & Hrun & Hin'). exists url.
    split; [exact Hrun|apply list_elem_of_further; exact Hin'].
Qed.

Lemma lowest_quality_playlist_spec (my_anime_list_id : Z) (dub : string)
    (episode : Z) :
  let playlists := video_response env my_anime_list_id dub episode in
  (playlists = [] ->
   lowest_quality_playlist env my_anime_list_id dub episode = Raise ValueError)
  /\ (forall playlist,
        lowest_quality_playlist env my_anime_list_id dub episode = Ok playlist ->
        exists quality url key,
          (quality, url) ∈ playlists
          /\ playlist = m3u8_load env url
          /\ py_int env quality = Ok key
          /\ forall other, other ∈ map fst playlists ->
               exists other_key, py_int env other = Ok other_key /\ key <= other_key).
Proof.
  intros playlists. unfold lowest_quality_playlist. fold playlists. split.
  - intros ->. reflexivity.
  - intros playlist Hrun.
    destruct (min_quality env (map fst playlists)) as [quality|e] eqn:Hmin;
      [|discriminate].
    cbn [rbind] in Hrun.
    unfold min_quality in Hmin.
    destruct (map fst playlists) as [|q rest] eqn:Hkeys; [discriminate|].
    destruct (py_int env q) as [k|e] eqn:Hk; [|discriminate]. cbn [rbind] in Hmin.
    apply min_by_int_spec in Hmin as (key & Hwhich & Hle & Hall).
    assert (Hin : quality ∈ map fst playlists).
    { rewrite Hkeys. destruct Hwhich as [[-> _]|[Hin _]];
        [apply list_elem_of_here|apply list_elem_of_further; exact Hin]. }
    assert (Hkey : py_int env quality = Ok key).
    { destruct Hwhich as [[-> ->]|[_ Hpi]]; assumption. }
    destruct (dict_getitem_key playlists quality Hin) as (url & Hget & Hpair).
    rewrite Hget in Hrun. injection Hrun as <-.
    exists quality, url, key. split_and!; auto.
    intros other Hother. apply elem_of_cons in Hother as [->|Hother].
    + exists k. split; [exact Hk|exact Hle].
    + apply Hall. exact Hother.
Qed.
End Quality.

Section ManifestMore.
Variable Config : ConfigT.
Variable env : Env.

(** X6: [_get_playlist_and_duration] raises [ValueError] when the video has
    no playlist, and a playlist it answers is the one loaded from the URL of
    a quality whose integer value is the least of all, with a total duration
    of at least twice the audio window. *)
Theorem get_playlist_and_duration_lowest_quality (my_anime_list_id : Z)
    (dub : string) (episode : Z) (w : World) :
  let playlists := video_response env my_anime_list_id dub episode in
  let r := fst (_get_playlist_and_duration Config env my_anime_list_id dub episode w) in
  (playlists = [] -> r = Raise ValueError)
  /\ (forall playlist total_duration,
        r = Ok (Some (playlist, total_duration)) ->
        exists quality url key,
          (quality, url) ∈ playlists
          /\ playlist = m3u8_load env url
          /\ py_int env quality = Ok key
          /\ (forall other, other ∈ map fst playlists ->
                exists other_key,
                  py_int env other = Ok other_key /\ key <= other_key)
          /\ lt total_duration (of_int (2 * seconds_to_match Config)) = false).
Proof.
  intros playlists r. split.
  - intros Hnil. subst r.
    cbv beta iota zeta delta
      [_get_playlist_and_duration get_video invoke bind ret lift logger fst snd].
    fold playlists. rewrite Hnil. reflexivity.
  - intros playlist total Hr. subst r.
    apply get_playlist_and_duration_inv in Hr as (pl & Hpl & -> & Hnot & ds & Hds & ->).
    apply lowest_quality_playlist_spec in Hpl as (quality & url & key & ? & ? & ? & ?).
    exists quality, url, key. split_and!; auto.
    destruct (lt (PyFloat.sum ds) _) eqn:Hlt; [|reflexivity].
    exfalso. apply Hnot. right. exists ds. auto.
Qed.
End ManifestMore.

Section ProviderMore.
Variable Config : ConfigT.
Variable env : Env.

(** X7: a provider is used once. After the first step of its generator,
    the first step of another generator of the same provider raises
    [AssertionError] and leaves the world as it is. *)
Theorem get_iterator_single_use (self : AudioProvider) (w : World)
    item self' frame' w' (w2 : World) :
  next Config env self Created w = (Ok (item, self', frame'), w') ->
  next Config env self' Created w2 = (Raise AssertionError, w2).
Proof.
  intros Hrun. cbn [next] in Hrun.
  destruct (_initialized self) eqn:Hinit; [discriminate|].
  assert (Hs : _initialized self' = true).
  { destruct (Nat.ltb _ _).
    - injection Hrun as <- <- <- <-. reflexivity.
    - apply iteration_inv in Hrun. destruct item as [window|].
      + destruct Hrun as (? & ? & ? & -> & ?). reflexivity.
      + destruct Hrun as (? & -> & ?). reflexivity. }
  cbn [next]. rewrite Hs. reflexivity.
Qed.

(** X8: with fewer than two playlists the generator yields nothing and
    touches nothing, and [truncated_durations] then answers the shared list
    as it was. *)
Theorem fewer_than_two_playlists (playlists : list M3U8) (opening : bool) (w : World) :
  (length playlists < 2)%nat ->
  exists self',
    consume_iterator Config env (AudioProvider__init__ playlists opening) w
    = (Ok ([], self'), w)
    /\ truncated_durations self' w = (Ok (_truncated_durations_per_episode w), w).
Proof.
  intros Hlen. unfold consume_iterator.
  cbn [consume next AudioProvider__init__ _initialized _playlists set_initialized].
  destruct (Nat.ltb_spec (length playlists) 2) as [_|]; [|lia].
  eexists. split; reflexivity.
Qed.

(** X9: with two or more complete playlists the generator yields one window
    per playlist, in the order of the playlists: the [k]-th one is the
    merged audio of the segments selected from the [k]-th playlist,
    downloaded under the index [k], with the selected duration capped at the
    audio window, which is also the [k]-th value appended to the shared
    list. Nothing is logged and nothing invoked. *)
Theorem windows_in_manifest_order (playlists : list M3U8) (opening : bool) (w : World) :
  Forall complete_playlist playlists ->
  (2 <= length playlists)%nat ->
  exists windows self' w',
    consume_iterator Config env (AudioProvider__init__ playlists opening) w
    = (Ok (windows, self'), w')
    /\ length windows = length playlists
    /\ log w' = log w
    /\ lambda_invocations w' = lambda_invocations w
    /\ forall k playlist,
         playlists !! k = Some playlist ->
         exists uris segments_duration path offset,
           _build_segments_list Config playlist opening = Ok (uris, segments_duration)
           /\ path = download_and_merge_parts env k uris
           /\ windows !! k
              = Some (path, offset,
                      py_min segments_duration (of_int (seconds_to_match Config)))
           /\ _truncated_durations_per_episode w'
              !! (length (_truncated_durations_per_episode w) + k)%nat
              = Some (py_min segments_duration (of_int (seconds_to_match Config))).
Proof.
  intros Hall Htwo.
  destruct (consume_iterator_fresh Config env playlists opening w Hall)
    as (windows & Hrun & Hlen & Hwins).
  destruct (Nat.ltb_spec (length playlists) 2); [lia|].
  eexists windows, _, _. split; [exact Hrun|].
  split_and!; try reflexivity; [exact Hlen|].
  intros k playlist Hk.
  destruct (lookup_lt_is_Some_2 windows k) as [window Hw].
  { rewrite Hlen. apply lookup_lt_Some in Hk. exact Hk. }
  destruct (Hwins k window Hw) as (playlist' & Hk' & uris & d & Hb & ->).
  rewrite Hk in Hk'. injection Hk' as <-.
  eexists uris, d, _, _. split_and!; [exact Hb|reflexivity|exact Hw|].
  cbn [with_truncated _truncated_durations_per_episode].
  rewrite lookup_app_r by lia.
  replace (length (_truncated_durations_per_episode w) + k
           - length (_truncated_durations_per_episode w))%nat with k by lia.
  change (map captured windows) with (captured <$> windows).
  rewrite list_lookup_fmap, Hw. reflexivity.
Qed.

Lemma py_min_le (s : float) (m : Z) :
  isnan s = false -> le (py_min s (of_int m)) (of_int m) = true.
Proof.
  unfold py_min, lt, le, of_int, Qlt_bool.
  destruct s as [a| | |]; try discriminate; intros _; cbn.
  - destruct (Qle_bool a (inject_Z m)) eqn:H; cbn; [exact H|].
    apply Qle_bool_iff. apply Qle_refl.
  - apply Qle_bool_iff. apply Qle_refl.
  - reflexivity.
Qed.

Lemma py_max_ge_0 (x : float) :
  isnan x = false -> ge (py_max x (of_int 0)) (of_int 0) = true.
Proof.
  unfold py_max, gt, ge, lt, le, of_int, Qlt_bool.
  destruct x as [a| | |]; try discriminate; intros _; cbn.
  - destruct (Qle_bool (inject_Z 0) a) eqn:H; cbn; [exact H|reflexivity].
  - reflexivity.
  - reflexivity.
Qed.

(** X10: for a yielded window, a captured duration that is a number is at
    most the audio window, an offset that is a number is not negative, and
    the shared list has grown by exactly the captured duration. *)
Theorem yielded_window_bounds (self : AudioProvider) (frame : Frame) (w : World)
    (path : string) (offset truncated_duration : float) self' frame' w' :
  next Config env self frame w
  = (Ok (Some (path, offset, truncated_duration), self', frame'), w') ->
  (isnan truncated_duration = false ->
   le truncated_duration (of_int (seconds_to_match Config)) = true)
  /\ (isnan offset = false -> ge offset (of_int 0) = true)
  /\ _truncated_durations_per_episode w'
     = _truncated_durations_per_episode w ++ [truncated_duration].
Proof.
  intros Hnext.
  apply next_inv in Hnext
    as (i & playlist & _ & (uris & d & _ & Hwin) & _ & _ & _ & _ & ->).
  injection Hwin as -> -> ->. split_and!.
  - intros Hnan. apply py_min_le.
    destruct d; try reflexivity. discriminate.
  - destruct (_opening self); [reflexivity|].
    intros Hnan. apply py_max_ge_0.
    destruct d as [a| | |]; try reflexivity. discriminate.
  - reflexivity.
Qed.

End ProviderMore.

(** ** The window of episodes around the requested ones *)

Lemma enumerate_snoc {A} (l : list A) (x : A) :
  enumerate (l ++ [x]) = enumerate l ++ [(length l, x)].
Proof.
  unfold enumerate. rewrite length_app. cbn [length].
  rewrite Nat.add_1_r, seq_S. cbn [Nat.add].
  rewrite zip_with_app by (rewrite length_seq; reflexivity).
  reflexivity.
Qed.

Lemma episode_index_map_spec (available : list Z) (episode z : Z) :
  episode_index_map available !! episode = Some z
  <-> exists j, z = Z.of_nat j /\ last_index_of available episode j.
Proof.
  revert z. induction available as [|x available IH] using rev_ind; intros z.
  - unfold episode_index_map. cbn. rewrite lookup_empty. split; [discriminate|].
    intros (j & _ & Hj & _). discriminate.
  - unfold episode_index_map in *. rewrite enumerate_snoc, foldl_app. cbn [foldl].
    destruct (decide (x = episode)) as [->|Hne].
    + rewrite lookup_insert_eq. split.
      * intros [= <-]. exists (length available). split; [reflexivity|]. split.
        -- rewrite lookup_app_r, Nat.sub_diag by lia. reflexivity.
        -- intros j' Hj'. rewrite lookup_ge_None_2; [discriminate|].
           rewrite length_app. cbn. lia.
      * intros (j & -> & Hj & Hlast). f_equal. f_equal.
        destruct (Nat.lt_trichotomy j (length available)) as [Hlt|[->|Hgt]];
          [|reflexivity|].
        -- exfalso. apply (Hlast (length available) Hlt).
           rewrite lookup_app_r, Nat.sub_diag by lia. reflexivity.
        -- apply lookup_lt_Some in Hj. rewrite length_app in Hj. cbn in Hj. lia.
    + rewrite lookup_insert_ne by exact Hne. rewrite IH. split.
      * intros (j & -> & Hj & Hlast). exists j. split; [reflexivity|].
        pose proof (lookup_lt_Some _ _ _ Hj) as Hlt. split.
        -- rewrite lookup_app_l by exact Hlt. exact Hj.
        -- intros j' Hj'. destruct (decide (j' < length available)%nat) as [Hl|Hl].
           ++ rewrite lookup_app_l by exact Hl. apply Hlast. exact Hj'.
           ++ destruct (decide (j' = length available)) as [->|Hn].
              ** rewrite lookup_app_r, Nat.sub_diag by lia. cbn. congruence.
              ** rewrite lookup_ge_None_2; [discriminate|].
                 rewrite length_app. cbn. lia.
      * intros (j & -> & Hj & Hlast). exists j. split; [reflexivity|].
        assert (Hlt : (j < length available)%nat).
        { apply lookup_lt_Some in Hj as Hlt. rewrite length_app in Hlt. cbn in Hlt.
          destruct (decide (j = length available)) as [->|]; [|lia].
          rewrite lookup_app_r, Nat.sub_diag in Hj by lia. cbn in Hj. congruence. }
        split.
        -- rewrite lookup_app_l in Hj by exact Hlt. exact Hj.
        -- intros j' Hj' Hc. apply (Hlast j' Hj').
           rewrite lookup_app_l; [exact Hc|]. apply lookup_lt_Some in Hc. exact Hc.
Qed.

Section Window.
Variable Config : ConfigT.
Variable env : Env.

Lemma window_indexes_fold (available : list Z) (videos : list VideoKey) :
  forall (acc : gset Z) (z : Z),
  z ∈ window_indexes Config available videos acc
  <-> z ∈ acc
      \/ exists video vi,
           video ∈ videos
           /\ episode_index_map available !! episode video = Some vi
           /\ Z.max 0 (vi - episodes_to_match Config) <= z
              < Z.min (Z.of_nat (length available)) (vi + episodes_to_match Config + 1).
Proof.
  induction videos as [|video videos IH]; intros acc z.
  - cbn. split; [auto|]. intros [H|(v & vi & Hin & _)]; [exact H|inversion Hin].
  - unfold window_indexes in *. cbn [foldl]. rewrite IH. clear IH.
    destruct (episode_index_map available !! episode video) as [vi|] eqn:Hvi.
    + rewrite elem_of_union, elem_of_list_to_set, elem_of_seqZ. split.
      * intros [[H|H]|(v & vi' & Hin & Hm & Hr)].
        -- left; exact H.
        -- right. exists video, vi. split_and!; [apply list_elem_of_here|exact Hvi|lia|lia].
        -- right. exists v, vi'. split_and!; [apply list_elem_of_further; exact Hin|exact Hm|lia|lia].
      * intros [H|(v & vi' & Hin & Hm & Hr)]; [left; left; exact H|].
        apply elem_of_cons in Hin as [->|Hin].
        -- left. right. rewrite Hvi in Hm. injection Hm as <-. lia.
        -- right. exists v, vi'. auto.
    + split.
      * intros [H|(v & vi' & Hin & Hm & Hr)]; [left; exact H|].
        right. exists v, vi'. split_and!; [apply list_elem_of_further; exact Hin|exact Hm|lia|lia].
      * intros [H|(v & vi' & Hin & Hm & Hr)]; [left; exact H|].
        apply elem_of_cons in Hin as [->|Hin]; [congruence|].
        right. exists v, vi'. auto.
Qed.

Lemma window_indexes_spec (available : list Z) (videos : list VideoKey) (z : Z) :
  z ∈ window_indexes Config available videos ∅
  <-> exists i, z = Z.of_nat i /\ near_requested Config available videos i.
Proof.
  rewrite window_indexes_fold. split.
  - intros [H|(video & vi & Hin & Hm & Hr)]; [apply not_elem_of_empty in H; destruct H|].
    apply episode_index_map_spec in Hm as (j & -> & Hlast).
    exists (Z.to_nat z). split; [lia|]. split; [lia|].
    exists video, j. split_and!; [exact Hin|exact Hlast|lia|lia].
  - intros (i & -> & Hlen & video & j & Hin & Hlast & Hr). right.
    exists video, (Z.of_nat j). split_and!; [exact Hin| |lia|lia].
    apply episode_index_map_spec. exists j. auto.
Qed.

Lemma map_result_lookup (available : list Z) (zs : list Z) :
  Forall (fun z => 0 <= z < Z.of_nat (length available)) zs ->
  exists eps,
    map_result (fun i => match available !! Z.to_nat i with
                         | Some episode => Ok episode
                         | None => Raise IndexError
                         end) zs = Ok eps
    /\ Forall2 (fun z episode => available !! Z.to_nat z = Some episode) zs eps.
Proof.
  induction 1 as [|z zs Hz _ (eps & Hrun & Hall)].
  - exists []. split; [reflexivity|constructor].
  - destruct (lookup_lt_is_Some_2 available (Z.to_nat z)) as [ep Hep]; [lia|].
    exists (ep :: eps). cbn [map_result]. rewrite Hep, Hrun. cbn [rbind].
    split; [reflexivity|constructor; assumption].
Qed.

Lemma Forall2_impl_l {A B} (Q : A -> Prop) (P R : A -> B -> Prop)
    (l : list A) (k : list B) :
  Forall Q l -> Forall2 P l k -> (forall x y, Q x -> P x y -> R x y) ->
  Forall2 R l k.
Proof.
  intros HQ HP Himpl. induction HP as [|x y l k Hxy _ IH]; [constructor|].
  apply Forall_cons in HQ as [Hx HQ]. constructor; auto.
Qed.

Lemma sublist_of_increasing_indexes {A} (l : list A) :
  forall (base : nat) (idxs : list nat) (xs : list A),
  StronglySorted Nat.lt idxs ->
  Forall (fun i => base <= i)%nat idxs ->
  Forall2 (fun i x => l !! (i - base)%nat = Some x) idxs xs ->
  sublist xs l.
Proof.
  induction l as [|a l IH]; intros base idxs xs Hsorted Hbase Hall.
  - destruct Hall as [|i x idxs xs Hi _]; [constructor|discriminate].
  - destruct Hall as [|i x idxs xs Hi Hall]; [apply sublist_nil_l|].
    apply StronglySorted_inv in Hsorted as [Hsorted Hlt].
    apply Forall_cons in Hbase as [Hbi Hbase].
    destruct (decide (i = base)) as [->|Hne].
    + rewrite Nat.sub_diag in Hi. injection Hi as <-.
      assert (Hnext : Forall (fun j => S base <= j)%nat idxs).
      { eapply Forall_impl; [exact Hlt|]. intros j Hj. cbn in Hj. lia. }
      apply sublist_skip. apply (IH (S base) idxs xs Hsorted Hnext).
      apply (Forall2_impl_l _ _ _ _ _ Hnext Hall).
      intros j y Hj Hy. replace (j - base)%nat with (S (j - S base)) in Hy by lia.
      exact Hy.
    + assert (Hnext : Forall (fun j => S base <= j)%nat (i :: idxs)).
      { constructor; [lia|]. eapply Forall_impl; [exact Hlt|].
        intros j Hj. cbn in Hj. lia. }
      apply sublist_cons. apply (IH (S base) (i :: idxs) (x :: xs)).
      * constructor; assumption.
      * exact Hnext.
      * assert (Hall' : Forall2 (fun i x => (a :: l) !! (i - base)%nat = Some x)
                                (i :: idxs) (x :: xs)) by (constructor; assumption).
        apply (Forall2_impl_l _ _ _ _ _ Hnext Hall').
        intros j y Hj Hy. replace (j - base)%nat with (S (j - S base)) in Hy by lia.
        exact Hy.
Qed.

Lemma increasing_indexes (zs : list Z) :
  StronglySorted Z.le zs -> NoDup zs -> Forall (fun z => 0 <= z) zs ->
  StronglySorted Nat.lt (Z.to_nat <$> zs).
Proof.
  induction 1 as [|z zs _ IH Hle]; intros Hnd Hpos; [constructor|].
  apply NoDup_cons in Hnd as [Hnotin Hnd].
  apply Forall_cons in Hpos as [Hz Hpos].
  cbn. constructor; [auto|].
  apply Forall_fmap. apply Forall_forall. intros y Hy. cbn.
  pose proof (proj1 (Forall_forall _ _) Hle y Hy) as Hzy.
  pose proof (proj1 (Forall_forall _ _) Hpos y Hy) as H0y.
  assert (z <> y) by (intros ->; contradiction). lia.
Qed.

Lemma last_index_exists (available : list Z) (episode : Z) :
  episode ∈ available -> exists j, last_index_of available episode j.
Proof.
  induction available as [|x available IH] using rev_ind; intros Hin; [inversion Hin|].
  destruct (decide (x = episode)) as [->|Hne].
  - exists (length available). split.
    + rewrite lookup_app_r, Nat.sub_diag by lia. reflexivity.
    + intros j' Hj'. rewrite lookup_ge_None_2; [discriminate|].
      rewrite length_app. cbn. lia.
  - apply elem_of_app in Hin as [Hin|Hin].
    + destruct (IH Hin) as (j & Hj & Hlast).
      pose proof (lookup_lt_Some _ _ _ Hj) as Hlt.
      exists j. split; [rewrite lookup_app_l by exact Hlt; exact Hj|].
      intros j' Hj'. destruct (decide (j' < length available)%nat) as [Hl|Hl].
      * rewrite lookup_app_l by exact Hl. apply Hlast. exact Hj'.
      * destruct (decide (j' = length available)) as [->|Hn].
        -- rewrite lookup_app_r, Nat.sub_diag by lia. cbn. congruence.
        -- rewrite lookup_ge_None_2; [discriminate|]. rewrite length_app. cbn. lia.
    + apply list_elem_of_singleton in Hin. congruence.
Qed.

Lemma episode_window_unfold (first : VideoKey) (others : list VideoKey) (w : World) :
  let available := episodes_response env (my_anime_list_id first) (dub first) in
  fst (_get_episodes_to_process Config env (first :: others) false w)
  = map_result (fun i => match available !! Z.to_nat i with
                         | Some episode => Ok episode
                         | None => Raise IndexError
                         end)
               (merge_sort Z.le
                  (elements (window_indexes Config available (first :: others) ∅))).
Proof. reflexivity. Qed.

Lemma episode_window_run (first : VideoKey) (others : list VideoKey) (w : World) :
  let available := episodes_response env (my_anime_list_id first) (dub first) in
  let videos_to_match := first :: others in
  exists eps,
    fst (_get_episodes_to_process Config env videos_to_match false w) = Ok eps
    /\ sublist eps available
    /\ forall episode,
         episode ∈ eps
         <-> exists i, available !! i = Some episode
                       /\ near_requested Config available videos_to_match i.
Proof.
  intros available videos_to_match. subst videos_to_match.
  rewrite episode_window_unfold. fold available.
  set (videos_to_match := first :: others).
  set (indexes := window_indexes Config available videos_to_match ∅).
  set (sorted_indexes := merge_sort Z.le (elements indexes)).
  assert (Hperm : sorted_indexes ≡ₚ elements indexes) by apply merge_sort_Permutation.
  assert (Hmem : forall z, z ∈ sorted_indexes
                           <-> exists i, z = Z.of_nat i
                                         /\ near_requested Config available videos_to_match i).
  { intros z. rewrite Hperm, elem_of_elements. apply window_indexes_spec. }
  assert (Hrange : Forall (fun z => 0 <= z < Z.of_nat (length available)) sorted_indexes).
  { apply Forall_forall. intros z Hz. apply Hmem in Hz as (i & -> & Hlen & _). lia. }
  destruct (map_result_lookup available sorted_indexes Hrange) as (eps & Hrun & Hall).
  exists eps. rewrite Hrun. split; [reflexivity|]. split.
  - apply (sublist_of_increasing_indexes available 0 (Z.to_nat <$> sorted_indexes) eps).
    + apply increasing_indexes.
      * apply StronglySorted_merge_sort; apply _.
      * rewrite Hperm. apply NoDup_elements.
      * eapply Forall_impl; [exact Hrange|]. intros z Hz. cbn in Hz. lia.
    + apply Forall_forall. intros i _. lia.
    + apply Forall2_fmap_l. eapply Forall2_impl; [exact Hall|].
      intros z ep Hz. cbn. rewrite Nat.sub_0_r. exact Hz.
  - intros episode. split.
    + intros Hin. apply list_elem_of_lookup in Hin as [k Hk].
      destruct (Forall2_lookup_r _ _ _ _ _ Hall Hk) as (z & Hz & Hep).
      apply list_elem_of_lookup_2 in Hz. apply Hmem in Hz as (i & -> & Hnear).
      exists i. rewrite Nat2Z.id in Hep. auto.
    + intros (i & Hep & Hnear).
      assert (Hz : Z.of_nat i ∈ sorted_indexes) by (apply Hmem; eauto).
      apply list_elem_of_lookup in Hz as [k Hk].
      destruct (Forall2_lookup_l _ _ _ _ _ Hall Hk) as (ep & Hk' & Hep').
      rewrite Nat2Z.id, Hep in Hep'. injection Hep' as <-.
      apply list_elem_of_lookup_2 in Hk'. exact Hk'.
Qed.

End Window.

(** ** The world only grows *)

Lemma grows_refl (w : World) : grows w w.
Proof. split_and!; exists []; symmetry; apply app_nil_r. Qed.

Lemma grows_trans (w1 w2 w3 : World) : grows w1 w2 -> grows w2 w3 -> grows w1 w3.
Proof.
  intros ((a1 & Ha1) & (b1 & Hb1) & (c1 & Hc1)) ((a2 & Ha2) & (b2 & Hb2) & (c2 & Hc2)).
  split_and!.
  - exists (a1 ++ a2). rewrite Ha2, Ha1, app_assoc. reflexivity.
  - exists (b1 ++ b2). rewrite Hb2, Hb1, app_assoc. reflexivity.
  - exists (c1 ++ c2). rewrite Hc2, Hc1, app_assoc. reflexivity.
Qed.

Lemma growing_ret {A} (a : A) : growing (ret a).
Proof. intros w. apply grows_refl. Qed.

Lemma growing_raise {A} (e : exn) : growing (@raise A e).
Proof. intros w. apply grows_refl. Qed.

Lemma growing_lift {A} (r : result A) : growing (lift r).
Proof. intros w. apply grows_refl. Qed.

Lemma growing_logger (level : Level) (msg : Message) : growing (logger level msg).
Proof.
  intros w. split_and!; cbn;
    [exists []; rewrite app_nil_r|eexists|exists []; rewrite app_nil_r]; reflexivity.
Qed.

Lemma growing_append (x : float) : growing (append_truncated_duration x).
Proof.
  intros w. split_and!; cbn;
    [eexists|exists []; rewrite app_nil_r|exists []; rewrite app_nil_r]; reflexivity.
Qed.

Lemma growing_bind {A B} (m : M A) (k : A -> M B) :
  growing m -> (forall a, growing (k a)) -> growing (bind m k).
Proof.
  intros Hm Hk w. unfold bind. pose proof (Hm w) as H1.
  destruct (m w) as [[a|e] w1]; cbn [snd] in *; [|exact H1].
  eapply grows_trans; [exact H1|apply Hk].
Qed.

Lemma growing_try_except {A} (body : M A) (handler : exn -> M A) :
  growing body -> (forall e, growing (handler e)) -> growing (try_except body handler).
Proof.
  intros Hm Hk w. unfold try_except. pose proof (Hm w) as H1.
  destruct (body w) as [[a|e] w1]; cbn [snd] in *; [exact H1|].
  eapply grows_trans; [exact H1|apply Hk].
Qed.

Lemma growing_retry {A} (f : M A) : growing f -> growing (retry f).
Proof.
  intros Hf w. unfold retry. pose proof (Hf w) as H1.
  destruct (f w) as [[a|e] w1]; cbn [snd] in *; [exact H1|].
  eapply grows_trans; [exact H1|apply Hf].
Qed.

Lemma growing_for_each {A} (xs : list A) (body : A -> M unit) :
  (forall x, growing (body x)) -> growing (for_each xs body).
Proof.
  intros Hbody. induction xs as [|x xs IH]; cbn [for_each].
  - apply growing_ret.
  - apply growing_bind; auto.
Qed.

Lemma growing_map_M {A B} (f : A -> M B) (xs : list A) :
  (forall x, growing (f x)) -> growing (map_M f xs).
Proof.
  intros Hf. induction xs as [|x xs IH]; cbn [map_M].
  - apply growing_ret.
  - apply growing_bind; [auto|]. intros y.
    apply growing_bind; [auto|]. intros ys. apply growing_ret.
Qed.

Ltac grow_step :=
  match goal with
  | |- growing (bind _ _) => apply growing_bind; [|intros ?]
  | |- growing (ret _) => apply growing_ret
  | |- growing (raise _) => apply growing_raise
  | |- growing (lift _) => apply growing_lift
  | |- growing (logger _ _) => apply growing_logger
  | |- growing (append_truncated_duration _) => apply growing_append
  | |- growing (try_except _ _) => apply growing_try_except; [|intros ?]
  | |- growing (retry _) => apply growing_retry
  | |- growing (for_each _ _) => apply growing_for_each; intros ?
  | |- growing (map_M _ _) => apply growing_map_M; intros ?
  | |- growing (if ?b then _ else _) => destruct b
  | |- growing (match ?x with Some _ => _ | None => _ end) => destruct x
  | |- growing (match ?x with [] => _ | _ :: _ => _ end) => destruct x
  | |- growing (let '(_, _) := ?p in _) => destruct p
  | |- growing (match ?p with (_, _) => _ end) => destruct p
  end.

Section Growing.
Variable Config : ConfigT.
Variable env : Env.

Lemma growing_invoke (name : string) (payload : Payload) : growing (invoke name payload).
Proof.
  intros w. split_and!; cbn;
    [exists []; rewrite app_nil_r|exists []; rewrite app_nil_r|eexists]; reflexivity.
Qed.

Lemma growing_get_video (my_anime_list_id : Z) (dub : string) (episode : Z) :
  growing (get_video Config env my_anime_list_id dub episode).
Proof. unfold get_video. repeat first [apply growing_invoke | grow_step]. Qed.

Lemma growing_get_episodes (my_anime_list_id : Z) (dub : string) :
  growing (get_episodes Config env my_anime_list_id dub).
Proof. unfold get_episodes. repeat first [apply growing_invoke | grow_step]. Qed.

Lemma growing_get_playlist_and_duration (my_anime_list_id : Z) (dub : string)
    (episode : Z) :
  growing (_get_playlist_and_duration Config env my_anime_list_id dub episode).
Proof.
  unfold _get_playlist_and_duration.
  repeat first [apply growing_get_video | grow_step].
Qed.

Lemma growing_iteration (self : AudioProvider) (i : nat) :
  growing (iteration Config env self i).
Proof. unfold iteration. repeat grow_step. Qed.

Lemma growing_next (self : AudioProvider) (frame : Frame) :
  growing (next Config env self frame).
Proof.
  unfold next. destruct frame; repeat first [apply growing_iteration | grow_step].
Qed.

Lemma growing_consume (fuel : nat) (self : AudioProvider) (frame : Frame) :
  growing (consume Config env fuel self frame).
Proof.
  revert self frame. induction fuel as [|fuel IH]; intros self frame; cbn [consume].
  - apply growing_raise.
  - repeat first [apply growing_next | apply IH | grow_step].
Qed.

Lemma growing_truncated_durations (self : AudioProvider) :
  growing (truncated_durations self).
Proof.
  unfold truncated_durations. destruct (_completed self).
  - intros w. apply grows_refl.
  - apply growing_raise.
Qed.

Lemma growing_get_scenes_by_playlists (playlists_and_durations : list (M3U8 * float)) :
  growing (_get_scenes_by_playlists Config env playlists_and_durations).
Proof.
  unfold _get_scenes_by_playlists, _get_openings, _get_endings, consume_iterator.
  repeat first [apply growing_consume | apply growing_truncated_durations | grow_step].
Qed.

Lemma growing_find_scenes (my_anime_list_id : Z) (dub : string)
    (episodes_to_process : list Z) :
  growing (find_scenes Config env my_anime_list_id dub episodes_to_process).
Proof.
  unfold find_scenes.
  repeat first [apply growing_get_playlist_and_duration
               | apply growing_get_scenes_by_playlists | grow_step].
Qed.

Lemma growing_process_batch (my_anime_list_id : Z) (dub : string)
    (episodes_to_process : list Z) :
  growing (_process_batch Config env my_anime_list_id dub episodes_to_process).
Proof.
  unfold _process_batch, update_video_scenes, upload_empty_scenes.
  repeat first [apply growing_find_scenes | grow_step].
Qed.

Lemma growing_get_episodes_to_process (videos_to_match : list VideoKey)
    (force : bool) :
  growing (_get_episodes_to_process Config env videos_to_match force).
Proof.
  unfold _get_episodes_to_process.
  repeat first [apply growing_get_episodes | grow_step].
Qed.

(** X11: [_process_videos] only appends: whatever the request and however
    it ends, the shared durations, the log and the invocations it leaves
    behind extend the ones it found. *)
Theorem process_videos_only_appends (videos_to_match : list VideoKey) (force : bool) :
  growing (_process_videos Config env videos_to_match force).
Proof.
  unfold _process_videos, upload_empty_scenes.
  repeat first [apply growing_get_episodes_to_process
               | apply growing_process_batch | grow_step].
Qed.

End Growing.

(** ** The outcome of a batch *)

Lemma bind_ok {A B} (m : M A) (k : A -> M B) (w : World) (b : B) (w' : World) :
  bind m k w = (Ok b, w') ->
  exists a w1, m w = (Ok a, w1) /\ k a w1 = (Ok b, w').
Proof.
  unfold bind. destruct (m w) as [[a|e] w1]; [|discriminate]. eauto.
Qed.

Lemma bind_raise {A B} (m : M A) (k : A -> M B) (w : World) (e : exn) (w' : World) :
  bind m k w = (Raise e, w') ->
  m w = (Raise e, w') \/ exists a w1, m w = (Ok a, w1) /\ k a w1 = (Raise e, w').
Proof.
  unfold bind. destruct (m w) as [[a|e1] w1]; [eauto|]. intros [= <- <-]. auto.
Qed.

Lemma batch_outcome_app (my_anime_list_id : Z) (dub : string) (batch : list Z)
    (before records after : list (Level * Message)) :
  batch_outcome my_anime_list_id dub batch records ->
  batch_outcome my_anime_list_id dub batch (before ++ records ++ after).
Proof.
  intros [(items & Hkeys & H1 & H2)|H].
  - left. exists items. rewrite !elem_of_app. auto.
  - right. rewrite !elem_of_app. auto.
Qed.

Lemma batch_outcome_after (my_anime_list_id : Z) (dub : string) (batch : list Z)
    (before records : list (Level * Message)) :
  batch_outcome my_anime_list_id dub batch records ->
  batch_outcome my_anime_list_id dub batch (before ++ records).
Proof.
  intros H. apply (batch_outcome_app _ _ _ before records []) in H.
  rewrite app_nil_r in H. exact H.
Qed.

Lemma batch_outcome_before (my_anime_list_id : Z) (dub : string) (batch : list Z)
    (records after : list (Level * Message)) :
  batch_outcome my_anime_list_id dub batch records ->
  batch_outcome my_anime_list_id dub batch (records ++ after).
Proof. intros H. apply (batch_outcome_app _ _ _ [] records after) in H. exact H. Qed.

Section BatchOutcome.
Variable Config : ConfigT.
Variable env : Env.

Lemma process_batch_unfold (my_anime_list_id : Z) (dub : string) (episodes : list Z) :
  _process_batch Config env my_anime_list_id dub episodes
  = retry (process_batch_attempt Config env my_anime_list_id dub episodes).
Proof. reflexivity. Qed.

Lemma find_scenes_keys (my_anime_list_id : Z) (dub : string) (episodes : list Z)
    (w : World) scenes_by_video w' :
  find_scenes Config env my_anime_list_id dub episodes w = (Ok scenes_by_video, w') ->
  exists all_scenes,
    scenes_by_video = zip (video_keys my_anime_list_id dub episodes) all_scenes.
Proof.
  unfold find_scenes. intros Hrun.
  apply bind_ok in Hrun as (? & w1 & _ & Hrun).
  apply bind_ok in Hrun as (manifests & w2 & _ & Hrun).
  apply bind_ok in Hrun as (? & w3 & _ & Hrun).
  apply bind_ok in Hrun as (found & w4 & _ & Hrun).
  injection Hrun as <- <-. eexists. reflexivity.
Qed.

Lemma attempt_raise (my_anime_list_id : Z) (dub : string) (episodes : list Z)
    (w : World) (e : exn) (w' : World) :
  process_batch_attempt Config env my_anime_list_id dub episodes w = (Raise e, w') ->
  find_scenes Config env my_anime_list_id dub episodes w = (Raise e, w').
Proof.
  unfold process_batch_attempt. intros Hrun.
  apply bind_raise in Hrun as [Hrun|(r & w1 & _ & Hrun)]; [exact Hrun|].
  exfalso. revert Hrun.
  unfold bind, logger, update_video_scenes, upload_empty_scenes, ret, logger.
  destruct (_ =? _)%nat; discriminate.
Qed.

Lemma attempt_ok (my_anime_list_id : Z) (dub : string) (episodes : list Z)
    (w : World) (w' : World) :
  process_batch_attempt Config env my_anime_list_id dub episodes w = (Ok tt, w') ->
  exists records,
    log w' = log w ++ records
    /\ batch_outcome my_anime_list_id dub episodes records.
Proof.
  unfold process_batch_attempt. intros Hrun.
  apply bind_ok in Hrun as (r & w1 & Hfind & Hrun).
  destruct (growing_find_scenes Config env my_anime_list_id dub episodes w)
    as (_ & (records0 & Hlog0) & _).
  rewrite Hfind in Hlog0. cbn [snd] in Hlog0.
  apply find_scenes_keys in Hfind as (all_scenes & ->).
  set (r := zip (video_keys my_anime_list_id dub episodes) all_scenes) in *.
  revert Hrun. unfold bind, logger, update_video_scenes, upload_empty_scenes, ret.
  cbn [log _truncated_durations_per_episode lambda_invocations].
  destruct (Nat.eqb_spec (length (items (_get_scenes_to_upload r))) (length episodes))
    as [Hcount|Hcount]; intros [= <-]; cbn [log]; rewrite Hlog0, <- !app_assoc;
    eexists; (split; [reflexivity|]); apply batch_outcome_after.
  - left. exists (items (_get_scenes_to_upload r)). split_and!.
    + unfold _get_scenes_to_upload in *. cbn [items] in *.
      rewrite length_map in Hcount. rewrite map_map.
      transitivity (map fst r); [apply map_ext; intros [k s]; reflexivity|].
      subst r. apply (fst_zip (video_keys my_anime_list_id dub episodes)).
      rewrite length_zip in Hcount. unfold video_keys in *.
      rewrite length_map in *. lia.
    + do 1 apply list_elem_of_further. apply list_elem_of_here.
    + do 2 apply list_elem_of_further. apply list_elem_of_here.
  - right. do 2 apply list_elem_of_further. apply list_elem_of_here.
Qed.

Lemma growing_attempt (my_anime_list_id : Z) (dub : string) (episodes : list Z) :
  growing (process_batch_attempt Config env my_anime_list_id dub episodes).
Proof.
  unfold process_batch_attempt, update_video_scenes, upload_empty_scenes.
  repeat first [apply growing_find_scenes | grow_step].
Qed.

(** X12: [_process_batch] raises only when [find_scenes] has raised twice in
    a row, the second time from the world the first failure left; the
    exception is the one of the second failure. *)
Theorem process_batch_raises_after_two_failures (my_anime_list_id : Z)
    (dub : string) (episodes : list Z) (w : World) (e : exn) (w' : World) :
  _process_batch Config env my_anime_list_id dub episodes w = (Raise e, w') ->
  exists e1 w1,
    find_scenes Config env my_anime_list_id dub episodes w = (Raise e1, w1)
    /\ find_scenes Config env my_anime_list_id dub episodes w1 = (Raise e, w').
Proof.
  rewrite process_batch_unfold. unfold retry.
  destruct (process_batch_attempt Config env my_anime_list_id dub episodes w)
    as [[[]|e1] w1] eqn:Hfirst; [discriminate|].
  intros Hsecond. apply attempt_raise in Hfirst, Hsecond. eauto.
Qed.

Lemma process_batch_records (my_anime_list_id : Z) (dub : string)
    (episodes : list Z) (w w' : World) :
  _process_batch Config env my_anime_list_id dub episodes w = (Ok tt, w') ->
  exists records,
    log w' = log w ++ records
    /\ batch_outcome my_anime_list_id dub episodes records.
Proof.
  rewrite process_batch_unfold. unfold retry.
  destruct (process_batch_attempt Config env my_anime_list_id dub episodes w)
    as [[[]|e1] w1] eqn:Hfirst.
  - intros [= <-]. apply attempt_ok in Hfirst. exact Hfirst.
  - intros Hsecond.
    destruct (growing_attempt my_anime_list_id dub episodes w) as (_ & (r0 & Hlog0) & _).
    rewrite Hfirst in Hlog0. cbn [snd] in Hlog0.
    apply attempt_ok in Hsecond as (records & Hlog & Hout).
    exists (r0 ++ records). rewrite Hlog, Hlog0, app_assoc.
    split; [reflexivity|apply batch_outcome_after; exact Hout].
Qed.

(** X13: a batch that [_process_batch] finishes has been answered in full:
    either one item per episode of the batch, in order, was handed to
    [update_video_scenes], or empty scenes were requested for every episode
    of the batch. *)
Theorem process_batch_outcome (my_anime_list_id : Z) (dub : string)
    (episodes : list Z) (w w' : World) :
  _process_batch Config env my_anime_list_id dub episodes w = (Ok tt, w') ->
  exists records,
    log w' = log w ++ records
    /\ batch_outcome my_anime_list_id dub episodes records.
Proof. apply process_batch_records. Qed.

Lemma process_batch_step_outcome (my_anime_list_id : Z) (dub : string)
    (batch : list Z) (w : World) :
  exists w' records,
    process_batch_step Config env my_anime_list_id dub batch w = (Ok tt, w')
    /\ log w' = log w ++ records
    /\ batch_outcome my_anime_list_id dub batch records.
Proof.
  unfold process_batch_step, try_except.
  unfold bind at 1. cbn [logger].
  set (w0 := {| _truncated_durations_per_episode := _; log := _;
                lambda_invocations := _ |}).
  unfold bind at 1.
  destruct (_process_batch Config env my_anime_list_id dub batch w0)
    as [[[]|e] w1] eqn:Hbatch.
  - apply process_batch_records in Hbatch as (records & Hlog & Hout).
    eexists _, _. split; [reflexivity|]. cbn [logger log]. rewrite Hlog.
    subst w0. cbn [log]. rewrite <- !app_assoc.
    split; [reflexivity|].
    apply (batch_outcome_app _ _ _ [_] records [_]). exact Hout.
  - destruct (growing_process_batch Config env my_anime_list_id dub batch w0)
      as (_ & (r0 & Hlog0) & _).
    rewrite Hbatch in Hlog0. cbn [snd] in Hlog0.
    eexists _, _. split; [reflexivity|].
    unfold bind, upload_empty_scenes, logger. cbn [log]. rewrite Hlog0.
    subst w0. cbn [log]. rewrite <- !app_assoc.
    split; [reflexivity|].
    right. rewrite !elem_of_app, !list_elem_of_singleton. auto.
Qed.

Lemma for_each_batches_outcome (my_anime_list_id : Z) (dub : string)
    (batches : list (list Z)) :
  forall w, exists w' records,
    for_each batches (process_batch_step Config env my_anime_list_id dub) w
    = (Ok tt, w')
    /\ log w' = log w ++ records
    /\ forall batch, batch ∈ batches ->
         batch_outcome my_anime_list_id dub batch records.
Proof.
  induction batches as [|batch batches IH]; intros w.
  - exists w, []. split; [reflexivity|]. split; [symmetry; apply app_nil_r|].
    intros batch Hin. inversion Hin.
  - destruct (process_batch_step_outcome my_anime_list_id dub batch w)
      as (w1 & r1 & Hstep & Hlog1 & Hout1).
    destruct (IH w1) as (w2 & r2 & Hrest & Hlog2 & Hout2).
    exists w2, (r1 ++ r2). cbn [for_each]. unfold bind. rewrite Hstep, Hrest.
    split; [reflexivity|]. split; [rewrite Hlog2, Hlog1, app_assoc; reflexivity|].
    intros b Hin. apply elem_of_cons in Hin as [->|Hin].
    + apply batch_outcome_before. exact Hout1.
    + apply batch_outcome_after. apply Hout2. exact Hin.
Qed.

End BatchOutcome.

(** ** The flow of a request *)

Section RequestFlow.
Variable Config : ConfigT.
Variable env : Env.

Lemma episode_window_world (first : VideoKey) (others : list VideoKey)
    (force : bool) (w : World) :
  let available := episodes_response env (my_anime_list_id first) (dub first) in
  snd (_get_episodes_to_process Config env (first :: others) force w)
  = {| _truncated_durations_per_episode := _truncated_durations_per_episode w;
       log := log w ++ (if force && negb (length available <? 27)%nat
                        then [(ERROR, MsgForceTooMany)] else []);
       lambda_invocations :=
         lambda_invocations w
         ++ [(loan_api_function_arn Config,
              GetEpisodesRequest (my_anime_list_id first) (dub first))] |}.
Proof.
  intros available. destruct force.
  - cbv beta iota zeta delta
      [_get_episodes_to_process bind get_episodes invoke ret logger fst snd].
    fold available. destruct (Nat.ltb (length available) 27);
      cbn [negb andb snd log _truncated_durations_per_episode lambda_invocations];
      rewrite ?app_nil_r; reflexivity.
  - cbn [andb]. rewrite app_nil_r. reflexivity.
Qed.

Lemma process_videos_enter (first : VideoKey) (others : list VideoKey)
    (force : bool) (w : World) (episodes_to_process : list Z) :
  _ensure_if_all_videos_for_same_group (first :: others) = Ok tt ->
  fst (_get_episodes_to_process Config env (first :: others) force w)
  = Ok episodes_to_process ->
  _process_videos Config env (first :: others) force w
  = process_window Config env (first :: others) force (my_anime_list_id first)
      (dub first) episodes_to_process
      (world_at_window Config env first others force w).
Proof.
  intros Hgroup Hwindow. unfold _process_videos.
  unfold bind at 1. cbn [logger].
  unfold bind at 1. unfold lift at 1. rewrite Hgroup.
  unfold bind at 1. cbn [logger].
  unfold bind at 1.
  match goal with
  | |- context [_get_episodes_to_process Config env ?vs force ?w0] =>
      pose proof (get_episodes_to_process_world Config env first others force w w0)
        as Hfst;
      pose proof (episode_window_world first others force w0) as Hsnd;
      destruct (_get_episodes_to_process Config env vs force w0) as [res w1] eqn:Hrun0
  end.
  rewrite Hwindow in Hfst. cbn [fst snd] in Hfst, Hsnd. subst res w1.
  cbn [log _truncated_durations_per_episode lambda_invocations].
  unfold world_at_window. rewrite <- !app_assoc. reflexivity.
Qed.


(** X14: when the window holds fewer than [min_episode_number] episodes,
    [_process_videos] requests empty scenes for every requested video and
    returns: two more log records, no manifest requested, no audio
    captured. *)
Theorem process_videos_not_enough (first : VideoKey) (others : list VideoKey)
    (force : bool) (w : World) (episodes_to_process : list Z) :
  let videos_to_match := first :: others in
  let r := _process_videos Config env videos_to_match force w in
  let w1 := world_at_window Config env first others force w in
  _ensure_if_all_videos_for_same_group videos_to_match = Ok tt ->
  fst (_get_episodes_to_process Config env videos_to_match force w)
  = Ok episodes_to_process ->
  Z.of_nat (length episodes_to_process) < min_episode_number Config ->
  fst r = Ok tt
  /\ log (snd r)
     = log w1 ++ [(INFO, MsgNotEnoughVideos);
                  (INFO, MsgUploadingEmptyScenes videos_to_match)]
  /\ lambda_invocations (snd r) = lambda_invocations w1
  /\ _truncated_durations_per_episode (snd r) = _truncated_durations_per_episode w.
Proof.
  intros videos_to_match r w1 Hgroup Hwindow Hmin. subst r videos_to_match.
  rewrite (process_videos_enter first others force w episodes_to_process Hgroup Hwindow).
  fold w1. unfold process_window.
  destruct (Z.ltb_spec (Z.of_nat (length episodes_to_process))
              (min_episode_number Config)) as [_|]; [|lia].
  unfold bind, upload_empty_scenes, logger. cbn [fst snd log lambda_invocations
    _truncated_durations_per_episode]. rewrite <- app_assoc.
  split_and!; reflexivity.
Qed.

(** X15: when the window is large enough and no requested episode is missing
    (or [force] is set), [_process_videos] returns normally and every batch
    has its outcome in the log: scenes for each of its episodes, or the
    fallback of empty scenes for each of them, also when the batch failed
    twice. *)
Theorem process_videos_every_batch_ends (first : VideoKey)
    (others : list VideoKey) (force : bool) (w : World)
    (episodes_to_process : list Z) (batches : list (list Z)) :
  let videos_to_match := first :: others in
  let unavailable_videos :=
    filter (fun video => episode video ∉ episodes_to_process) videos_to_match in
  _ensure_if_all_videos_for_same_group videos_to_match = Ok tt ->
  fst (_get_episodes_to_process Config env videos_to_match force w)
  = Ok episodes_to_process ->
  min_episode_number Config <= Z.of_nat (length episodes_to_process) ->
  unavailable_videos = [] \/ force = true ->
  split_into_batches Config episodes_to_process = Ok batches ->
  exists w' records,
    _process_videos Config env videos_to_match force w = (Ok tt, w')
    /\ log w' = log w ++ records
    /\ forall batch, batch ∈ batches ->
         batch_outcome (my_anime_list_id first) (dub first) batch records.
Proof.
  intros videos_to_match unavailable_videos Hgroup Hwindow Hmin Hgo Hsplit.
  subst videos_to_match.
  rewrite (process_videos_enter first others force w episodes_to_process Hgroup Hwindow).
  unfold process_window.
  destruct (Z.ltb_spec (Z.of_nat (length episodes_to_process))
              (min_episode_number Config)) as [|_]; [lia|].
  fold unavailable_videos.
  assert (Hcond : (0 <? length unavailable_videos)%nat && negb force = false).
  { destruct Hgo as [->| ->]; [reflexivity|apply andb_false_r]. }
  rewrite Hcond. unfold bind at 1. cbn [logger].
  unfold bind at 1. unfold lift at 1. rewrite Hsplit.
  match goal with
  | |- context [for_each batches _ ?w2] =>
      destruct (for_each_batches_outcome Config env (my_anime_list_id first)
                  (dub first) batches w2) as (w' & records & Hrun & Hlog & Hout)
  end.
  rewrite Hrun.
  exists w', (drop (length (log w)) (log (world_at_window Config env first others force w))
              ++ [(INFO, MsgVideosToProcess episodes_to_process)] ++ records).
  split; [reflexivity|]. split.
  - rewrite Hlog. cbn [log world_at_window].
    rewrite drop_app_length, <- !app_assoc. reflexivity.
  - intros batch Hin. apply batch_outcome_after.
    apply (batch_outcome_after _ _ _ [_]). apply Hout. exact Hin.
Qed.



(** X17: [_ensure_if_all_videos_for_same_group] raises [IndexError] exactly
    on the empty request, [ValueError] exactly when two requested videos
    differ in series or dub, and returns exactly when the request is not
    empty and all its videos have the same series and dub. *)
Theorem ensure_same_group_spec (videos_to_match : list VideoKey) :
  (_ensure_if_all_videos_for_same_group videos_to_match = Raise IndexError
   <-> videos_to_match = [])
  /\ (_ensure_if_all_videos_for_same_group videos_to_match = Ok tt
      <-> videos_to_match <> []
          /\ forall v1 v2, v1 ∈ videos_to_match -> v2 ∈ videos_to_match ->
                my_anime_list_id v1 = my_anime_list_id v2 /\ dub v1 = dub v2)
  /\ (_ensure_if_all_videos_for_same_group videos_to_match = Raise ValueError
      <-> exists v1 v2, v1 ∈ videos_to_match /\ v2 ∈ videos_to_match
            /\ (my_anime_list_id v1 <> my_anime_list_id v2 \/ dub v1 <> dub v2)).
Proof.
  destruct videos_to_match as [|first others].
  - cbn. split_and!.
    + split; auto.
    + split; [discriminate|]. intros [H _]. congruence.
    + split; [discriminate|]. intros (v1 & _ & H & _). inversion H.
  - unfold _ensure_if_all_videos_for_same_group.
    set (same := fun video : VideoKey =>
                   (my_anime_list_id video =? my_anime_list_id first)
                   && String.eqb (dub video) (dub first)).
    assert (Hsame : forall v, same v = true
                    <-> my_anime_list_id v = my_anime_list_id first
                        /\ dub v = dub first).
    { intros v. subst same. cbn. rewrite andb_true_iff, Z.eqb_eq, String.eqb_eq.
      reflexivity. }
    destruct (forallb same (first :: others)) eqn:Hall.
    + rewrite forallb_forall in Hall.
      assert (Hgroup : forall v, v ∈ first :: others ->
                my_anime_list_id v = my_anime_list_id first /\ dub v = dub first).
      { intros v Hv. apply Hsame, Hall. apply list_elem_of_In. exact Hv. }
      split_and!.
      * split; discriminate.
      * split; [|reflexivity]. intros _. split; [discriminate|].
        intros v1 v2 H1 H2. destruct (Hgroup v1 H1), (Hgroup v2 H2). split; congruence.
      * split; [discriminate|]. intros (v1 & v2 & H1 & H2 & Hne).
        destruct (Hgroup v1 H1), (Hgroup v2 H2). destruct Hne; congruence.
    + assert (Hex : exists v, v ∈ first :: others /\ same v = false).
      { apply not_true_iff_false in Hall.
        destruct (existsb (fun v => negb (same v)) (first :: others)) eqn:Hex.
        - apply existsb_exists in Hex as (v & Hin & Hv). exists v.
          split; [apply list_elem_of_In; exact Hin|].
          destruct (same v); [discriminate|reflexivity].
        - exfalso. apply Hall. apply forallb_forall. intros v Hin.
          destruct (same v) eqn:Hv; [reflexivity|].
          assert (existsb (fun v => negb (same v)) (first :: others) = true).
          { apply existsb_exists. exists v. rewrite Hv. auto. }
          congruence. }
      destruct Hex as (v & Hin & Hv).
      assert (Hdiff : my_anime_list_id v <> my_anime_list_id first
                      \/ dub v <> dub first).
      { destruct (decide (my_anime_list_id v = my_anime_list_id first)) as [H1|H1];
          [|auto].
        destruct (decide (dub v = dub first)) as [H2|H2]; [|auto].
        exfalso. apply not_true_iff_false in Hv. apply Hv, Hsame. auto. }
      split_and!.
      * split; discriminate.
      * split; [discriminate|]. intros [_ Hgroup].
        destruct (Hgroup v first Hin (list_elem_of_here _ _)). destruct Hdiff; congruence.
      * split; [|reflexivity]. intros _. exists v, first.
        split_and!; [exact Hin|apply list_elem_of_here|exact Hdiff].
Qed.

End RequestFlow.

(** ** The window, the keys and the shared durations *)

Lemma filter_ext_elem_of {A} (P Q : A -> Prop) `{!forall x, Decision (P x)}
    `{!forall x, Decision (Q x)} (l : list A) :
  (forall x, x ∈ l -> (P x <-> Q x)) -> filter P l = filter Q l.
Proof.
  induction l as [|x l IH]; intros Hiff; [reflexivity|].
  rewrite !filter_cons.
  pose proof (Hiff x (list_elem_of_here _ _)) as Hx.
  rewrite IH by (intros y Hy; apply Hiff, list_elem_of_further, Hy).
  destruct (decide (P x)), (decide (Q x)); tauto || reflexivity.
Qed.

Section WindowTheorems.
Variable Config : ConfigT.
Variable env : Env.

(** X18: without [force], [_get_episodes_to_process] answers the available
    episodes that are at most [episodes_to_match] positions away from the
    (last) position of a requested episode, in the order of the available
    episodes and each position once. *)
Theorem episode_window_spec (first : VideoKey) (others : list VideoKey) (w : World) :
  let available := episodes_response env (my_anime_list_id first) (dub first) in
  let videos_to_match := first :: others in
  exists eps,
    fst (_get_episodes_to_process Config env videos_to_match false w) = Ok eps
    /\ sublist eps available
    /\ forall episode,
         episode ∈ eps
         <-> exists i, available !! i = Some episode
                       /\ near_requested Config available videos_to_match i.
Proof. apply episode_window_run. Qed.

(** X19: for a radius that is not negative, a requested episode is in the
    window exactly when it is available, so the videos [_process_videos]
    reports as unavailable are the ones whose episode is not among the
    available episodes. *)
Theorem episode_window_contains_requested (first : VideoKey)
    (others : list VideoKey) (w : World) :
  let available := episodes_response env (my_anime_list_id first) (dub first) in
  let videos_to_match := first :: others in
  0 <= episodes_to_match Config ->
  exists eps,
    fst (_get_episodes_to_process Config env videos_to_match false w) = Ok eps
    /\ (forall video, video ∈ videos_to_match ->
          (episode video ∈ eps <-> episode video ∈ available))
    /\ filter (fun video => episode video ∉ eps) videos_to_match
       = filter (fun video => episode video ∉ available) videos_to_match.
Proof.
  intros available videos_to_match Hradius.
  destruct (episode_window_run Config env first others w) as (eps & Hrun & Hsub & Hmem).
  fold available videos_to_match in Hrun, Hsub, Hmem.
  assert (Hiff : forall video, video ∈ videos_to_match ->
                   (episode video ∈ eps <-> episode video ∈ available)).
  { intros video Hin. split.
    - intros Hep. apply Hmem in Hep as (i & Hi & _).
      apply list_elem_of_lookup_2 in Hi. exact Hi.
    - intros Hav. destruct (last_index_exists available (episode video) Hav)
        as (j & Hlast).
      apply Hmem. exists j. split; [apply Hlast|]. split.
      + destruct Hlast as [Hj _]. apply lookup_lt_Some in Hj. exact Hj.
      + exists video, j. split_and!; [exact Hin|exact Hlast|lia|lia]. }
  exists eps. split; [exact Hrun|]. split; [exact Hiff|].
  apply filter_ext_elem_of. intros video Hin.
  specialize (Hiff video Hin). tauto.
Qed.
End WindowTheorems.

Section MoreProvider.
Variable Config : ConfigT.
Variable env : Env.

(** X20: when [_build_segments_list] answers a duration below the audio
    window, it has selected every segment of the playlist, in playlist
    order, and the duration is that of all segments, added one after the
    other from 0 in scan order: first to last for the leading scan, last to
    first for the trailing scan. *)
Theorem short_playlist_selects_everything (playlist : M3U8) (opening : bool)
    (uris : list string) (d : float) :
  _build_segments_list Config playlist opening = Ok (uris, d) ->
  ge d (of_int (seconds_to_match Config)) = false ->
  map absolute_uri (segments playlist) = map Some uris
  /\ exists durations,
       map duration (segments playlist) = map Some durations
       /\ d = PyFloat.sum (if opening then durations else rev durations).
Proof.
  intros Hrun Hshort. unfold _build_segments_list in Hrun.
  apply build_segments_loop_spec in Hrun
    as (scanned & rest & su & sd & Hiter & Hus & Hds & -> & -> & Hstop & _ & _).
  destruct Hstop as [->|Hstop]; [|congruence].
  rewrite app_nil_r in Hiter. subst scanned.
  destruct opening.
  - split; [exact Hus|]. exists sd. split; [exact Hds|reflexivity].
  - rewrite map_rev in Hus, Hds. split.
    + rewrite app_nil_r, map_rev, <- Hus, rev_involutive. reflexivity.
    + exists (rev sd). split.
      * rewrite map_rev, <- Hds, rev_involutive. reflexivity.
      * rewrite rev_involutive. reflexivity.
Qed.

Lemma fst_zip_take {A B} (l : list A) (k : list B) :
  map fst (zip l k) = take (length k) l.
Proof.
  revert k. induction l as [|x l IH]; intros [|y k]; cbn; try reflexivity.
  f_equal. apply IH.
Qed.

(** X21: the keys [find_scenes] answers are a prefix of the keys of the
    requested episodes, in order. *)
Theorem find_scenes_keys_prefix (my_anime_list_id : Z) (dub : string)
    (episodes : list Z) (w : World) scenes_by_video w' :
  find_scenes Config env my_anime_list_id dub episodes w = (Ok scenes_by_video, w') ->
  map fst scenes_by_video
  = take (length scenes_by_video) (video_keys my_anime_list_id dub episodes)
  /\ (length scenes_by_video <= length episodes)%nat.
Proof.
  intros Hrun. apply find_scenes_keys in Hrun as (all_scenes & ->).
  rewrite fst_zip_take, length_zip. unfold video_keys. rewrite length_map. split.
  - destruct (Nat.le_ge_cases (length episodes) (length all_scenes)) as [H|H].
    + rewrite Nat.min_l by exact H. rewrite !take_ge by (rewrite length_map; lia).
      reflexivity.
    + rewrite Nat.min_r by exact H. reflexivity.
  - lia.
Qed.

Lemma bind_world {A B} (m : M A) (k : A -> M B) (w : World) :
  (forall a w1, snd (k a w1) = w1) -> snd (bind m k w) = snd (m w).
Proof.
  intros Hk. unfold bind. destruct (m w) as [[a|e] w1]; [apply Hk|reflexivity].
Qed.

Lemma truncated_durations_world (self : AudioProvider) (w : World) :
  snd (truncated_durations self w) = w.
Proof. unfold truncated_durations. destruct (_completed self); reflexivity. Qed.

Lemma get_openings_world (playlists_and_durations : list (M3U8 * float))
    (series_window : Z) (w : World) :
  snd (_get_openings Config env playlists_and_durations series_window w)
  = snd (consume_iterator Config env
           (AudioProvider__init__ (map fst playlists_and_durations) true) w).
Proof.
  unfold _get_openings. apply bind_world. intros [it wp] w1.
  rewrite bind_world by (intros; reflexivity). apply truncated_durations_world.
Qed.

Lemma get_endings_world (playlists_and_durations : list (M3U8 * float))
    (series_window : Z) (w : World) :
  snd (_get_endings Config env playlists_and_durations series_window w)
  = snd (consume_iterator Config env
           (AudioProvider__init__ (map fst playlists_and_durations) false) w).
Proof.
  unfold _get_endings. apply bind_world. intros [it wp] w1.
  rewrite bind_world by (intros; reflexivity). apply truncated_durations_world.
Qed.

Lemma consume_world (playlists_and_durations : list (M3U8 * float))
    (opening : bool) (w : World) :
  complete_manifests playlists_and_durations ->
  (2 <= length playlists_and_durations)%nat ->
  exists appended,
    snd (consume_iterator Config env
           (AudioProvider__init__ (map fst playlists_and_durations) opening) w)
    = with_truncated w appended
    /\ length appended = length playlists_and_durations.
Proof.
  intros Hall Htwo.
  destruct (consume_iterator_fresh Config env (map fst playlists_and_durations)
              opening w (complete_manifests_playlists _ Hall))
    as (windows & Hrun & Hlen & _).
  rewrite length_map in Hlen.
  destruct (Nat.ltb_spec (length playlists_and_durations) 2); [lia|].
  exists (map captured windows). rewrite Hrun, length_map. auto.
Qed.

(** X22: one call of [_get_scenes_by_playlists] on two or more complete
    manifests leaves the shared list of captured durations longer by two
    values per manifest: one from the leading provider, one from the
    trailing provider. *)
Theorem shared_list_grows_by_two_per_manifest
    (playlists_and_durations : list (M3U8 * float)) (w : World) :
  recogniser_contract env ->
  complete_manifests playlists_and_durations ->
  (2 <= length playlists_and_durations)%nat ->
  exists found appended w',
    _get_scenes_by_playlists Config env playlists_and_durations w = (Ok found, w')
    /\ _truncated_durations_per_episode w'
       = _truncated_durations_per_episode w ++ appended
    /\ length appended = (2 * length playlists_and_durations)%nat.
Proof.
  intros Hrec Hall Htwo.
  destruct (get_openings_ok Config env playlists_and_durations
              (episodes_to_match Config) w Hrec Hall Htwo)
    as (openings & ws1 & Hop & _).
  pose proof (get_openings_world playlists_and_durations (episodes_to_match Config) w)
    as Hw1.
  destruct (consume_world playlists_and_durations true w Hall Htwo) as (a1 & Ha1 & Hl1).
  rewrite Hop, Ha1 in Hw1. cbn [snd] in Hw1.
  destruct (get_endings_ok Config env playlists_and_durations
              (episodes_to_match Config) (with_truncated w (map captured ws1))
              Hrec Hall Htwo)
    as (endings & ws2 & Hen & _).
  pose proof (get_endings_world playlists_and_durations (episodes_to_match Config)
                (with_truncated w (map captured ws1))) as Hw2.
  destruct (consume_world playlists_and_durations false
              (with_truncated w (map captured ws1)) Hall Htwo) as (a2 & Ha2 & Hl2).
  rewrite Hen, Ha2 in Hw2. cbn [snd] in Hw2.
  unfold _get_scenes_by_playlists. unfold bind at 1. rewrite Hop.
  unfold bind at 1. rewrite Hen.
  eexists _, (a1 ++ a2), _. split; [reflexivity|]. split.
  - rewrite Hw2, Hw1. cbn [with_truncated _truncated_durations_per_episode].
    rewrite app_assoc. reflexivity.
  - rewrite length_app. lia.
Qed.

Lemma zip3_prefix {A B C} (xs : list A) (ys extra : list B) (zs : list C) :
  (length zs <= length ys)%nat ->
  zip3 xs (ys ++ extra) zs = zip3 xs ys zs.
Proof.
  intros Hlen. apply list_eq. intros k. rewrite !lookup_zip3.
  destruct (xs !! k) as [x|]; [|reflexivity].
  destruct (zs !! k) as [z|] eqn:Hz.
  - apply lookup_lt_Some in Hz.
    rewrite lookup_app_l by lia. reflexivity.
  - destruct ((ys ++ extra) !! k), (ys !! k); reflexivity.
Qed.

(** X23: when the shared list already holds at least as many values as
    there are manifests, [_get_endings] corrects the recognised endings with
    the values that were there before, not with the durations its own
    provider has just captured (which it appends behind them). *)
Theorem endings_use_stale_durations
    (playlists_and_durations : list (M3U8 * float)) (series_window : Z) (w : World) :
  complete_manifests playlists_and_durations ->
  (2 <= length playlists_and_durations)%nat ->
  (length playlists_and_durations
   <= length (_truncated_durations_per_episode w))%nat ->
  exists windows,
    length windows = length playlists_and_durations
    /\ _get_endings Config env playlists_and_durations series_window w
       = (Ok (_fix_endings
                (recognise_from_audio_files_with_offsets env windows series_window)
                playlists_and_durations
                (_truncated_durations_per_episode w)),
          with_truncated w (map captured windows)).
Proof.
  intros Hall Htwo Hstale. unfold _get_endings.
  destruct (consume_iterator_fresh Config env (map fst playlists_and_durations) false w
              (complete_manifests_playlists _ Hall))
    as (windows & Hrun & Hwins & _).
  rewrite length_map in Hwins.
  destruct (Nat.ltb_spec (length playlists_and_durations) 2) as [|_]; [lia|].
  unfold bind at 1. rewrite Hrun.
  unfold bind at 1. rewrite truncated_durations_ready by reflexivity.
  exists windows. split; [exact Hwins|].
  unfold ret. f_equal. f_equal.
  cbn [with_truncated _truncated_durations_per_episode].
  unfold _fix_endings. rewrite zip3_prefix by exact Hstale.
  f_equal. f_equal. f_equal. clear. induction (recognise_from_audio_files_with_offsets _ _ _)
    as [|[a b] l IH]; [reflexivity|]. cbn. rewrite IH. reflexivity.
Qed.

End MoreProvider.

(** ** The further properties on concrete requests *)

Lemma example_complete_manifests :
  complete_manifests [(Examples.long_playlist, of_int 600);
                      (Examples.long_playlist, of_int 600)].
Proof. repeat constructor; eexists; reflexivity. Qed.

Lemma example_complete_playlists :
  Forall complete_playlist [Examples.long_playlist; Examples.long_playlist].
Proof. repeat constructor; eexists; reflexivity. Qed.

(** The second generator of a provider of two episodes. *)
Lemma get_iterator_single_use_witness :
  exists item self' frame' w',
    next Examples.config (Examples.env 3)
      (AudioProvider__init__ [Examples.long_playlist; Examples.long_playlist] true)
      Created Examples.fresh
    = (Ok (item, self', frame'), w')
    /\ next Examples.config (Examples.env 3) self' Created w'
       = (Raise AssertionError, w').
Proof.
  destruct (next Examples.config (Examples.env 3)
              (AudioProvider__init__
                 [Examples.long_playlist; Examples.long_playlist] true)
              Created Examples.fresh)
    as [[[[item self'] frame']|e] w'] eqn:Hfirst.
  - exists item, self', frame', w'. split; [reflexivity|].
    exact (get_iterator_single_use Examples.config (Examples.env 3) _ _ _ _ _ _ w'
             Hfirst).
  - vm_compute in Hfirst. discriminate.
Defined.

(** A provider of one episode. *)
Lemma fewer_than_two_playlists_witness :
  exists self',
    consume_iterator Examples.config (Examples.env 3)
      (AudioProvider__init__ [Examples.long_playlist] true) Examples.fresh
    = (Ok ([], self'), Examples.fresh)
    /\ truncated_durations self' Examples.fresh = (Ok [], Examples.fresh).
Proof.
  apply (fewer_than_two_playlists Examples.config (Examples.env 3)
           [Examples.long_playlist] true Examples.fresh).
  simpl. lia.
Defined.

(** The trailing provider of two episodes of 600 s. *)
Lemma windows_in_manifest_order_witness :
  exists windows self' w',
    consume_iterator Examples.config (Examples.env 3)
      (AudioProvider__init__ [Examples.long_playlist; Examples.long_playlist] false)
      Examples.fresh
    = (Ok (windows, self'), w')
    /\ length windows = 2%nat
    /\ _truncated_durations_per_episode w' !! 1%nat
       = Some (py_min (add (add (of_int 0) (of_int 200)) (of_int 200))
                      (of_int 300)).
Proof.
  destruct (windows_in_manifest_order Examples.config (Examples.env 3)
              [Examples.long_playlist; Examples.long_playlist] false Examples.fresh)
    as (windows & self' & w' & Hrun & Hlen & _ & _ & Heach).
  - exact example_complete_playlists.
  - simpl. lia.
  - exists windows, self', w'. split; [exact Hrun|]. split; [exact Hlen|].
    destruct (Heach 1%nat Examples.long_playlist eq_refl)
      as (uris & d & path & offset & Hbuild & _ & _ & Hshared).
    vm_compute in Hbuild. injection Hbuild as <- <-. exact Hshared.
Defined.

(** The first leading window of two episodes of 600 s. *)
Lemma yielded_window_bounds_witness :
  exists path offset truncated_duration self' frame' w',
    next Examples.config (Examples.env 3)
      (AudioProvider__init__ [Examples.long_playlist; Examples.long_playlist] true)
      Created Examples.fresh
    = (Ok (Some (path, offset, truncated_duration), self', frame'), w')
    /\ le truncated_duration (of_int 300) = true
    /\ ge offset (of_int 0) = true
    /\ _truncated_durations_per_episode w' = [truncated_duration].
Proof.
  destruct (next Examples.config (Examples.env 3)
              (AudioProvider__init__
                 [Examples.long_playlist; Examples.long_playlist] true)
              Created Examples.fresh)
    as [[[[[[[path offset] truncated_duration]|] self'] frame']|e] w'] eqn:Hfirst;
    [|vm_compute in Hfirst; discriminate|vm_compute in Hfirst; discriminate].
  destruct (yielded_window_bounds Examples.config (Examples.env 3) _ _ _ _ _ _ _ _ _
              Hfirst) as (Hcap & Hoff & Hshared).
  exists path, offset, truncated_duration, self', frame', w'.
  split; [reflexivity|].
  vm_compute in Hfirst. injection Hfirst as <- <- <- <- <- <-.
  split_and!; [apply Hcap; reflexivity|apply Hoff; reflexivity|exact Hshared].
Defined.

(** A batch of which one episode is too short fails twice. *)
Lemma process_batch_raises_after_two_failures_witness :
  exists e1 w1 e w',
    find_scenes Examples.config (Examples.env 3) 7 "sub" [1; 2] Examples.fresh
    = (Raise e1, w1)
    /\ find_scenes Examples.config (Examples.env 3) 7 "sub" [1; 2] w1
       = (Raise e, w')
    /\ _process_batch Examples.config (Examples.env 3) 7 "sub" [1; 2] Examples.fresh
       = (Raise e, w').
Proof.
  destruct (_process_batch Examples.config (Examples.env 3) 7 "sub" [1; 2]
              Examples.fresh) as [[[]|e] w'] eqn:Hbatch.
  - vm_compute in Hbatch. discriminate.
  - destruct (process_batch_raises_after_two_failures Examples.config
                (Examples.env 3) 7 "sub" [1; 2] Examples.fresh e w' Hbatch)
      as (e1 & w1 & Hfirst & Hsecond).
    exists e1, w1, e, w'. auto.
Defined.

(** A batch of three episodes. *)
Lemma process_batch_outcome_witness :
  exists w' records,
    _process_batch Examples.config (Examples.env 3) 7 "sub" [1; 2; 3] Examples.fresh
    = (Ok tt, w')
    /\ log w' = records
    /\ batch_outcome 7 "sub" [1; 2; 3] records.
Proof.
  destruct (_process_batch Examples.config (Examples.env 3) 7 "sub" [1; 2; 3]
              Examples.fresh) as [[[]|e] w'] eqn:Hbatch.
  - destruct (process_batch_outcome Examples.config (Examples.env 3) 7 "sub"
                [1; 2; 3] Examples.fresh w' Hbatch) as (records & Hlog & Hout).
    exists w', records. auto.
  - vm_compute in Hbatch. discriminate.
Defined.

(** A request for the only episode of a series. *)
Lemma process_videos_not_enough_witness :
  let r := _process_videos Examples.config (Examples.env 1) [Examples.key 1] false
             Examples.fresh in
  fst r = Ok tt
  /\ log (snd r)
     = [(INFO, MsgReceived [Examples.key 1]); (INFO, MsgSameGroup 7 "sub");
        (INFO, MsgNotEnoughVideos);
        (INFO, MsgUploadingEmptyScenes [Examples.key 1])]
  /\ _truncated_durations_per_episode (snd r) = [].
Proof.
  destruct (process_videos_not_enough Examples.config (Examples.env 1)
              (Examples.key 1) [] false Examples.fresh [1])
    as (Hrun & Hlog & _ & Hshared).
  - reflexivity.
  - vm_compute. reflexivity.
  - simpl. lia.
  - split_and!; [exact Hrun|exact Hlog|exact Hshared].
Defined.

(** A request for the episodes 1 and 3 of a series of three. *)
Lemma process_videos_every_batch_ends_witness :
  exists w' records,
    _process_videos Examples.config (Examples.env 3)
      [Examples.key 1; Examples.key 3] false Examples.fresh
    = (Ok tt, w')
    /\ log w' = records
    /\ batch_outcome 7 "sub" [1; 2; 3] records.
Proof.
  destruct (process_videos_every_batch_ends Examples.config (Examples.env 3)
              (Examples.key 1) [Examples.key 3] false Examples.fresh
              [1; 2; 3] [[1; 2; 3]])
    as (w' & records & Hrun & Hlog & Hout).
  - reflexivity.
  - vm_compute. reflexivity.
  - simpl. lia.
  - left. vm_compute. reflexivity.
  - vm_compute. reflexivity.
  - exists w', records. split_and!; [exact Hrun|exact Hlog|].
    apply Hout. apply list_elem_of_here.
Defined.


(** A request for the episodes 1 and 99 of a series of three. *)
Lemma episode_window_contains_requested_witness :
  exists eps,
    fst (_get_episodes_to_process Examples.config (Examples.env 3)
           [Examples.key 1; Examples.key 99] false Examples.fresh) = Ok eps
    /\ filter (fun video => episode video ∉ eps) [Examples.key 1; Examples.key 99]
       = [Examples.key 99].
Proof.
  destruct (episode_window_contains_requested Examples.config (Examples.env 3)
              (Examples.key 1) [Examples.key 99] Examples.fresh)
    as (eps & Hrun & _ & Hfilter).
  - simpl. lia.
  - exists eps. split; [exact Hrun|]. rewrite Hfilter. vm_compute. reflexivity.
Defined.

(** The playlist of 100 s. *)
Lemma short_playlist_selects_everything_witness :
  exists uris d,
    _build_segments_list Examples.config Examples.short_playlist false
    = Ok (uris, d)
    /\ map absolute_uri (segments Examples.short_playlist) = map Some uris.
Proof.
  destruct (_build_segments_list Examples.config Examples.short_playlist false)
    as [[uris d]|e] eqn:Hbuild.
  - exists uris, d. split; [reflexivity|].
    apply (short_playlist_selects_everything Examples.config
             Examples.short_playlist false uris d Hbuild).
    vm_compute in Hbuild. injection Hbuild as <- <-. vm_compute. reflexivity.
  - vm_compute in Hbuild. discriminate.
Defined.

(** Three episodes of which the second is too short. *)
Lemma find_scenes_keys_prefix_witness :
  exists scenes_by_video w',
    find_scenes Examples.config (Examples.env 3) 7 "sub" [1; 2; 3] Examples.fresh
    = (Ok scenes_by_video, w')
    /\ map fst scenes_by_video
       = take (length scenes_by_video) (video_keys 7 "sub" [1; 2; 3]).
Proof.
  destruct (find_scenes Examples.config (Examples.env 3) 7 "sub" [1; 2; 3]
              Examples.fresh) as [[scenes_by_video|e] w'] eqn:Hrun.
  - exists scenes_by_video, w'. split; [reflexivity|].
    apply (find_scenes_keys_prefix Examples.config (Examples.env 3) 7 "sub"
             [1; 2; 3] Examples.fresh scenes_by_video w' Hrun).
  - vm_compute in Hrun. discriminate.
Defined.

(** Two episodes of 600 s: four values. *)
Lemma shared_list_grows_by_two_per_manifest_witness :
  exists found appended w',
    _get_scenes_by_playlists Examples.config (Examples.env 3)
      [(Examples.long_playlist, of_int 600); (Examples.long_playlist, of_int 600)]
      Examples.fresh
    = (Ok found, w')
    /\ _truncated_durations_per_episode w' = appended
    /\ length appended = 4%nat.
Proof.
  apply (shared_list_grows_by_two_per_manifest Examples.config (Examples.env 3)
           [(Examples.long_playlist, of_int 600);
            (Examples.long_playlist, of_int 600)] Examples.fresh).
  - apply example_recogniser_contract.
  - exact example_complete_manifests.
  - simpl. lia.
Defined.

(** Two episodes of 600 s after a process that has captured 1 s and 2 s:
    the endings are moved by 599 s and 598 s. *)
Lemma endings_use_stale_durations_witness :
  let manifests :=
    [(Examples.long_playlist, of_int 600); (Examples.long_playlist, of_int 600)] in
  let w := with_truncated Examples.fresh [of_int 1; of_int 2] in
  exists windows,
    length windows = 2%nat
    /\ _get_endings Examples.config (Examples.env 3) manifests 5 w
       = (Ok (_fix_endings
                (recognise_from_audio_files_with_offsets (Examples.env 3) windows 5)
                manifests [of_int 1; of_int 2]),
          with_truncated w (map captured windows)).
Proof.
  apply (endings_use_stale_durations Examples.config (Examples.env 3)
           [(Examples.long_playlist, of_int 600);
            (Examples.long_playlist, of_int 600)] 5
           (with_truncated Examples.fresh [of_int 1; of_int 2])).
  - exact example_complete_manifests.
  - simpl. lia.
  - simpl. lia.
Defined.
